(** * workerpool: the dispatcher of [src/Pool.js]

    A shallow embedding of the [Pool] class: the task queue, the worker
    list, worker selection ([_getWorker]), the dispatch step ([_next]),
    submission ([exec] and [proxy]), worker removal, pool termination and
    the figures of [stats].

    The pool is single threaded and event driven.  Every synchronous
    function of [Pool.js] is a function on [State]; every callback the pool
    registers (promise continuations, the scaling timer, worker signals) is
    a function on [State] too, and the event loop that fires them is the
    step function [fire].

    The collaborators of the pool whose code lives in other modules
    ([WorkerHandler], [Promise], [DebugPortAllocator], [environment]) are
    not interpreted: a call into one of them is recorded, in program order,
    in the [trace] of the state, and what they answer ([worker.available()],
    [worker.terminated], how a termination promise settles) is an argument
    of the function that asks.  The two hooks and the callbacks of promises
    are taken not to call back into the pool while it runs, and a call into
    a collaborator is taken to return, except
    [WorkerHandler.ensureWorkerThreads], whose outcome is an input of the
    constructor.

    The constructor checks [maxWorkers] and [minWorkers] and stores
    [maxQueueSize] and [gradualScaling] as they are given.  These two are
    taken to be numbers, their documented type, of any kind ([number]):
    fractions, negative numbers and infinities included.  How a number
    reads in a message is JavaScript's business and is written out only
    where it is certain ([written]); timers are those of Node
    ([timer_delay]).

    [wstats] adds up counters that [WorkerHandler] keeps and a
    floating-point load figure, and the parameters [_createWorkerHandler]
    hands to [WorkerHandler] are read by that module only.  Both are left
    out. *)

From Stdlib Require Import List ZArith Lia Bool String Ascii Arith DecimalString.
Import ListNotations.

Set Warnings "-register-all".
Local Open Scope string_scope.
Local Open Scope list_scope.
Local Open Scope nat_scope.

(** ** JavaScript values *)

(** The numbers the pool computes with are the integers and [+Infinity]. *)
Inductive num :=
| Int (z : Z)
| Infinity.

(** The values a caller can pass.  A number is one of [num], or a number
    that is not an integer: a fraction, of which only the integer part is
    kept, or [NaN]. *)
Inductive value :=
| VUndefined
| VNull
| VBool (b : bool)
| VNumber (n : num)
| VFraction (floor : Z)
| VNaN
| VString (s : string)
| VArray (l : list value).

(** A number held by an option that the constructor stores unchecked
    ([maxQueueSize], [gradualScaling], whose documented type is number): an
    integer or [Infinity], a number that is not an integer, of which the
    integer below it is kept, [-Infinity], or [NaN]. *)
Inductive number :=
| Whole (n : num)
| Fraction (floor : Z)
| NegInfinity
| NaN.

(** The message of an error the pool makes with [+]: pieces of text and
    the numbers spliced in between.  How a number is written out is
    JavaScript's doing, see [written]. *)
Inductive piece :=
| Str (s : string)
| Num (n : number).

Definition text := list piece.

(** What is thrown: a [TypeError] or an [Error] made by the pool, with its
    message, or the [TypeError] the engine raises for ["maxWorkers" in v]
    when [v] is not an object, whose message is the engine's. *)
Inductive error :=
| TypeError (msg : string)
| Error (msg : text)
| InTypeError (v : value).

(** What a call does: it returns, throws, or never comes back. *)
Inductive outcome (A : Type) :=
| Returns (a : A)
| Throws (e : error)
| Diverges.
Arguments Returns {A} a.
Arguments Throws {A} e.
Arguments Diverges {A}.

Definition num_ltb (a b : num) : bool :=
  match a, b with
  | Int x, Int y => (x <? y)%Z
  | Int _, Infinity => true
  | Infinity, _ => false
  end.

Definition num_leb (a b : num) : bool :=
  match a, b with
  | Int x, Int y => (x <=? y)%Z
  | _, Infinity => true
  | Infinity, Int _ => false
  end.

(** [Math.max] *)
Definition num_max (a b : num) : num :=
  match a, b with
  | Int x, Int y => Int (Z.max x y)
  | _, _ => Infinity
  end.

(** [String(n)], where every digit of it is certain: an integer below
    [2^53] in size is written with all its digits.  Above that size
    JavaScript writes the shortest digits that read back as the same
    double, and exponent form from [1e21]; a fraction is kept here without
    its digits.  Those are left unwritten. *)
Definition written (n : number) : option string :=
  match n with
  | Whole (Int z) =>
      if (Z.abs z <? 2 ^ 53)%Z
      then Some (NilZero.string_of_int (Z.to_int z))
      else None
  | Whole Infinity => Some "Infinity"
  | Fraction _ => None
  | NegInfinity => Some "-Infinity"
  | NaN => Some "NaN"
  end.

(** The message as one string, where its numbers are [written]. *)
Fixpoint text_string (t : text) : option string :=
  match t with
  | [] => Some ""
  | Str x :: t' => option_map (String.append x) (text_string t')
  | Num n :: t' =>
      match written n, text_string t' with
      | Some x, Some y => Some (x ++ y)%string
      | _, _ => None
      end
  end.

Definition num_truthy (n : num) : bool :=
  match n with
  | Int z => negb (z =? 0)%Z
  | Infinity => true
  end.

Definition number_truthy (n : number) : bool :=
  match n with
  | Whole m => num_truthy m
  | Fraction _ => true
  | NegInfinity => true
  | NaN => false
  end.

(** [n === 0] *)
Definition is_zero (n : number) : bool :=
  match n with
  | Whole (Int z) => (z =? 0)%Z
  | _ => false
  end.

(** [length >= n] for the length of an array: a number that is not an
    integer is at most [length] when the integer below it is under
    [length]; no comparison with [NaN] holds. *)
Definition reaches (length : nat) (n : number) : bool :=
  match n with
  | Whole m => num_leb m (Int (Z.of_nat length))
  | Fraction f => (f <? Z.of_nat length)%Z
  | NegInfinity => true
  | NaN => false
  end.

(** The delay a timer of Node runs with: a delay that is not a number from
    [1] to [2^31 - 1] becomes [1], and the fraction of a delay is cut
    off. *)
Definition timer_delay (ms : number) : Z :=
  match ms with
  | Whole (Int z) => if (1 <=? z)%Z && (z <=? 2147483647)%Z then z else 1%Z
  | Fraction f => if (1 <=? f)%Z && (f <? 2147483647)%Z then f else 1%Z
  | _ => 1%Z
  end.

Definition truthy (v : value) : bool :=
  match v with
  | VUndefined | VNull => false
  | VBool b => b
  | VNumber n => num_truthy n
  | VFraction _ => true
  | VNaN => false
  | VString s => negb (String.eqb s "")
  | VArray _ => true
  end.

(** [Array.isArray] *)
Definition isArray (v : value) : bool :=
  match v with
  | VArray _ => true
  | _ => false
  end.

(** [isNumber] (lines 565-567): [typeof value === "number"]. *)
Definition isNumber (v : value) : bool :=
  match v with
  | VNumber _ | VFraction _ | VNaN => true
  | _ => false
  end.

(** [a.length] as a number. *)
Definition len {A : Type} (l : list A) : num := Int (Z.of_nat (List.length l)).

(** [a[i]] for a number [i] that is an integer: [undefined] below zero and
    past the end. *)
Definition array_get {A : Type} (l : list A) (i : Z) : option A :=
  if (i <? 0)%Z then None else nth_error l (Z.to_nat i).

(** [a[x % a.length]].  The remainder takes the sign of [x]; with an empty
    array it is [NaN], which indexes nothing.  A negative multiple of the
    length gives [-0], which indexes slot [0] as [Z.rem] does. *)
Definition array_get_rem {A : Type} (l : list A) (x : Z) : option A :=
  match l with
  | [] => None
  | _ :: _ => array_get l (Z.rem x (Z.of_nat (List.length l)))
  end.

(** [a.indexOf(x)]: [None] stands for [-1]. *)
Fixpoint indexOf (x : nat) (l : list nat) : option nat :=
  match l with
  | [] => None
  | y :: l' => if Nat.eqb y x then Some 0 else option_map S (indexOf x l')
  end.

(** [a.splice(i, 1)] *)
Definition splice1 {A : Type} (i : nat) (l : list A) : list A :=
  firstn i l ++ skipn (S i) l.

(** [a || b] on an optional worker. *)
Definition or_else {A : Type} (a : option A) (b : A) : A :=
  match a with
  | Some x => x
  | None => b
  end.

(** ** Tasks *)

(** The per-task options.  [affinity] is an integer when present; the
    other keys are handed to the worker as they are. *)
Record ExecOptions := mkExecOptions {
  affinity : option Z;
  passthrough : list (string * value)
}.

(** A task object.  A resolver is the identity of the deferred made for the
    task by [Promise.defer()]; one is made per task, so it identifies the
    task object too. *)
Record Task := mkTask {
  method : string;
  params : value;
  resolver : nat;
  timeout : option value;      (* [null] until a delay is recorded *)
  options : option ExecOptions
}.

(** [tasks[0].options?.affinity] *)
Definition task_affinity (t : Task) : option Z :=
  match options t with
  | Some o => affinity o
  | None => None
  end.

Definition set_timeout (d : value) (t : Task) : Task :=
  mkTask (method t) (params t) (resolver t) (Some d) (options t).

(** ** Calls that leave the pool *)

(** The two promises a task has: the one [exec] returned to the caller, and
    the chain [_next] builds on [worker.exec(...)]. *)
Inductive promise_ref :=
| TaskFuture (r : nat)
| ExecChain (r : nat).

Inductive event :=
| OnCreateWorker                               (* this.onCreateWorker({...}) *)
| NextAvailableStartingAt                      (* DEBUG_PORT_ALLOCATOR.nextAvailableStartingAt(debugPortStart) *)
| NewWorkerHandler (w : nat)                   (* new WorkerHandler(...), the handle is w *)
| ReleasePort (w : nat)                        (* DEBUG_PORT_ALLOCATOR.releasePort(w.debugPort) *)
| WorkerExec (w : nat) (t : Task)              (* w.exec(t.method, t.params, t.resolver, t.options) *)
| NativeTimeout (p : promise_ref) (d : value)  (* the timeout of the Promise module, on p *)
| Reject (r : nat) (msg : string)              (* resolver.reject(new Error(msg)) *)
| TerminateAndNotify (w : nat) (force tmo : value)
| WorkerTerminate (w : nat) (force : bool)     (* w.terminate(force, cb) *)
| OnTerminateWorker (w : nat)                  (* this.onTerminateWorker({forkArgs, forkOpts, script} of w) *)
| SetTimeout (ms : number)                     (* setTimeout(() => (this.canCreateWorker = true), ms) *)
| EnsureWorkerThreads.                         (* WorkerHandler.ensureWorkerThreads() *)

(** ** The pool *)

(** The fields of [this] that the dispatcher reads, followed by the part of
    the run time it lives in.  The remaining fields of [this] ([forkArgs],
    [forkOpts], [workerThreadOpts], [debugPortStart], [concurrency],
    [maxExec], the ready timeouts, the two hooks) are only forwarded to
    [WorkerHandler]. *)
Record State := mkState {
  script : option string;
  workers : list nat;            (* queue with all workers, by handle *)
  tasks : list Task;             (* queue with tasks awaiting execution *)
  workerType : string;
  roundrobin : bool;
  maxQueueSize : number;
  gradualScaling : number;
  canCreateWorker : bool;
  maxWorkers : num;
  minWorkers : option num;       (* [None]: the field was never assigned *)
  lastChosen : Z;
  (* run time *)
  nextId : nat;                  (* the next fresh object identity *)
  settled : list nat;            (* resolvers that are no longer pending *)
  now : Z;                       (* the clock, in ms *)
  timers : list Z;               (* deadlines of the armed scaling timers *)
  trace : list (Z * event)       (* the calls made so far, with their time *)
}.

Definition set_workers (x : list nat) (s : State) : State :=
  mkState (script s) x (tasks s) (workerType s) (roundrobin s)
    (maxQueueSize s) (gradualScaling s) (canCreateWorker s) (maxWorkers s)
    (minWorkers s) (lastChosen s) (nextId s) (settled s) (now s) (timers s)
    (trace s).

Definition set_tasks (x : list Task) (s : State) : State :=
  mkState (script s) (workers s) x (workerType s) (roundrobin s)
    (maxQueueSize s) (gradualScaling s) (canCreateWorker s) (maxWorkers s)
    (minWorkers s) (lastChosen s) (nextId s) (settled s) (now s) (timers s)
    (trace s).

Definition set_canCreateWorker (x : bool) (s : State) : State :=
  mkState (script s) (workers s) (tasks s) (workerType s) (roundrobin s)
    (maxQueueSize s) (gradualScaling s) x (maxWorkers s)
    (minWorkers s) (lastChosen s) (nextId s) (settled s) (now s) (timers s)
    (trace s).

Definition set_lastChosen (x : Z) (s : State) : State :=
  mkState (script s) (workers s) (tasks s) (workerType s) (roundrobin s)
    (maxQueueSize s) (gradualScaling s) (canCreateWorker s) (maxWorkers s)
    (minWorkers s) x (nextId s) (settled s) (now s) (timers s)
    (trace s).

Definition set_nextId (x : nat) (s : State) : State :=
  mkState (script s) (workers s) (tasks s) (workerType s) (roundrobin s)
    (maxQueueSize s) (gradualScaling s) (canCreateWorker s) (maxWorkers s)
    (minWorkers s) (lastChosen s) x (settled s) (now s) (timers s)
    (trace s).

Definition set_settled (x : list nat) (s : State) : State :=
  mkState (script s) (workers s) (tasks s) (workerType s) (roundrobin s)
    (maxQueueSize s) (gradualScaling s) (canCreateWorker s) (maxWorkers s)
    (minWorkers s) (lastChosen s) (nextId s) x (now s) (timers s)
    (trace s).

Definition set_now (x : Z) (s : State) : State :=
  mkState (script s) (workers s) (tasks s) (workerType s) (roundrobin s)
    (maxQueueSize s) (gradualScaling s) (canCreateWorker s) (maxWorkers s)
    (minWorkers s) (lastChosen s) (nextId s) (settled s) x (timers s)
    (trace s).

Definition set_timers (x : list Z) (s : State) : State :=
  mkState (script s) (workers s) (tasks s) (workerType s) (roundrobin s)
    (maxQueueSize s) (gradualScaling s) (canCreateWorker s) (maxWorkers s)
    (minWorkers s) (lastChosen s) (nextId s) (settled s) (now s) x
    (trace s).

Definition set_trace (x : list (Z * event)) (s : State) : State :=
  mkState (script s) (workers s) (tasks s) (workerType s) (roundrobin s)
    (maxQueueSize s) (gradualScaling s) (canCreateWorker s) (maxWorkers s)
    (minWorkers s) (lastChosen s) (nextId s) (settled s) (now s) (timers s)
    x.

(** Record a call that leaves the pool. *)
Definition emit (e : event) (s : State) : State :=
  set_trace (trace s ++ [(now s, e)]) s.

(** The calls made so far, without their times. *)
Definition events (s : State) : list event := map snd (trace s).

(** ** The Promise module, as far as the pool relies on it *)

(** Modelled from the spec: [src/Promise.js] is missing.  A future is
    pending until it is resolved, rejected or cancelled. *)
Definition pending (r : nat) (s : State) : bool :=
  negb (existsb (Nat.eqb r) (settled s)).

(** Modelled from the spec: [src/Promise.js] is missing.  [reject] is
    idempotent: the first settlement wins, later ones change nothing. *)
Definition reject (r : nat) (msg : string) (s : State) : State :=
  let s1 := emit (Reject r msg) s in
  if pending r s1 then set_settled (r :: settled s1) s1 else s1.

(** [Promise.defer()]: a fresh pending deferred. *)
Definition defer (s : State) : nat * State :=
  (nextId s, set_nextId (S (nextId s)) s).

(** [setTimeout(() => (this.canCreateWorker = true), ms)]: the callback
    runs no earlier than the delay the timer runs with, counted from
    now. *)
Definition setTimeout (ms : number) (s : State) : State :=
  set_timers (timers s ++ [(now s + timer_delay ms)%Z]) (emit (SetTimeout ms) s).

(** ** Creating a worker: [_createWorkerHandler] (lines 499-536) *)

(** The hook is asked for overrides, a debug port is taken, and the handler
    is constructed; the new handle is a fresh object. *)
Definition _createWorkerHandler (s : State) : nat * State :=
  let s1 := emit OnCreateWorker s in
  let s2 := emit NextAvailableStartingAt s1 in
  let w := nextId s2 in
  (w, emit (NewWorkerHandler w) (set_nextId (S w) s2)).

(** [workers.push(worker)] *)
Definition push_worker (w : nat) (s : State) : State :=
  set_workers (workers s ++ [w]) s.

(** ** Selecting a worker: [_getWorker] (lines 271-310) *)

(** Lines 276-278: [if (affinity != null) chosenWorker = workers[affinity % workers.length]]. *)
Definition pick_affinity (aff : option Z) (s : State) : option nat :=
  match aff with
  | Some a => array_get_rem (workers s) a
  | None => None
  end.

(** Lines 280-283: the round-robin cursor is advanced only when nothing is
    chosen yet; [++this.lastChosen % workers.length] is stored back. *)
Definition pick_roundrobin (chosen : option nat) (s : State) : option nat * State :=
  match chosen with
  | Some _ => (chosen, s)
  | None =>
      if roundrobin s && (0 <? List.length (workers s)) then
        let i := Z.rem (lastChosen s + 1) (Z.of_nat (List.length (workers s))) in
        (array_get (workers s) i, set_lastChosen i s)
      else (None, s)
  end.

(** Lines 285-293: the first worker that answers [available()]. *)
Definition pick_available (available : nat -> bool) (chosen : option nat)
    (s : State) : option nat :=
  match chosen with
  | Some _ => chosen
  | None => find available (workers s)
  end.

(** The selection chain, lines 276-293. *)
Definition select (available : nat -> bool) (aff : option Z) (s : State)
    : option nat * State :=
  let (c, s1) := pick_roundrobin (pick_affinity aff s) s in
  (pick_available available c s1, s1).

(** Lines 295-308: growth. *)
Definition grow (chosen : option nat) (s : State) : option nat * State :=
  if num_ltb (len (workers s)) (maxWorkers s) then
    if is_zero (gradualScaling s) then
      let (w, s1) := _createWorkerHandler s in
      (Some (or_else chosen w), push_worker w s1)
    else if canCreateWorker s then
      let s1 := set_canCreateWorker false s in
      let s2 := setTimeout (gradualScaling s1) s1 in
      let (w, s3) := _createWorkerHandler s2 in
      (Some (or_else chosen w), push_worker w s3)
    else (chosen, s)
  else (chosen, s).

Definition _getWorker (available : nat -> bool) (aff : option Z) (s : State)
    : option nat * State :=
  let (c, s1) := select available aff s in
  grow c s1.

(** ** The dispatch step: [_next] (lines 222-260) *)

(** Lines 237-253: the task goes to the worker, and a recorded delay that
    is a number is armed on the chain built on the worker's promise. *)
Definition dispatch (w : nat) (t : Task) (s : State) : State :=
  let s1 := emit (WorkerExec w t) s in
  match timeout t with
  | Some d =>
      if isNumber d then emit (NativeTimeout (ExecChain (resolver t)) d) s1
      else s1
  | None => s1
  end.

(** [_next] calls itself only after [tasks.shift()], so the recursion is on
    the queue; [queue] is [tasks s]. *)
Fixpoint next_from (available : nat -> bool) (queue : list Task) (s : State)
    : State :=
  match queue with
  | [] => s
  | t :: rest =>
      let (c, s1) := _getWorker available (task_affinity t) s in
      match c with
      | None => s1
      | Some w =>
          let s2 := set_tasks rest s1 in
          if pending (resolver t) s2 then dispatch w t s2
          else next_from available rest s2
      end
  end.

Definition _next (available : nat -> bool) (s : State) : State :=
  next_from available (tasks s) s.

(** ** Submission: [exec] (lines 127-175) *)

Inductive method_arg :=
| MString (name : string)
| MFunction (src : string)     (* a function, with the text [String(f)] gives *)
| MOther.

Definition dq : string := String (ascii_of_nat 34) EmptyString.

Definition params_error : error :=
  TypeError ("Array expected as argument " ++ dq ++ "params" ++ dq)%string.

Definition method_error : error :=
  TypeError ("Function or string expected as argument " ++ dq ++ "method" ++ dq)%string.

(** The message of an error as one string, where it can be written. *)
Definition error_message (e : error) : option string :=
  match e with
  | TypeError m => Some m
  | Error t => text_string t
  | InTypeError _ => None
  end.

(** [new Error("Max queue size of " + this.maxQueueSize + " reached")] *)
Definition queue_error (n : number) : error :=
  Error [Str "Max queue size of "; Num n; Str " reached"].

(** Lines 134-168, the branch of a string method. *)
Definition submit (available : nat -> bool) (name : string) (ps : value)
    (opts : option ExecOptions) (s : State) : outcome nat * State :=
  let (r, s1) := defer s in
  if reaches (List.length (tasks s1)) (maxQueueSize s1) then
    (Throws (queue_error (maxQueueSize s1)), s1)
  else
    let task := mkTask name ps r None opts in
    let s2 := set_tasks (tasks s1 ++ [task]) s1 in
    (Returns r, _next available s2).

(** [exec] called with a string method. *)
Definition exec_named (available : nat -> bool) (name : string) (ps : value)
    (opts : option ExecOptions) (s : State) : outcome nat * State :=
  if truthy ps && negb (isArray ps) then (Throws params_error, s)
  else submit available name ps opts s.

(** [exec].  Line 171 calls [this.exec] again with two arguments. *)
Definition exec (available : nat -> bool) (m : method_arg) (ps : value)
    (opts : option ExecOptions) (s : State) : outcome nat * State :=
  if truthy ps && negb (isArray ps) then (Throws params_error, s)
  else
    match m with
    | MString name => submit available name ps opts s
    | MFunction src =>
        exec_named available "run" (VArray [VString src; ps]) None s
    | MOther => (Throws method_error, s)
    end.

(** ** The replaced [timeout] of the returned promise (lines 153-163) *)

(** [tasks.indexOf(task)] for the task of resolver [r]. *)
Fixpoint task_index (r : nat) (l : list Task) : option nat :=
  match l with
  | [] => None
  | t :: l' => if Nat.eqb (resolver t) r then Some 0
               else option_map S (task_index r l')
  end.

(** [task.timeout = delay] on the task object at index [i]. *)
Fixpoint update_at {A : Type} (i : nat) (f : A -> A) (l : list A) : list A :=
  match l, i with
  | [], _ => []
  | x :: l', 0 => f x :: l'
  | x :: l', S j => x :: update_at j f l'
  end.

Inductive timeout_result :=
| SamePromise (r : nat)       (* [return resolver.promise] *)
| NativeResult (r : nat).     (* what [originalTimeout.call(resolver.promise, delay)] returns *)

Definition promise_timeout (r : nat) (delay : value) (s : State)
    : timeout_result * State :=
  match task_index r (tasks s) with
  | Some i =>
      (SamePromise r, set_tasks (update_at i (set_timeout delay) (tasks s)) s)
  | None =>
      (NativeResult r, emit (NativeTimeout (TaskFuture r) delay) s)
  end.

(** ** Removing workers *)

(** [_removeWorkerFromList] (lines 401-407) *)
Definition _removeWorkerFromList (w : nat) (s : State) : State :=
  match indexOf w (workers s) with
  | Some i => set_workers (splice1 i (workers s)) s
  | None => s
  end.

(** The body of the loop of [_ensureMinWorkers], run [n] times. *)
Fixpoint spawn (n : nat) (s : State) : State :=
  match n with
  | 0 => s
  | S k => let (w, s1) := _createWorkerHandler s in spawn k (push_worker w s1)
  end.

(** The loop of lines 488-490 as it is written, for [fuel] passes at most.
    [i] starts at [workers.length] and every pass pushes one worker, so
    [i] is [workers.length] at each test of [i < this.minWorkers].
    [None]: the loop is still running after [fuel] passes. *)
Fixpoint ensure_loop (fuel : nat) (m : num) (s : State) : option State :=
  if num_ltb (len (workers s)) m then
    match fuel with
    | 0 => None
    | S k =>
        let (w, s1) := _createWorkerHandler s in
        ensure_loop k m (push_worker w s1)
    end
  else Some s.

(** [_ensureMinWorkers] (lines 486-492), in closed form: the loop runs once
    for every [i] from [workers.length] up to [minWorkers], and its test
    never fails when [minWorkers] is [Infinity]: with creations that
    return, as they are taken to, it has no end.  That this is what
    [ensure_loop] computes is shown below
    ([ensureMinWorkers_is_the_loop]). *)
Definition _ensureMinWorkers (s : State) : outcome State :=
  match minWorkers s with
  | None => Returns s
  | Some m =>
      if num_truthy m then
        match m with
        | Int z => Returns (spawn (Z.to_nat (z - Z.of_nat (List.length (workers s)))) s)
        | Infinity => Diverges
        end
      else Returns s
  end.

Definition bind {A B : Type} (c : outcome A) (k : A -> outcome B) : outcome B :=
  match c with
  | Returns a => k a
  | Throws e => Throws e
  | Diverges => Diverges
  end.

Notation "x <- c ;; k" := (bind c (fun x => k))
  (at level 61, c at next level, right associativity).

(** [_removeWorker] (lines 371-394), up to the call of [worker.terminate]. *)
Definition _removeWorker (w : nat) (s : State) : outcome State :=
  let s1 := emit (ReleasePort w) s in
  let s2 := _removeWorkerFromList w s1 in
  s3 <- _ensureMinWorkers s2 ;;
  Returns (emit (WorkerTerminate w false) s3).

(** The callback [_removeWorker] gives to [worker.terminate] (lines
    381-392), whatever [err] is. *)
Definition removeWorker_done (w : nat) (s : State) : State :=
  emit (OnTerminateWorker w) s.

(** ** The continuations [_next] chains on [worker.exec] (lines 239-248) *)

Inductive exec_result :=
| ExecFulfilled
| ExecRejected (terminated : bool).   (* with what [worker.terminated] reads *)

(** [.then(me._boundNext).catch(...).then(() => me._next())].  When the
    catch returns the promise of [_removeWorker], the last [then] waits for
    it: see [removal_settled]. *)
Definition exec_settled (av1 av2 : nat -> bool) (w : nat) (res : exec_result)
    (s : State) : outcome State :=
  match res with
  | ExecFulfilled => Returns (_next av2 (_next av1 s))
  | ExecRejected true => _removeWorker w s
  | ExecRejected false => Returns (_next av1 s)
  end.

(** The promise of a [_removeWorker] made by the chain settles. *)
Definition removal_settled (av : nat -> bool) (w : nat) (err : bool) (s : State)
    : State :=
  let s1 := removeWorker_done w s in
  if err then s1 else _next av s1.

(** ** Termination: [terminate] (lines 419-449) *)

(** The synchronous part; the snapshot is the list of the workers whose
    termination promises [Promise.all] waits for. *)
Definition terminate (force tmo : value) (s : State) : list nat * State :=
  let s1 := fold_left (fun a t => reject (resolver t) "Pool terminated" a) (tasks s) s in
  let s2 := set_tasks [] s1 in
  let snapshot := workers s2 in
  (snapshot,
   fold_left (fun a w => emit (TerminateAndNotify w force tmo) a) snapshot s2).

(** How the promise of [terminateAndNotify] settles: fulfilled with a
    value, which is a worker handle ([Some]) or anything else, or rejected. *)
Inductive settlement :=
| Fulfilled (v : option nat)
| Rejected.

(** [removeWorker], the bound [f] of lines 428-431. *)
Definition removeWorker (v : option nat) (s : State) : State :=
  match v with
  | Some h => _removeWorkerFromList h s
  | None => s
  end.

(** [.then(removeWorker).always(...)] of lines 436-445 for worker [w]:
    [then] runs its callback on fulfilment only, [always] on both. *)
Definition terminate_settled (w : nat) (o : settlement) (s : State) : State :=
  let s1 := match o with
            | Fulfilled v => removeWorker v s
            | Rejected => s
            end in
  emit (OnTerminateWorker w) s1.

(** ** Construction: [Pool] (lines 34-93) *)

(** The keys of [options] the dispatcher reads.  [opt_maxWorkers] and
    [opt_minWorkers] are [Some] exactly when the key is [in] the object.
    [maxQueueSize] and [gradualScaling] are stored as they come, so they
    are any number. *)
Record WorkerPoolOptions := mkOptions {
  opt_roundrobin : bool;
  opt_workerType : option string;
  opt_nodeWorker : option string;
  opt_maxQueueSize : option number;
  opt_gradualScaling : option number;
  opt_maxWorkers : option value;
  opt_minWorkers : option value
}.

Definition no_options : WorkerPoolOptions :=
  mkOptions false None None None None None None.

(** [Pool(script, options)], or [Pool(options)] when the first argument is
    not a string.  [options] is an object with these keys ([Some]) or is
    not given ([None]); in the last two forms it is any other value:
    [undefined], [null], a boolean, a number, a string, or an array. *)
Inductive PoolArgs :=
| ScriptAndOptions (scr : string) (o : option WorkerPoolOptions)
| OptionsOnly (o : option WorkerPoolOptions)
| ScriptAndValue (scr : string) (v : value)
| ValueOnly (v : value).

(** What the constructor reads from outside the pool: [environment.cpus],
    and whether [WorkerHandler.ensureWorkerThreads()] returns or throws. *)
Record Environment := mkEnvironment {
  cpus : option Z;
  ensureWorkerThreads : outcome unit
}.

(** [a || b] on strings. *)
Definition str_or (a : option string) (b : string) : string :=
  match a with
  | Some x => if String.eqb x "" then b else x
  | None => b
  end.

(** [isInteger] (lines 574-576): [Math.round(value) == value], for a value
    that is a number.  Rounding leaves an integer and [Infinity] as they
    are, moves a fraction, and [NaN] equals nothing. *)
Definition isInteger (v : value) : bool :=
  match v with
  | VNumber _ => true
  | _ => false
  end.

(** [value < n] for a value that is a number and an integer [n]. *)
Definition value_ltb (v : value) (n : Z) : bool :=
  match v with
  | VNumber m => num_ltb m (Int n)
  | VFraction z => (z <? n)%Z
  | _ => false
  end.

(** The number a checked option is stored as. *)
Definition stored (v : value) : num :=
  match v with
  | VNumber n => n
  | _ => Infinity
  end.

(** [validateMaxWorkers] (lines 543-547); the number it has checked is
    handed back. *)
Definition validateMaxWorkers (v : value) : outcome num :=
  if negb (isNumber v) || negb (isInteger v) || value_ltb v 1
  then Throws (TypeError "Option maxWorkers must be an integer number >= 1")
  else Returns (stored v).

(** [validateMinWorkers] (lines 554-558) *)
Definition validateMinWorkers (v : value) : outcome num :=
  if negb (isNumber v) || negb (isInteger v) || value_ltb v 0
  then Throws (TypeError "Option minWorkers must be an integer number >= 0")
  else Returns (stored v).

(** [options.minWorkers === "max"] *)
Definition is_max (v : value) : bool :=
  match v with
  | VString x => String.eqb x "max"
  | _ => false
  end.

(** The pool as lines 42-73 leave it, before [minWorkers] is looked at.
    [lastChosen] is assigned last in the source; nothing reads it before. *)
Definition fresh_pool (scr : option string) (o : WorkerPoolOptions)
    (maxW : num) (minW : option num) : State :=
  mkState scr [] []
    (str_or (opt_workerType o) (str_or (opt_nodeWorker o) "auto"))
    (opt_roundrobin o)
    (match opt_maxQueueSize o with
     | Some n => if number_truthy n then n else Whole Infinity
     | None => Whole Infinity
     end)
    (match opt_gradualScaling o with
     | Some g => if number_truthy g then g else Whole (Int 0)
     | None => Whole (Int 0)
     end)
    true maxW minW (-1)%Z
    0 [] 0%Z [] [].

(** [this.script] (lines 35-40): a first argument that is a string is the
    script, and [script || null] drops the empty one. *)
Definition given_script (args : PoolArgs) : option string :=
  match args with
  | ScriptAndOptions x _ | ScriptAndValue x _ | ValueOnly (VString x) =>
      if String.eqb x "" then None else Some x
  | _ => None
  end.

(** [options || {}] (line 45), where it is an object: an array has none of
    the keys. *)
Definition given_options (args : PoolArgs) : WorkerPoolOptions :=
  match args with
  | ScriptAndOptions _ (Some o) | OptionsOnly (Some o) => o
  | _ => no_options
  end.

(** [options || {}] where it is not an object: a truthy boolean, number or
    string, in the place of [options]. *)
Definition primitive_options (args : PoolArgs) : option value :=
  let refused (v : value) :=
    if truthy v && negb (isArray v) then Some v else None in
  match args with
  | ScriptAndValue _ v => refused v
  | ValueOnly (VString _) => None
  | ValueOnly v => refused v
  | _ => None
  end.

(** [Math.max((environment.cpus || 4) - 1, 1)] *)
Definition default_maxWorkers (env : Environment) : num :=
  let c := match cpus env with
           | Some c => if (c =? 0)%Z then 4%Z else c
           | None => 4%Z
           end in
  Int (Z.max (c - 1) 1).

(** Lines 86-90: [if (this.workerType === "thread")
    WorkerHandler.ensureWorkerThreads()]. *)
Definition check_threads (env : Environment) (s : State) : outcome State :=
  if String.eqb (workerType s) "thread"
  then _ <- ensureWorkerThreads env ;; Returns (emit EnsureWorkerThreads s)
  else Returns s.

(** The constructor from line 66 on, with [options] an object. *)
Definition construct (env : Environment) (scr : option string)
    (o : WorkerPoolOptions) : outcome State :=
  maxW <- match opt_maxWorkers o with
          | Some v => validateMaxWorkers v
          | None => Returns (default_maxWorkers env)
          end ;;
  s1 <- match opt_minWorkers o with
        | None => Returns (fresh_pool scr o maxW None)
        | Some v =>
            if is_max v then
              _ensureMinWorkers (fresh_pool scr o maxW (Some maxW))
            else
              m <- validateMinWorkers v ;;
              _ensureMinWorkers (fresh_pool scr o (num_max m maxW) (Some m))
        end ;;
  check_threads env s1.

(** ["maxWorkers" in options] of line 68 throws when [options] is not an
    object; nothing has left the pool by then. *)
Definition new_Pool (env : Environment) (args : PoolArgs) : outcome State :=
  match primitive_options args with
  | Some v => Throws (InTypeError v)
  | None => construct env (given_script args) (given_options args)
  end.

(** ** The event loop *)

Fixpoint remove_first (d : Z) (l : list Z) : list Z :=
  match l with
  | [] => []
  | x :: l' => if (x =? d)%Z then l' else x :: remove_first d l'
  end.

(** The callback of line 303. *)
Definition timer_fired (d : Z) (s : State) : State :=
  set_canCreateWorker true (set_timers (remove_first d (timers s)) s).

(** A future is settled from outside the pool: the caller cancels it, or
    the worker answers. *)
Definition settle (r : nat) (s : State) : State :=
  if pending r s then set_settled (r :: settled s) s else s.

(** What can happen to a pool: a call of its interface, or one of the
    callbacks it registered, with what the collaborators answer. *)
Inductive label :=
| L_exec (av : nat -> bool) (m : method_arg) (ps : value) (opts : option ExecOptions)
| L_timeout (r : nat) (d : value)
| L_worker_ready (av : nat -> bool)
| L_exec_settled (av1 av2 : nat -> bool) (w : nat) (res : exec_result)
| L_removal_settled (av : nat -> bool) (w : nat) (err : bool)
| L_worker_exit (w : nat)
| L_worker_exit_done (w : nat)
| L_terminate (force tmo : value)
| L_terminate_settled (w : nat) (o : settlement)
| L_timer (d : Z)
| L_settle (r : nat)
| L_tick (dt : Z).

Definition returned {A : Type} (c : outcome A) : option A :=
  match c with
  | Returns a => Some a
  | _ => None
  end.

(** One turn of the event loop.  A timer fires no earlier than its
    deadline; time does not run backwards. *)
Definition fire (l : label) (s : State) : option State :=
  match l with
  | L_exec av m ps opts => Some (snd (exec av m ps opts s))
  | L_timeout r d => Some (snd (promise_timeout r d s))
  | L_worker_ready av => Some (_next av s)
  | L_exec_settled av1 av2 w res => returned (exec_settled av1 av2 w res s)
  | L_removal_settled av w err => Some (removal_settled av w err s)
  | L_worker_exit w => returned (_removeWorker w s)
  | L_worker_exit_done w => Some (removeWorker_done w s)
  | L_terminate force tmo => Some (snd (terminate force tmo s))
  | L_terminate_settled w o => Some (terminate_settled w o s)
  | L_timer d =>
      if existsb (Z.eqb d) (timers s) && (d <=? now s)%Z
      then Some (timer_fired d s) else None
  | L_settle r => Some (settle r s)
  | L_tick dt =>
      if (0 <=? dt)%Z then Some (set_now (now s + dt)%Z s) else None
  end.

Fixpoint run (ls : list label) (s : State) : option State :=
  match ls with
  | [] => Some s
  | l :: ls' =>
      match fire l s with
      | Some s' => run ls' s'
      | None => None
      end
  end.

(** The states a pool built by [new_Pool env args] can be in. *)
Definition reachable (env : Environment) (args : PoolArgs) (s : State) : Prop :=
  exists s0 ls, new_Pool env args = Returns s0 /\ run ls s0 = Some s.

(** The times at which the scaling path of [_getWorker] created a worker:
    it is the only caller of [setTimeout]. *)
Fixpoint scaling_times (tr : list (Z * event)) : list Z :=
  match tr with
  | [] => []
  | (t, SetTimeout _) :: tr' => t :: scaling_times tr'
  | _ :: tr' => scaling_times tr'
  end.

(** The workers created so far. *)
Fixpoint created (tr : list (Z * event)) : list nat :=
  match tr with
  | [] => []
  | (_, NewWorkerHandler w) :: tr' => w :: created tr'
  | _ :: tr' => created tr'
  end.

(** The tasks handed to a worker so far. *)
Fixpoint executed (tr : list (Z * event)) : list Task :=
  match tr with
  | [] => []
  | (_, WorkerExec _ t) :: tr' => t :: executed tr'
  | _ :: tr' => executed tr'
  end.

(** ** Views of a state, and relations between two states of a run *)

(** The fields set at construction. *)
Definition config (s : State) :=
  (script s, workerType s, roundrobin s, maxQueueSize s, gradualScaling s,
   maxWorkers s, minWorkers s).

(** The fields no function of the pool assigns after construction, and the
    clock, which only the event loop moves. *)
Definition fixed (s : State) :=
  (script s, workerType s, roundrobin s, maxQueueSize s, gradualScaling s,
   maxWorkers s, minWorkers s, now s).

(** The gate of gradual scaling, its timers, and the times it let a worker
    through. *)
Definition gate_view (s : State) :=
  (canCreateWorker s, timers s, scaling_times (trace s)).

(** The worker list and the allocator of identities, together with the
    gate. *)
Definition steady (s : State) := (workers s, nextId s, gate_view s).

(** Nothing was settled and nothing was handed to a worker. *)
Definition quiet (s s' : State) : Prop :=
  settled s' = settled s /\ executed (trace s') = executed (trace s).

(** Nothing was settled, and every task handed to a worker was pending. *)
Definition dispatches (s s' : State) : Prop :=
  settled s' = settled s /\
  exists new, executed (trace s') = executed (trace s) ++ new /\
              Forall (fun t => pending (resolver t) s = true) new.

(** Settled futures stay settled, and every task handed to a worker was
    pending. *)
Definition advances (s s' : State) : Prop :=
  (forall r, pending r s = false -> pending r s' = false) /\
  exists new, executed (trace s') = executed (trace s) ++ new /\
              Forall (fun t => pending (resolver t) s = true) new.

(** ** Invariants *)

(** Invariant 1 of the pool, with the relation between the two bounds that
    the constructor establishes. *)
Definition within_bounds (s : State) : Prop :=
  num_leb (len (workers s)) (maxWorkers s) = true /\
  forall m, minWorkers s = Some m -> num_leb m (maxWorkers s) = true.

(** Handles are objects: the worker list holds each at most once, and
    every one of them was allocated before. *)
Definition distinct_handles (s : State) : Prop :=
  NoDup (workers s) /\ Forall (fun w => w < nextId s) (workers s).

(** Times in chronological order, each at least [gs] after the one before. *)
Fixpoint spaced (gs : Z) (l : list Z) : Prop :=
  match l with
  | [] => True
  | t :: l' => Forall (fun u => (t + gs <= u)%Z) l' /\ spaced gs l'
  end.

(** What a function of the pool does to the gate: nothing, or it finds the
    gate open, closes it, arms the timer and lets one worker through. *)
Definition scaling_step (s s' : State) : Prop :=
  gate_view s' = gate_view s \/
  (canCreateWorker s = true /\
   is_zero (gradualScaling s) = false /\
   canCreateWorker s' = false /\
   timers s' = timers s ++ [(now s + timer_delay (gradualScaling s))%Z] /\
   scaling_times (trace s') = scaling_times (trace s) ++ [now s]).

(** The gate is closed exactly while its one timer is armed, and the timer
    is due, by its delay, after the last worker the gate let through. *)
Definition gate_invariant (s : State) : Prop :=
  spaced (timer_delay (gradualScaling s)) (scaling_times (trace s)) /\
  if canCreateWorker s then
    timers s = [] /\
    Forall (fun t => (t + timer_delay (gradualScaling s) <= now s)%Z)
      (scaling_times (trace s))
  else
    exists t0,
      timers s = [(t0 + timer_delay (gradualScaling s))%Z] /\
      Forall (fun t => (t <= t0)%Z) (scaling_times (trace s)).

(** ** Sample pools and runs *)

(** A machine with eight cpus and worker threads. *)
Definition node_env : Environment :=
  mkEnvironment (Some 8%Z) (Returns tt).

(** The pool a constructor call returns, for calls that return. *)
Definition built (c : outcome State) : State :=
  match c with
  | Returns s => s
  | _ => fresh_pool None no_options (Int 1) None
  end.

(** The state a sample run ends in. *)
Definition after (ls : list label) (s : State) : State :=
  match run ls s with
  | Some s' => s'
  | None => s
  end.

(** What the workers answer to [available()]: only the first does, none
    does, all do. *)
Definition only_first (w : nat) : bool := Nat.eqb w 0.

Definition all_busy (w : nat) : bool := false.

Definition all_free (w : nat) : bool := true.

(** [new Pool({minWorkers: 2, maxWorkers: 2})] *)
Definition two_workers_options : WorkerPoolOptions :=
  mkOptions false None None None None
    (Some (VNumber (Int 2))) (Some (VNumber (Int 2))).

Definition two_workers : State :=
  Eval vm_compute in
    built (new_Pool node_env (OptionsOnly (Some two_workers_options))).

(** [new Pool()], after [exec("f")]: the one worker it made is running the
    task. *)
Definition one_busy_worker : State :=
  Eval vm_compute in
    snd (exec all_busy (MString "f") VUndefined None
           (built (new_Pool node_env (OptionsOnly None)))).

(** [new Pool({maxWorkers: 1, maxQueueSize: 1})] *)
Definition single_worker_options : WorkerPoolOptions :=
  mkOptions false None None (Some (Whole (Int 1))) None
    (Some (VNumber (Int 1))) None.

Definition single_worker : State :=
  Eval vm_compute in
    built (new_Pool node_env (OptionsOnly (Some single_worker_options))).

(** [exec("f")] went to the only worker; [exec("g")] waits in the queue. *)
Definition one_queued : State :=
  Eval vm_compute in
    after [L_exec all_busy (MString "f") VUndefined None;
           L_exec all_busy (MString "g") VUndefined None] single_worker.

Definition task_g : Task := mkTask "g" VUndefined 2 None None.

(** The same, after the caller cancelled the future of [g]. *)
Definition cancelled_in_queue : State :=
  Eval vm_compute in after [L_settle 2] one_queued.

(** The same as [one_queued], after the caller called [timeout(50)] on the
    future of [g]. *)
Definition delay_recorded : State :=
  Eval vm_compute in after [L_timeout 2 (VNumber (Int 50))] one_queued.

(** [one_queued], terminated by [terminate(true)]. *)
Definition terminating : State :=
  Eval vm_compute in
    snd (terminate (VBool true) VUndefined one_queued).

(** [new Pool({maxWorkers: 2.5})], [new Pool({minWorkers: 3, maxWorkers: 2})]
    and [new Pool({minWorkers: Infinity})] *)
Definition fractional_max_options : WorkerPoolOptions :=
  mkOptions false None None None None (Some (VFraction 2)) None.

Definition min_above_max_options : WorkerPoolOptions :=
  mkOptions false None None None None
    (Some (VNumber (Int 2))) (Some (VNumber (Int 3))).

Definition endless_min_options : WorkerPoolOptions :=
  mkOptions false None None None None None (Some (VNumber Infinity)).

(** [new Pool({maxWorkers: 1, maxQueueSize: 0})] *)
Definition unbounded_options : WorkerPoolOptions :=
  mkOptions false None None (Some (Whole (Int 0))) None
    (Some (VNumber (Int 1))) None.

Definition four_submissions : list label :=
  [L_exec all_busy (MString "f") VUndefined None;
   L_exec all_busy (MString "g") VUndefined None;
   L_exec all_busy (MString "g") VUndefined None;
   L_exec all_busy (MString "g") VUndefined None].

(** One task at the worker and three in the queue. *)
Definition three_queued : State :=
  Eval vm_compute in
    after four_submissions
      (built (new_Pool node_env (OptionsOnly (Some unbounded_options)))).

(** [new Pool({maxWorkers: 3, gradualScaling: 100})] *)
Definition gradual_options : WorkerPoolOptions :=
  mkOptions false None None None (Some (Whole (Int 100)))
    (Some (VNumber (Int 3))) None.

Definition gradual_pool : State :=
  Eval vm_compute in
    built (new_Pool node_env (OptionsOnly (Some gradual_options))).

(** A burst of three submissions, a wait of 100 ms, the timer, and a
    call of [_next]. *)
Definition burst : list label :=
  [L_exec all_busy (MString "f") VUndefined None;
   L_exec all_busy (MString "f") VUndefined None;
   L_exec all_busy (MString "f") VUndefined None;
   L_tick 100; L_timer 100; L_worker_ready all_busy].

Definition after_first_submission : State :=
  Eval vm_compute in
    after [L_exec all_busy (MString "f") VUndefined None] gradual_pool.

Definition after_burst : State :=
  Eval vm_compute in after burst gradual_pool.

(** The burst, up to the moment the timer is due. *)
Definition timer_due : State :=
  Eval vm_compute in
    after [L_exec all_busy (MString "f") VUndefined None; L_tick 100]
      gradual_pool.

(** [new Pool({minWorkers: 2, maxWorkers: 3, gradualScaling: 100})] *)
Definition gradual_min_options : WorkerPoolOptions :=
  mkOptions false None None None (Some (Whole (Int 100)))
    (Some (VNumber (Int 3))) (Some (VNumber (Int 2))).

(** That pool after a submission that made a third worker and closed the
    gate, and after the first two workers have gone: the second was just
    taken off the list, as [_removeWorker] does before it calls
    [_ensureMinWorkers]. *)
Definition short_of_min : State :=
  Eval vm_compute in
    _removeWorkerFromList 1
      (after [L_exec all_busy (MString "f") VUndefined None; L_worker_exit 0]
         (built (new_Pool node_env (OptionsOnly (Some gradual_min_options))))).

(** [new Pool({maxWorkers: 3, gradualScaling: 2147483648})]: two
    submissions 50 ms apart, the timer of the first having run in
    between. *)
Definition huge_delay_options : WorkerPoolOptions :=
  mkOptions false None None None (Some (Whole (Int 2147483648)))
    (Some (VNumber (Int 3))) None.

Definition huge_delay_pool : State :=
  Eval vm_compute in
    built (new_Pool node_env (OptionsOnly (Some huge_delay_options))).

Definition huge_delay_run : list label :=
  [L_exec all_busy (MString "f") VUndefined None;
   L_tick 50; L_timer 1;
   L_exec all_busy (MString "f") VUndefined None].

Definition after_huge_delay : State :=
  Eval vm_compute in after huge_delay_run huge_delay_pool.

(** [{affinity: 1}] *)
Definition pin_to_1 : ExecOptions := mkExecOptions (Some 1%Z) [].

(** [function add(a, b) { return a + b }] with the arguments [[2, 4]]. *)
Definition add_src : string := "function add(a, b) { return a + b }".

Definition add_args : value := VArray [VNumber (Int 2); VNumber (Int 4)].

(** * The rest of the interface *)

(** ** Introspection *)

(** [getNumberAvailableWorkers] (lines 455-459) *)
Definition getNumberAvailableWorkers (available : nat -> bool) (s : State) : nat :=
  List.length (filter available (workers s)).

(** The object [stats] returns. *)
Record Stats := mkStats {
  totalWorkers : nat;
  busyWorkers : nat;
  availableWorkers : nat;
  idleWorkers : Z;
  pendingTasks : nat;
  activeTasks : nat
}.

(** [stats] (lines 465-480); [busy] is what the workers answer to
    [busy()]. *)
Definition stats (available busy : nat -> bool) (s : State) : Stats :=
  let total := List.length (workers s) in
  let busyCount := List.length (filter busy (workers s)) in
  mkStats total busyCount (getNumberAvailableWorkers available s)
    (Z.of_nat total - Z.of_nat busyCount)%Z
    (List.length (tasks s)) busyCount.

(** ** The proxy *)



(** ** Conditions the code tests *)

(** Line 129: [params && !Array.isArray(params)]. *)
Definition bad_params (ps : value) : bool := truthy ps && negb (isArray ps).

(** Line 136: [this.tasks.length >= this.maxQueueSize]. *)
Definition queue_full (s : State) : bool :=
  reaches (List.length (tasks s)) (maxQueueSize s).

(** Line 295 failing: [workers.length < this.maxWorkers] is false. *)
Definition at_capacity (s : State) : bool :=
  negb (num_ltb (len (workers s)) (maxWorkers s)).

(** [options.maxWorkers] as the constructor checks it (lines 66-71). *)
Definition checked_maxWorkers (env : Environment) (o : WorkerPoolOptions)
    : outcome num :=
  match opt_maxWorkers o with
  | Some v => validateMaxWorkers v
  | None => Returns (default_maxWorkers env)
  end.

(** The bounds the constructor stores (lines 66-84), from [maxWorkers] as
    checked and [options.minWorkers]. *)
Definition stored_bounds (maxW : num) (minW : option value) : num * option num :=
  match minW with
  | None => (maxW, None)
  | Some v =>
      if is_max v then (maxW, Some maxW)
      else (num_max (stored v) maxW, Some (stored v))
  end.

(** How many workers the loop of [_ensureMinWorkers] (line 488) adds to a
    list of [n]. *)
Definition replacements (s : State) (n : nat) : nat :=
  match minWorkers s with
  | Some (Int z) => Z.to_nat (z - Z.of_nat n)
  | _ => 0
  end.

(** What the creation of worker [w] leaves in the trace. *)
Definition creation (w : nat) : list event :=
  [OnCreateWorker; NextAvailableStartingAt; NewWorkerHandler w].

(** ** Sequences of calls *)

(** Successive calls of [_getWorker] without affinity, one for each answer
    of the workers to [available()], and what each call returned. *)
Fixpoint getWorker_calls (answers : list (nat -> bool)) (s : State)
    : list (option nat) * State :=
  match answers with
  | [] => ([], s)
  | av :: rest =>
      let (c, s1) := _getWorker av None s in
      let (cs, s2) := getWorker_calls rest s1 in
      (c :: cs, s2)
  end.

(** The termination promises of [terminate] settle, in some order, each
    worker's with [answer]. *)
Definition settle_terminations (answer : nat -> settlement) (order : list nat)
    (s : State) : State :=
  fold_left (fun a w => terminate_settled w (answer w) a) order s.

(** The turns of the event loop in which a termination asked for by
    [terminate] succeeds and takes a worker off the list. *)
Definition disposes (l : label) : bool :=
  match l with
  | L_terminate_settled _ (Fulfilled (Some _)) => true
  | _ => false
  end.

(** ** More views and invariants *)

(** The queue and the round-robin cursor: what the worker side of the pool
    never touches. *)
Definition desk (s : State) := (tasks s, lastChosen s).

(** The last task of the queue was let in: the queue, one task shorter,
    was below [maxQueueSize]. *)
Definition queue_bounded (s : State) : Prop :=
  tasks s = [] \/
  reaches (List.length (tasks s) - 1) (maxQueueSize s) = false.

(** Between two states, every task that was queued is accounted for: it is
    still queued, or it went to a worker, or its future is settled. *)
Definition accounts (s s' : State) : Prop :=
  exists new,
    executed (trace s') = executed (trace s) ++ new /\
    (forall r, pending r s = false -> pending r s' = false) /\
    forall r, In r (map resolver (tasks s)) ->
      In r (map resolver (tasks s')) \/
      In r (map resolver new) \/
      pending r s' = false.

(** The round-robin cursor never falls below its initial [-1]. *)
Definition cursor_ok (s : State) : Prop := (-1 <= lastChosen s)%Z.

(** The pool holds at least [minWorkers] workers. *)
Definition min_met (s : State) : Prop :=
  forall z, minWorkers s = Some (Int z) ->
    (z <= Z.of_nat (List.length (workers s)))%Z.

(** ** More sample pools *)

(** [new Pool({minWorkers: 2, maxWorkers: 4})] *)
Definition two_of_four_options : WorkerPoolOptions :=
  mkOptions false None None None None
    (Some (VNumber (Int 4))) (Some (VNumber (Int 2))).

Definition two_workers_grown : State :=
  Eval vm_compute in
    built (new_Pool node_env (OptionsOnly (Some two_of_four_options))).

(** [new Pool({roundrobin: true, minWorkers: 3, maxWorkers: 3})] *)
Definition roundrobin_options : WorkerPoolOptions :=
  mkOptions true None None None None
    (Some (VNumber (Int 3))) (Some (VNumber (Int 3))).

Definition roundrobin_pool : State :=
  Eval vm_compute in
    built (new_Pool node_env (OptionsOnly (Some roundrobin_options))).

(** [two_workers] after worker [0] exited on its own. *)
Definition after_crash : State :=
  Eval vm_compute in after [L_worker_exit 0; L_worker_exit_done 0] two_workers.

(** Every termination succeeds and resolves with its worker. *)
Definition all_terminate (w : nat) : settlement := Fulfilled (Some w).

(** [new Pool({maxWorkers: 1, maxQueueSize: 2.5})] *)
Definition fraction_options : WorkerPoolOptions :=
  mkOptions false None None (Some (Fraction 2)) None
    (Some (VNumber (Int 1))) None.

Definition fraction_pool : State :=
  Eval vm_compute in
    built (new_Pool node_env (OptionsOnly (Some fraction_options))).

(** Four submissions while the only worker stays busy: the first goes to
    the worker, the other three wait. *)
Definition fraction_run : list label :=
  [L_exec all_busy (MString "f") VUndefined None;
   L_exec all_busy (MString "g") VUndefined None;
   L_exec all_busy (MString "h") VUndefined None;
   L_exec all_busy (MString "i") VUndefined None].

Definition fraction_queued : State :=
  Eval vm_compute in after fraction_run fraction_pool.

(** [new Pool({workerType: "thread", minWorkers: 1, maxWorkers: 2})] *)
Definition thread_options : WorkerPoolOptions :=
  mkOptions false (Some "thread") None None None
    (Some (VNumber (Int 2))) (Some (VNumber (Int 1))).

Definition thread_pool : State :=
  Eval vm_compute in
    built (new_Pool node_env (OptionsOnly (Some thread_options))).

(** [new Pool({minWorkers: -1})] *)
Definition negative_min_options : WorkerPoolOptions :=
  mkOptions false None None None None None (Some (VNumber (Int (-1)))).

(** A machine without worker threads: [ensureWorkerThreads] throws. *)
Definition no_threads_error : error :=
  Error [Str "WorkerPool: workerType = 'thread' is not supported, Node >= 11.7.0 required"].

Definition no_threads_env : Environment :=
  mkEnvironment (Some 8%Z) (Throws no_threads_error).

(** * Proof steps *)

(** Split on the first test the goal branches on. *)
Ltac case_if :=
  match goal with
  | |- context [if ?b then _ else _] => destruct b eqn:?
  | |- context [match ?x with Some _ => _ | None => _ end] => destruct x eqn:?
  end.

(** * Properties *)

(** ** Reading the trace *)

Lemma created_app (t1 t2 : list (Z * event)) :
  created (t1 ++ t2) = created t1 ++ created t2.
Proof.
  induction t1 as [|[t e] t1 IH]; [reflexivity|].
  destruct e; simpl; rewrite ?IH; reflexivity.
Qed.

Lemma executed_app (t1 t2 : list (Z * event)) :
  executed (t1 ++ t2) = executed t1 ++ executed t2.
Proof.
  induction t1 as [|[t e] t1 IH]; [reflexivity|].
  destruct e; simpl; rewrite ?IH; reflexivity.
Qed.

Lemma scaling_times_app (t1 t2 : list (Z * event)) :
  scaling_times (t1 ++ t2) = scaling_times t1 ++ scaling_times t2.
Proof.
  induction t1 as [|[t e] t1 IH]; [reflexivity|].
  destruct e; simpl; rewrite ?IH; reflexivity.
Qed.

Create Rewrite HintDb trace_proj.
#[local] Hint Rewrite created_app executed_app scaling_times_app app_nil_r
  : trace_proj.

(** Push the readers of the trace through the events just emitted. *)
Ltac trace_simpl := repeat (progress (autorewrite with trace_proj; simpl)).

(** ** Arrays *)

Lemma array_get_rem_nonneg {A : Type} (l : list A) (a : Z) :
  l <> [] ->
  (0 <= a \/ a mod Z.of_nat (List.length l) = 0)%Z ->
  array_get_rem l a = nth_error l (Z.to_nat (a mod Z.of_nat (List.length l))).
Proof.
  intros Hl Ha. unfold array_get_rem, array_get.
  destruct l as [|x l']; [congruence|].
  set (n := Z.of_nat (List.length (x :: l'))).
  assert (Hn : (0 < n)%Z) by (unfold n; simpl List.length; lia).
  assert (Hr : Z.rem a n = (a mod n)%Z).
  { destruct Ha as [Ha|Ha].
    - apply Z.rem_mod_nonneg; lia.
    - change (a mod n = 0)%Z in Ha. rewrite Ha.
      apply Z.rem_divide; [lia|].
      apply Z.mod_divide; [lia|exact Ha]. }
  rewrite Hr.
  destruct (a mod n <? 0)%Z eqn:E; [|reflexivity].
  apply Z.ltb_lt in E. pose proof (Z.mod_pos_bound a n Hn). lia.
Qed.

Lemma nth_error_mod_some {A : Type} (l : list A) (a : Z) :
  l <> [] ->
  exists w, nth_error l (Z.to_nat (a mod Z.of_nat (List.length l))) = Some w.
Proof.
  intros Hl.
  assert (Hn : (0 < Z.of_nat (List.length l))%Z).
  { destruct l; [congruence|simpl List.length; lia]. }
  pose proof (Z.mod_pos_bound a _ Hn) as Hb.
  destruct (nth_error l (Z.to_nat (a mod Z.of_nat (List.length l)))) eqn:E;
    [eauto|].
  apply nth_error_None in E. lia.
Qed.

(** ** What [_getWorker] leaves alone *)

Lemma grow_chosen (c : nat) (s : State) : fst (grow (Some c) s) = Some c.
Proof.
  unfold grow.
  destruct (num_ltb _ _); [|reflexivity].
  destruct (is_zero (gradualScaling s)); [reflexivity|].
  destruct (canCreateWorker s); reflexivity.
Qed.

Lemma grow_lastChosen (c : option nat) (s : State) :
  lastChosen (snd (grow c s)) = lastChosen s.
Proof.
  unfold grow.
  destruct (num_ltb _ _); [|reflexivity].
  destruct (is_zero (gradualScaling s)); [reflexivity|].
  destruct (canCreateWorker s); reflexivity.
Qed.

Lemma select_affinity (available : nat -> bool) (a : Z) (w : nat) (s : State) :
  array_get_rem (workers s) a = Some w ->
  select available (Some a) s = (Some w, s).
Proof.
  intros H. unfold select, pick_affinity. rewrite H. reflexivity.
Qed.

Lemma select_state (available : nat -> bool) (aff : option Z) (s : State) :
  snd (select available aff s) = s \/
  exists i, snd (select available aff s) = set_lastChosen i s.
Proof.
  unfold select, pick_roundrobin.
  destruct (pick_affinity aff s); [left; reflexivity|].
  destruct (roundrobin s && (0 <? List.length (workers s)));
    [right; eexists; reflexivity | left; reflexivity].
Qed.

Lemma two_workers_built :
  new_Pool node_env (OptionsOnly (Some two_workers_options)) = Returns two_workers.
Proof. vm_compute. reflexivity. Qed.

(** ** Affinity *)

(** C3, as the code has it: with at least one worker and an affinity [a]
    that is non-negative (or a multiple of the number of workers),
    [_getWorker] returns [workers[a mod |workers|]] whatever [available()]
    answers, and the round-robin cursor does not move. *)
Theorem C3_affinity_pins (available : nat -> bool) (a : Z) (s : State) :
  workers s <> [] ->
  (0 <= a \/ a mod Z.of_nat (List.length (workers s)) = 0)%Z ->
  exists w,
    nth_error (workers s) (Z.to_nat (a mod Z.of_nat (List.length (workers s))))
      = Some w /\
    fst (_getWorker available (Some a) s) = Some w /\
    lastChosen (snd (_getWorker available (Some a) s)) = lastChosen s.
Proof.
  intros Hne Ha.
  destruct (nth_error_mod_some (workers s) a Hne) as [w Hw].
  exists w. split; [exact Hw|].
  assert (Hsel : select available (Some a) s = (Some w, s)).
  { apply select_affinity. rewrite array_get_rem_nonneg by assumption. exact Hw. }
  unfold _getWorker. rewrite Hsel.
  split; [apply grow_chosen | apply grow_lastChosen].
Qed.

Lemma C3_affinity_pins_witness :
  exists w,
    nth_error (workers two_workers)
      (Z.to_nat (3 mod Z.of_nat (List.length (workers two_workers)))) = Some w /\
    fst (_getWorker all_busy (Some 3%Z) two_workers) = Some w /\
    lastChosen (snd (_getWorker all_busy (Some 3%Z) two_workers))
      = lastChosen two_workers.
Proof.
  apply (C3_affinity_pins all_busy 3%Z two_workers).
  - vm_compute. discriminate.
  - left. lia.
Defined.

(** C3 as the spec states it fails for a negative affinity: with two
    workers, [-1 mod 2] is slot 1, but [-1 % 2] is [-1], [workers[-1]] is
    [undefined], and the scan picks the available worker of slot 0. *)
Lemma C3_negative_affinity_counterexample :
  workers two_workers = [0; 1] /\
  nth_error (workers two_workers)
    (Z.to_nat ((-1) mod Z.of_nat (List.length (workers two_workers)))) = Some 1 /\
  fst (_getWorker only_first (Some (-1)%Z) two_workers) = Some 0.
Proof. vm_compute. repeat split. Qed.

(** ** Growth *)

(** C4: with room for a worker and no gradual scaling, [_getWorker] creates
    a worker and appends it at the tail; the pick is the worker the
    selection chain chose, and the new worker only when it chose none. *)
Theorem C4_growth_after_selection (available : nat -> bool) (aff : option Z)
    (s : State) :
  num_ltb (len (workers s)) (maxWorkers s) = true ->
  gradualScaling s = Whole (Int 0) ->
  workers (snd (_getWorker available aff s)) = workers s ++ [nextId s] /\
  created (trace (snd (_getWorker available aff s)))
    = created (trace s) ++ [nextId s] /\
  fst (_getWorker available aff s)
    = Some (match fst (select available aff s) with
            | Some chosen => chosen
            | None => nextId s
            end).
Proof.
  intros Hroom Hgs. unfold _getWorker.
  destruct (select available aff s) as [c s1] eqn:Hsel.
  assert (Hs1 : s1 = s \/ exists i, s1 = set_lastChosen i s).
  { pose proof (select_state available aff s) as H. rewrite Hsel in H. exact H. }
  assert (Hfr : workers s1 = workers s /\ maxWorkers s1 = maxWorkers s /\
                gradualScaling s1 = gradualScaling s /\ nextId s1 = nextId s /\
                trace s1 = trace s).
  { destruct Hs1 as [->|[i ->]]; repeat split. }
  destruct Hfr as (Hw & Hm & Hg & Hn & Ht).
  unfold grow. rewrite Hw, Hm, Hroom, Hg, Hgs. simpl.
  rewrite Hw, Hn, Ht.
  split; [reflexivity|split].
  - trace_simpl. reflexivity.
  - destruct c; reflexivity.
Qed.

Lemma C4_growth_after_selection_witness :
  workers (snd (_getWorker all_busy (Some 1%Z) one_busy_worker))
    = workers one_busy_worker ++ [nextId one_busy_worker] /\
  created (trace (snd (_getWorker all_busy (Some 1%Z) one_busy_worker)))
    = created (trace one_busy_worker) ++ [nextId one_busy_worker] /\
  fst (_getWorker all_busy (Some 1%Z) one_busy_worker)
    = Some (match fst (select all_busy (Some 1%Z) one_busy_worker) with
            | Some chosen => chosen
            | None => nextId one_busy_worker
            end).
Proof.
  apply (C4_growth_after_selection all_busy (Some 1%Z) one_busy_worker).
  - vm_compute. reflexivity.
  - vm_compute. reflexivity.
Defined.

(** Scenario: the task is pinned to the one worker, which is busy; the
    worker is picked all the same, and a second worker is added for later. *)
Example pinned_to_a_busy_worker :
  fst (_getWorker all_busy (Some 1%Z) one_busy_worker) = Some 1 /\
  workers (snd (_getWorker all_busy (Some 1%Z) one_busy_worker)) = [1; 2].
Proof. vm_compute. split; reflexivity. Qed.

(** ** Frame lemmas: what each function leaves alone *)

Section FixedFields.

(** What the workers answer to [available()] during the call. *)
Variable av : nat -> bool.

Lemma fixed_create (s : State) : fixed (snd (_createWorkerHandler s)) = fixed s.
Proof. reflexivity. Qed.

Lemma fixed_grow (c : option nat) (s : State) : fixed (snd (grow c s)) = fixed s.
Proof. unfold grow. repeat case_if; reflexivity. Qed.

Lemma fixed_select (aff : option Z) (s : State) :
  fixed (snd (select av aff s)) = fixed s.
Proof. destruct (select_state av aff s) as [->|[i ->]]; reflexivity. Qed.

Lemma fixed_getWorker (aff : option Z) (s : State) :
  fixed (snd (_getWorker av aff s)) = fixed s.
Proof.
  unfold _getWorker.
  pose proof (fixed_select aff s) as H.
  destruct (select av aff s) as [c s1]. simpl in H.
  rewrite fixed_grow. exact H.
Qed.

Lemma fixed_dispatch (w : nat) (t : Task) (s : State) :
  fixed (dispatch w t s) = fixed s.
Proof.
  unfold dispatch. destruct (timeout t) as [d|]; [destruct (isNumber d)|];
    reflexivity.
Qed.

Lemma fixed_next_from (q : list Task) (s : State) :
  fixed (next_from av q s) = fixed s.
Proof.
  revert s. induction q as [|t rest IH]; intros s; [reflexivity|].
  simpl.
  pose proof (fixed_getWorker (task_affinity t) s) as H.
  destruct (_getWorker av (task_affinity t) s) as [[w|] s1]; simpl in H;
    [|exact H].
  destruct (pending (resolver t) (set_tasks rest s1)).
  - rewrite fixed_dispatch. exact H.
  - rewrite IH. exact H.
Qed.

Lemma fixed_next (s : State) : fixed (_next av s) = fixed s.
Proof. apply fixed_next_from. Qed.

Lemma fixed_submit (name : string) (ps : value) (opts : option ExecOptions)
    (s : State) :
  fixed (snd (submit av name ps opts s)) = fixed s.
Proof.
  unfold submit, defer.
  match goal with |- context [if ?b then _ else _] => destruct b end;
    [reflexivity|].
  simpl. rewrite fixed_next. reflexivity.
Qed.

Lemma fixed_exec (m : method_arg) (ps : value) (opts : option ExecOptions)
    (s : State) :
  fixed (snd (exec av m ps opts s)) = fixed s.
Proof.
  unfold exec, exec_named.
  destruct (truthy ps && negb (isArray ps)); [reflexivity|].
  destruct m; simpl; try reflexivity; apply fixed_submit.
Qed.

End FixedFields.

Lemma fixed_promise_timeout (r : nat) (d : value) (s : State) :
  fixed (snd (promise_timeout r d s)) = fixed s.
Proof. unfold promise_timeout. case_if; reflexivity. Qed.

Lemma fixed_removeWorkerFromList (w : nat) (s : State) :
  fixed (_removeWorkerFromList w s) = fixed s.
Proof. unfold _removeWorkerFromList. case_if; reflexivity. Qed.

Lemma fixed_spawn (n : nat) (s : State) : fixed (spawn n s) = fixed s.
Proof.
  revert s. induction n as [|n IH]; intros s; [reflexivity|].
  simpl. rewrite IH. reflexivity.
Qed.

Lemma fixed_ensureMinWorkers (s s' : State) :
  _ensureMinWorkers s = Returns s' -> fixed s' = fixed s.
Proof.
  unfold _ensureMinWorkers. intros H.
  destruct (minWorkers s) as [m|]; [|congruence].
  destruct (num_truthy m); [|congruence].
  destruct m; [|discriminate].
  injection H as <-. apply fixed_spawn.
Qed.

Lemma fixed_removeWorker (w : nat) (s s' : State) :
  _removeWorker w s = Returns s' -> fixed s' = fixed s.
Proof.
  unfold _removeWorker, bind. intros H.
  destruct (_ensureMinWorkers _) as [s3| |] eqn:E; try discriminate.
  injection H as <-. apply fixed_ensureMinWorkers in E.
  rewrite fixed_removeWorkerFromList in E. exact E.
Qed.

Lemma fixed_fold_emit {A : Type} (f : A -> event) (l : list A) (s : State) :
  fixed (fold_left (fun a x => emit (f x) a) l s) = fixed s.
Proof.
  revert s. induction l as [|x l IH]; intros s; [reflexivity|].
  simpl. rewrite IH. reflexivity.
Qed.

Lemma fixed_reject (r : nat) (msg : string) (s : State) :
  fixed (reject r msg s) = fixed s.
Proof. unfold reject. case_if; reflexivity. Qed.

Lemma fixed_fold_reject (msg : string) (l : list Task) (s : State) :
  fixed (fold_left (fun a t => reject (resolver t) msg a) l s) = fixed s.
Proof.
  revert s. induction l as [|x l IH]; intros s; [reflexivity|].
  simpl. rewrite IH. apply fixed_reject.
Qed.

Lemma fixed_terminate (force tmo : value) (s : State) :
  fixed (snd (terminate force tmo s)) = fixed s.
Proof.
  unfold terminate. simpl. rewrite fixed_fold_emit.
  change (fixed (fold_left (fun a t => reject (resolver t) "Pool terminated" a)
                   (tasks s) s) = fixed s).
  apply fixed_fold_reject.
Qed.

Lemma fixed_terminate_settled (w : nat) (o : settlement) (s : State) :
  fixed (terminate_settled w o s) = fixed s.
Proof.
  unfold terminate_settled, removeWorker.
  destruct o as [[h|]|]; try reflexivity.
  change (fixed (_removeWorkerFromList h s) = fixed s).
  apply fixed_removeWorkerFromList.
Qed.

(** ** Which tasks reach a worker *)

Lemma pending_settled (r : nat) (s s' : State) :
  settled s' = settled s -> pending r s' = pending r s.
Proof. unfold pending. intros ->. reflexivity. Qed.

Lemma quiet_refl (s : State) : quiet s s.
Proof. split; reflexivity. Qed.

Lemma quiet_trans (s1 s2 s3 : State) : quiet s1 s2 -> quiet s2 s3 -> quiet s1 s3.
Proof. intros [A B] [C D]. split; congruence. Qed.

Lemma quiet_dispatches (s s' : State) : quiet s s' -> dispatches s s'.
Proof.
  intros [A B]. split; [exact A|].
  exists []. rewrite app_nil_r. split; [exact B|constructor].
Qed.

Lemma dispatches_trans (s1 s2 s3 : State) :
  dispatches s1 s2 -> dispatches s2 s3 -> dispatches s1 s3.
Proof.
  intros [A (n1 & E1 & F1)] [B (n2 & E2 & F2)].
  split; [congruence|].
  exists (n1 ++ n2). split.
  - rewrite E2, E1, app_assoc. reflexivity.
  - apply Forall_app. split; [exact F1|].
    eapply Forall_impl; [|exact F2].
    intros t Ht. simpl in Ht. rewrite <- Ht. symmetry.
    apply pending_settled. exact A.
Qed.

Lemma dispatches_advances (s s' : State) : dispatches s s' -> advances s s'.
Proof.
  intros [A B]. split; [|exact B].
  intros r Hr. rewrite (pending_settled r s s' A). exact Hr.
Qed.

Lemma advances_refl (s : State) : advances s s.
Proof. apply dispatches_advances, quiet_dispatches, quiet_refl. Qed.

Lemma advances_trans (s1 s2 s3 : State) :
  advances s1 s2 -> advances s2 s3 -> advances s1 s3.
Proof.
  intros [A (n1 & E1 & F1)] [B (n2 & E2 & F2)].
  split; [auto|].
  exists (n1 ++ n2). split.
  - rewrite E2, E1, app_assoc. reflexivity.
  - apply Forall_app. split; [exact F1|].
    eapply Forall_impl; [|exact F2].
    intros t Ht. simpl in Ht.
    destruct (pending (resolver t) s1) eqn:E; [reflexivity|].
    rewrite (A _ E) in Ht. discriminate.
Qed.

Lemma quiet_emit (e : event) (s : State) :
  (forall w t, e <> WorkerExec w t) -> quiet s (emit e s).
Proof.
  intros H. split; [reflexivity|].
  unfold emit. simpl. rewrite executed_app. simpl.
  destruct e; try (rewrite app_nil_r; reflexivity).
  exfalso. eapply H. reflexivity.
Qed.

Lemma quiet_create (s : State) : quiet s (snd (_createWorkerHandler s)).
Proof.
  unfold _createWorkerHandler. simpl.
  split; [reflexivity|].
  simpl. trace_simpl. reflexivity.
Qed.

Lemma quiet_grow (c : option nat) (s : State) : quiet s (snd (grow c s)).
Proof.
  unfold grow. repeat case_if; try apply quiet_refl;
    (split; [reflexivity|]; simpl; trace_simpl; reflexivity).
Qed.

Lemma quiet_select (av : nat -> bool) (aff : option Z) (s : State) :
  quiet s (snd (select av aff s)).
Proof.
  destruct (select_state av aff s) as [->|[i ->]]; split; reflexivity.
Qed.

Lemma quiet_getWorker (av : nat -> bool) (aff : option Z) (s : State) :
  quiet s (snd (_getWorker av aff s)).
Proof.
  unfold _getWorker.
  pose proof (quiet_select av aff s) as H.
  destruct (select av aff s) as [c s1]. simpl in H.
  eapply quiet_trans; [exact H|apply quiet_grow].
Qed.

Lemma tasks_getWorker (av : nat -> bool) (aff : option Z) (s : State) :
  tasks (snd (_getWorker av aff s)) = tasks s.
Proof.
  unfold _getWorker.
  destruct (select_state av aff s) as [H|[i H]];
    destruct (select av aff s) as [c s1]; simpl in H; subst s1;
    unfold grow; repeat case_if; reflexivity.
Qed.

Lemma dispatch_executed (w : nat) (t : Task) (s : State) :
  settled (dispatch w t s) = settled s /\
  executed (trace (dispatch w t s)) = executed (trace s) ++ [t].
Proof.
  unfold dispatch.
  destruct (timeout t) as [d|]; [destruct (isNumber d)|];
    (split; [reflexivity|]);
    simpl; trace_simpl; reflexivity.
Qed.

(** [_next] hands over at most one task, and only a pending one. *)
Lemma next_from_dispatches (av : nat -> bool) (q : list Task) (s : State) :
  dispatches s (next_from av q s).
Proof.
  revert s. induction q as [|t rest IH]; intros s.
  - apply quiet_dispatches, quiet_refl.
  - simpl.
    pose proof (quiet_getWorker av (task_affinity t) s) as Hq.
    destruct (_getWorker av (task_affinity t) s) as [[w|] s1]; simpl in Hq;
      [|apply quiet_dispatches; exact Hq].
    assert (Hq2 : quiet s (set_tasks rest s1)).
    { eapply quiet_trans; [exact Hq|split; reflexivity]. }
    destruct (pending (resolver t) (set_tasks rest s1)) eqn:Hp.
    + eapply dispatches_trans; [apply quiet_dispatches; exact Hq2|].
      destruct (dispatch_executed w t (set_tasks rest s1)) as [A B].
      split; [exact A|].
      exists [t]. split; [exact B|].
      constructor; [exact Hp|constructor].
    + eapply dispatches_trans; [apply quiet_dispatches; exact Hq2|apply IH].
Qed.

Lemma next_dispatches (av : nat -> bool) (s : State) : dispatches s (_next av s).
Proof. apply next_from_dispatches. Qed.

Lemma quiet_removeWorkerFromList (w : nat) (s : State) :
  quiet s (_removeWorkerFromList w s).
Proof. unfold _removeWorkerFromList. case_if; split; reflexivity. Qed.

Lemma quiet_spawn (n : nat) (s : State) : quiet s (spawn n s).
Proof.
  revert s. induction n as [|n IH]; intros s; [apply quiet_refl|].
  simpl. eapply quiet_trans; [|apply IH].
  eapply quiet_trans; [apply quiet_create|split; reflexivity].
Qed.

Lemma quiet_ensureMinWorkers (s s' : State) :
  _ensureMinWorkers s = Returns s' -> quiet s s'.
Proof.
  unfold _ensureMinWorkers. intros H.
  destruct (minWorkers s) as [m|];
    [|injection H as <-; apply quiet_refl].
  destruct (num_truthy m); [|injection H as <-; apply quiet_refl].
  destruct m; [|discriminate].
  injection H as <-. apply quiet_spawn.
Qed.

Lemma quiet_removeWorker (w : nat) (s s' : State) :
  _removeWorker w s = Returns s' -> quiet s s'.
Proof.
  unfold _removeWorker, bind. intros H.
  destruct (_ensureMinWorkers _) as [s3| |] eqn:E; try discriminate.
  injection H as <-. apply quiet_ensureMinWorkers in E.
  eapply quiet_trans; [|apply quiet_emit; discriminate].
  eapply quiet_trans; [|exact E].
  eapply quiet_trans; [|apply quiet_removeWorkerFromList].
  apply quiet_emit; discriminate.
Qed.

Lemma dispatches_submit (av : nat -> bool) (name : string) (ps : value)
    (opts : option ExecOptions) (s : State) :
  dispatches s (snd (submit av name ps opts s)).
Proof.
  unfold submit, defer.
  match goal with |- context [if ?b then _ else _] => destruct b end.
  - apply quiet_dispatches. split; reflexivity.
  - simpl. eapply dispatches_trans; [|apply next_dispatches].
    apply quiet_dispatches. split; reflexivity.
Qed.

Lemma dispatches_exec (av : nat -> bool) (m : method_arg) (ps : value)
    (opts : option ExecOptions) (s : State) :
  dispatches s (snd (exec av m ps opts s)).
Proof.
  unfold exec, exec_named.
  destruct (truthy ps && negb (isArray ps));
    [apply quiet_dispatches, quiet_refl|].
  destruct m; simpl; try apply dispatches_submit.
  apply quiet_dispatches, quiet_refl.
Qed.

Lemma quiet_promise_timeout (r : nat) (d : value) (s : State) :
  quiet s (snd (promise_timeout r d s)).
Proof.
  unfold promise_timeout. case_if; simpl.
  - split; reflexivity.
  - apply quiet_emit; discriminate.
Qed.

Lemma pending_cons (r x : nat) (s : State) :
  pending r s = false -> pending r (set_settled (x :: settled s) s) = false.
Proof.
  unfold pending. simpl. intros H.
  apply negb_false_iff in H. rewrite H. rewrite orb_true_r. reflexivity.
Qed.

Lemma advances_settle (x : nat) (s : State) :
  advances s (set_settled (x :: settled s) s).
Proof.
  split; [intros r; apply pending_cons|].
  exists []. rewrite app_nil_r. split; [reflexivity|constructor].
Qed.

Lemma advances_reject (r : nat) (msg : string) (s : State) :
  advances s (reject r msg s).
Proof.
  unfold reject.
  assert (Hq : advances s (emit (Reject r msg) s)).
  { apply dispatches_advances, quiet_dispatches, quiet_emit. discriminate. }
  case_if; [|exact Hq].
  eapply advances_trans; [exact Hq|apply advances_settle].
Qed.

Lemma advances_fold_reject (msg : string) (l : list Task) (s : State) :
  advances s (fold_left (fun a t => reject (resolver t) msg a) l s).
Proof.
  revert s. induction l as [|x l IH]; intros s; [apply advances_refl|].
  simpl. eapply advances_trans; [apply advances_reject|apply IH].
Qed.

Lemma quiet_fold_emit {A : Type} (f : A -> event) (l : list A) (s : State) :
  (forall x w t, f x <> WorkerExec w t) ->
  quiet s (fold_left (fun a x => emit (f x) a) l s).
Proof.
  intros Hf. revert s. induction l as [|x l IH]; intros s; [apply quiet_refl|].
  simpl. eapply quiet_trans; [apply quiet_emit; apply Hf|apply IH].
Qed.

Lemma advances_terminate (force tmo : value) (s : State) :
  advances s (snd (terminate force tmo s)).
Proof.
  unfold terminate. simpl.
  eapply advances_trans; [apply advances_fold_reject|].
  eapply advances_trans;
    [|apply dispatches_advances, quiet_dispatches, quiet_fold_emit;
      intros; discriminate].
  apply dispatches_advances, quiet_dispatches. split; reflexivity.
Qed.

Lemma quiet_terminate_settled (w : nat) (o : settlement) (s : State) :
  quiet s (terminate_settled w o s).
Proof.
  unfold terminate_settled.
  eapply quiet_trans; [|apply quiet_emit; discriminate].
  destruct o as [[h|]|]; simpl; try apply quiet_refl.
  apply quiet_removeWorkerFromList.
Qed.

Lemma quiet_advances (s s' : State) : quiet s s' -> advances s s'.
Proof. intros H. apply dispatches_advances, quiet_dispatches, H. Qed.

(** Every turn of the event loop keeps settled futures settled and hands
    only pending tasks to workers. *)
Lemma fire_advances (l : label) (s s' : State) :
  fire l s = Some s' -> advances s s'.
Proof.
  destruct l; simpl; intros H.
  - injection H as <-. apply dispatches_advances, dispatches_exec.
  - injection H as <-. apply quiet_advances, quiet_promise_timeout.
  - injection H as <-. apply dispatches_advances, next_dispatches.
  - destruct res as [|[|]]; simpl in H.
    + injection H as <-. apply dispatches_advances.
      eapply dispatches_trans; apply next_dispatches.
    + destruct (_removeWorker w s) eqn:E; try discriminate.
      injection H as <-. eapply quiet_advances, quiet_removeWorker, E.
    + injection H as <-. apply dispatches_advances, next_dispatches.
  - injection H as <-. unfold removal_settled, removeWorker_done.
    assert (Hq : quiet s (emit (OnTerminateWorker w) s))
      by (apply quiet_emit; discriminate).
    destruct err; [apply quiet_advances, Hq|].
    apply dispatches_advances.
    eapply dispatches_trans; [apply quiet_dispatches, Hq|apply next_dispatches].
  - destruct (_removeWorker w s) eqn:E; try discriminate.
    injection H as <-. eapply quiet_advances, quiet_removeWorker, E.
  - injection H as <-. apply quiet_advances, quiet_emit. discriminate.
  - injection H as <-. apply advances_terminate.
  - injection H as <-. apply quiet_advances, quiet_terminate_settled.
  - destruct (existsb _ _ && _); [|discriminate].
    injection H as <-. apply quiet_advances. split; reflexivity.
  - injection H as <-. unfold settle.
    destruct (pending r s); [apply advances_settle|apply advances_refl].
  - destruct (0 <=? dt)%Z; [|discriminate].
    injection H as <-. apply quiet_advances. split; reflexivity.
Qed.

Lemma run_advances (ls : list label) (s s' : State) :
  run ls s = Some s' -> advances s s'.
Proof.
  revert s. induction ls as [|l ls IH]; intros s H; simpl in H.
  - injection H as <-. apply advances_refl.
  - destruct (fire l s) as [s1|] eqn:E; [|discriminate].
    eapply advances_trans; [eapply fire_advances, E|apply IH, H].
Qed.

(** The equation of [_next] when the queue is not empty. *)
Lemma next_cons (av : nat -> bool) (s : State) (t : Task) (rest : list Task) :
  tasks s = t :: rest ->
  _next av s =
    match fst (_getWorker av (task_affinity t) s) with
    | None => snd (_getWorker av (task_affinity t) s)
    | Some w =>
        let s2 := set_tasks rest (snd (_getWorker av (task_affinity t) s)) in
        if pending (resolver t) s2 then dispatch w t s2 else _next av s2
    end.
Proof.
  intros H. unfold _next at 1. rewrite H. simpl.
  destruct (_getWorker av (task_affinity t) s) as [[w|] s1]; reflexivity.
Qed.

(** ** Settled tasks *)

(** C5, as the code has it.  A task whose promise is no longer pending
    when it is at the head of the queue is handed to no worker, by this
    call of [_next] or by anything the pool does afterwards.  When
    [_getWorker] has a worker to offer, [_next] shifts the task off the
    queue, skips [worker.exec] and runs again on the rest; when it has
    none, [_next] stops there and the task stays at the head of the
    queue. *)
Theorem C5_settled_task_is_skipped (av : nat -> bool) (s : State) (t : Task)
    (rest : list Task) :
  tasks s = t :: rest ->
  pending (resolver t) s = false ->
  _next av s =
    match fst (_getWorker av (task_affinity t) s) with
    | Some _ => _next av (set_tasks rest (snd (_getWorker av (task_affinity t) s)))
    | None => snd (_getWorker av (task_affinity t) s)
    end /\
  (fst (_getWorker av (task_affinity t) s) = None ->
   tasks (_next av s) = t :: rest /\
   executed (trace (_next av s)) = executed (trace s)) /\
  forall ls s', run ls s = Some s' ->
    exists new, executed (trace s') = executed (trace s) ++ new /\
                Forall (fun t' => resolver t' <> resolver t) new.
Proof.
  intros Hq Hp.
  assert (Hnext : _next av s =
            match fst (_getWorker av (task_affinity t) s) with
            | Some _ =>
                _next av (set_tasks rest (snd (_getWorker av (task_affinity t) s)))
            | None => snd (_getWorker av (task_affinity t) s)
            end).
  { rewrite (next_cons av s t rest Hq).
    destruct (fst (_getWorker av (task_affinity t) s)); [|reflexivity].
    cbv zeta.
    assert (E : pending (resolver t)
                  (set_tasks rest (snd (_getWorker av (task_affinity t) s)))
                = false).
    { rewrite <- Hp. apply pending_settled.
      apply (quiet_getWorker av (task_affinity t) s). }
    rewrite E. reflexivity. }
  split; [exact Hnext|]. split.
  - intros Hnone. rewrite Hnext, Hnone.
    rewrite tasks_getWorker. split; [exact Hq|].
    apply (quiet_getWorker av (task_affinity t) s).
  - intros ls s' Hrun.
    destruct (run_advances ls s s' Hrun) as [_ (new & E & F)].
    exists new. split; [exact E|].
    eapply Forall_impl; [|exact F].
    intros t' Ht' Heq. simpl in Ht'. rewrite Heq, Hp in Ht'. discriminate.
Qed.

Lemma C5_settled_task_is_skipped_witness :
  tasks cancelled_in_queue = [task_g] /\
  pending (resolver task_g) cancelled_in_queue = false /\
  _next all_free cancelled_in_queue =
    match fst (_getWorker all_free (task_affinity task_g) cancelled_in_queue) with
    | Some _ =>
        _next all_free
          (set_tasks []
             (snd (_getWorker all_free (task_affinity task_g) cancelled_in_queue)))
    | None => snd (_getWorker all_free (task_affinity task_g) cancelled_in_queue)
    end /\
  (fst (_getWorker all_free (task_affinity task_g) cancelled_in_queue) = None ->
   tasks (_next all_free cancelled_in_queue) = [task_g] /\
   executed (trace (_next all_free cancelled_in_queue))
     = executed (trace cancelled_in_queue)) /\
  (forall ls s', run ls cancelled_in_queue = Some s' ->
     exists new,
       executed (trace s') = executed (trace cancelled_in_queue) ++ new /\
       Forall (fun t' => resolver t' <> resolver task_g) new) /\
  fst (_getWorker all_busy (task_affinity task_g) cancelled_in_queue) = None /\
  tasks (_next all_busy cancelled_in_queue) = [task_g] /\
  executed (trace (_next all_busy cancelled_in_queue))
    = executed (trace cancelled_in_queue).
Proof.
  assert (Hq : tasks cancelled_in_queue = task_g :: [])
    by (vm_compute; reflexivity).
  assert (Hp : pending (resolver task_g) cancelled_in_queue = false)
    by (vm_compute; reflexivity).
  assert (Hn : fst (_getWorker all_busy (task_affinity task_g)
                      cancelled_in_queue) = None)
    by (vm_compute; reflexivity).
  split; [exact Hq|]. split; [exact Hp|].
  destruct (C5_settled_task_is_skipped all_free cancelled_in_queue task_g []
              Hq Hp) as (H1 & H2 & H3).
  destruct (C5_settled_task_is_skipped all_busy cancelled_in_queue task_g []
              Hq Hp) as (_ & H4 & _).
  split; [exact H1|]. split; [exact H2|]. split; [exact H3|].
  split; [exact Hn|]. exact (H4 Hn).
Defined.

(** C5 as the spec states it fails while the pool has no worker to offer.
    [g] was cancelled in the queue of a pool whose one worker is busy:
    [_next] does not pop it, the pool is left exactly as it was, and the
    cancelled task still fills the queue, so the next [exec] is refused. *)
Lemma C5_no_worker_counterexample :
  tasks cancelled_in_queue = [task_g] /\
  pending (resolver task_g) cancelled_in_queue = false /\
  _next all_busy cancelled_in_queue = cancelled_in_queue /\
  tasks (_next all_busy cancelled_in_queue) = [task_g] /\
  fst (exec all_busy (MString "h") VUndefined None
         (_next all_busy cancelled_in_queue))
    = Throws (queue_error (Whole (Int 1))).
Proof. vm_compute. repeat split. Qed.

(** Scenario: the cancelled task leaves the queue without a call to the
    worker, once a worker is free. *)
Example cancelled_task_dropped :
  tasks (_next all_free cancelled_in_queue) = [] /\
  executed (trace (_next all_free cancelled_in_queue))
    = executed (trace cancelled_in_queue).
Proof. vm_compute. split; reflexivity. Qed.

(** ** The deferred timeout *)

Lemma task_index_In (r : nat) (l : list Task) :
  In r (map resolver l) ->
  exists i t, task_index r l = Some i /\ nth_error l i = Some t /\ resolver t = r.
Proof.
  induction l as [|x l IH]; simpl; [tauto|].
  intros H. destruct (Nat.eqb (resolver x) r) eqn:E.
  - exists 0, x. apply Nat.eqb_eq in E. auto.
  - destruct H as [H|H]; [apply Nat.eqb_neq in E; contradiction|].
    destruct (IH H) as (i & t & Hi & Hn & Hr).
    exists (S i), t. rewrite Hi. auto.
Qed.

Lemma task_index_None (r : nat) (l : list Task) :
  ~ In r (map resolver l) -> task_index r l = None.
Proof.
  induction l as [|x l IH]; simpl; [reflexivity|].
  intros H. destruct (Nat.eqb (resolver x) r) eqn:E.
  - apply Nat.eqb_eq in E. tauto.
  - rewrite IH; [reflexivity|tauto].
Qed.

Lemma update_at_nth {A : Type} (i : nat) (f : A -> A) (l : list A) (x : A) :
  nth_error l i = Some x -> nth_error (update_at i f l) i = Some (f x).
Proof.
  revert i. induction l as [|y l IH]; intros [|i]; simpl; try discriminate.
  - intros H. injection H as ->. reflexivity.
  - apply IH.
Qed.

Lemma update_at_other {A : Type} (i j : nat) (f : A -> A) (l : list A) :
  j <> i -> nth_error (update_at i f l) j = nth_error l j.
Proof.
  revert i j. induction l as [|y l IH]; intros [|i] [|j] H; simpl;
    try reflexivity; try congruence.
  apply IH. congruence.
Qed.

Lemma now_getWorker (av : nat -> bool) (aff : option Z) (s : State) :
  now (snd (_getWorker av aff s)) = now s.
Proof.
  pose proof (fixed_getWorker av aff s) as H. unfold fixed in H. congruence.
Qed.

Lemma task_index_head (t : Task) (rest : list Task) :
  task_index (resolver t) (t :: rest) = Some 0.
Proof. simpl. rewrite Nat.eqb_refl. reflexivity. Qed.

(** C6: the [timeout] that [exec] installs on the promise it returns, which
    is the promise of the task it has queued.  While the task is in the
    queue, the delay is stored in the [timeout] field of the task and
    nothing else happens (no timer, same promise returned); once the task
    has left the queue the call goes to the original [timeout] of the
    promise.  When [_next] hands a pending task to a worker, a stored delay
    that is a number is armed there, on the chain built on [worker.exec]:
    so a delay given to a queued task is armed when the task is
    dispatched, with that delay. *)
Theorem C6_deferred_timeout :
  (forall av name ps opts s r,
     fst (exec av (MString name) ps opts s) = Returns r ->
     r = nextId s /\
     snd (exec av (MString name) ps opts s)
       = _next av (set_tasks (tasks s ++ [mkTask name ps r None opts])
                     (set_nextId (S r) s))) /\
  (forall r d s,
     In r (map resolver (tasks s)) ->
     exists i t,
       nth_error (tasks s) i = Some t /\ resolver t = r /\
       fst (promise_timeout r d s) = SamePromise r /\
       nth_error (tasks (snd (promise_timeout r d s))) i
         = Some (mkTask (method t) (params t) r (Some d) (options t)) /\
       (forall j, j <> i ->
          nth_error (tasks (snd (promise_timeout r d s))) j
            = nth_error (tasks s) j) /\
       trace (snd (promise_timeout r d s)) = trace s /\
       timers (snd (promise_timeout r d s)) = timers s) /\
  (forall r d s,
     ~ In r (map resolver (tasks s)) ->
     promise_timeout r d s
       = (NativeResult r, emit (NativeTimeout (TaskFuture r) d) s)) /\
  (forall av s t rest w,
     tasks s = t :: rest ->
     pending (resolver t) s = true ->
     fst (_getWorker av (task_affinity t) s) = Some w ->
     tasks (_next av s) = rest /\
     trace (_next av s)
       = trace (snd (_getWorker av (task_affinity t) s)) ++
         (now s, WorkerExec w t) ::
         match timeout t with
         | Some d =>
             if isNumber d
             then [(now s, NativeTimeout (ExecChain (resolver t)) d)]
             else []
         | None => []
         end) /\
  (forall av s t rest d w,
     tasks s = t :: rest ->
     pending (resolver t) s = true ->
     isNumber d = true ->
     fst (_getWorker av (task_affinity t) (snd (promise_timeout (resolver t) d s)))
       = Some w ->
     events (_next av (snd (promise_timeout (resolver t) d s)))
       = events (snd (_getWorker av (task_affinity t)
                        (snd (promise_timeout (resolver t) d s)))) ++
         [WorkerExec w
            (mkTask (method t) (params t) (resolver t) (Some d) (options t));
          NativeTimeout (ExecChain (resolver t)) d]).
Proof.
  assert (Hdispatch : forall av s t rest w,
     tasks s = t :: rest ->
     pending (resolver t) s = true ->
     fst (_getWorker av (task_affinity t) s) = Some w ->
     tasks (_next av s) = rest /\
     trace (_next av s)
       = trace (snd (_getWorker av (task_affinity t) s)) ++
         (now s, WorkerExec w t) ::
         match timeout t with
         | Some d =>
             if isNumber d
             then [(now s, NativeTimeout (ExecChain (resolver t)) d)]
             else []
         | None => []
         end).
  { intros av s t rest w Hq Hp Hw.
    rewrite (next_cons av s t rest Hq), Hw. cbv zeta.
    assert (E : pending (resolver t)
                  (set_tasks rest (snd (_getWorker av (task_affinity t) s)))
                = true).
    { rewrite <- Hp. apply pending_settled.
      apply (quiet_getWorker av (task_affinity t) s). }
    rewrite E. unfold dispatch.
    pose proof (now_getWorker av (task_affinity t) s) as Hnow.
    destruct (timeout t) as [d|]; [destruct (isNumber d)|]; simpl;
      rewrite Hnow; rewrite <- ?app_assoc; split; reflexivity. }
  split; [|split; [|split; [|split; [exact Hdispatch|]]]].
  - intros av name ps opts s r. unfold exec, submit, defer.
    destruct (truthy ps && negb (isArray ps)); [discriminate|].
    match goal with |- context [if ?b then _ else _] => destruct b end;
      [discriminate|].
    simpl. intros H. injection H as <-. split; reflexivity.
  - intros r d s Hin.
    destruct (task_index_In r (tasks s) Hin) as (i & t & Hi & Hn & Hr).
    exists i, t. unfold promise_timeout. rewrite Hi. simpl.
    repeat split; try assumption.
    + rewrite (update_at_nth i (set_timeout d) (tasks s) t Hn).
      unfold set_timeout. rewrite Hr. reflexivity.
    + intros j Hj. apply update_at_other. exact Hj.
  - intros r d s Hout. unfold promise_timeout.
    rewrite (task_index_None r (tasks s) Hout). reflexivity.
  - intros av s t rest d w Hq Hp Hd.
    assert (Hs1 : snd (promise_timeout (resolver t) d s)
                  = set_tasks (set_timeout d t :: rest) s).
    { unfold promise_timeout. rewrite Hq, task_index_head. reflexivity. }
    rewrite Hs1. intros Hw.
    destruct (Hdispatch av (set_tasks (set_timeout d t :: rest) s)
                (set_timeout d t) rest w eq_refl Hp Hw) as [_ Ht].
    unfold events. rewrite Ht. simpl. rewrite Hd, map_app. reflexivity.
Qed.

Lemma C6_deferred_timeout_witness :
  fst (promise_timeout 2 (VNumber (Int 50)) one_queued) = SamePromise 2 /\
  nth_error (tasks (snd (promise_timeout 2 (VNumber (Int 50)) one_queued))) 0
    = Some (mkTask "g" VUndefined 2 (Some (VNumber (Int 50))) None) /\
  trace (snd (promise_timeout 2 (VNumber (Int 50)) one_queued))
    = trace one_queued /\
  fst (promise_timeout 0 (VNumber (Int 50)) one_queued) = NativeResult 0 /\
  events (_next all_free
            (snd (promise_timeout (resolver task_g) (VNumber (Int 50)) one_queued)))
    = events (snd (_getWorker all_free (task_affinity task_g)
                     (snd (promise_timeout (resolver task_g) (VNumber (Int 50))
                             one_queued)))) ++
      [WorkerExec 1 (mkTask "g" VUndefined 2 (Some (VNumber (Int 50))) None);
       NativeTimeout (ExecChain 2) (VNumber (Int 50))].
Proof.
  destruct C6_deferred_timeout as (_ & Hqueued & Hgone & _ & Harmed).
  assert (Hin : In 2 (map resolver (tasks one_queued)))
    by (vm_compute; left; reflexivity).
  destruct (Hqueued 2 (VNumber (Int 50)) one_queued Hin)
    as (i & t & Hn & Hr & Hsame & Hrec & _ & Htrace & _).
  assert (Hi : i = 0 /\ t = task_g).
  { destruct i as [|i].
    - vm_compute in Hn. injection Hn as <-. split; reflexivity.
    - vm_compute in Hn. destruct i; discriminate. }
  destruct Hi as [-> ->].
  split; [exact Hsame|]. split; [exact Hrec|]. split; [exact Htrace|].
  split.
  - rewrite (Hgone 0 (VNumber (Int 50)) one_queued); [reflexivity|].
    vm_compute. intros [H|[]]. discriminate.
  - apply (Harmed all_free one_queued task_g [] (VNumber (Int 50)) 1);
      vm_compute; reflexivity.
Defined.

(** Scenario: the delay recorded while [g] was queued is armed when [g] is
    handed to the worker, on the execution chain. *)
Example delay_armed_at_dispatch :
  map snd (trace (_next all_free delay_recorded))
    = map snd (trace delay_recorded) ++
      [WorkerExec 1 (set_timeout (VNumber (Int 50)) task_g);
       NativeTimeout (ExecChain 2) (VNumber (Int 50))].
Proof. vm_compute. reflexivity. Qed.

(** ** Queue overflow *)

(** C7: with a string method, in a call that is well formed ([params]
    absent or an array), a full queue makes [exec] throw
    [Error("Max queue size of " + N + " reached")], [N] being the
    [maxQueueSize] of the pool, written with its digits where [written]
    gives them.  Nothing is queued: the queue is as it was, and only the
    deferred made on line 134 was allocated. *)
Theorem C7_queue_overflow (av : nat -> bool) (name : string) (ps : value)
    (opts : option ExecOptions) (s : State) :
  truthy ps = false \/ isArray ps = true ->
  reaches (List.length (tasks s)) (maxQueueSize s) = true ->
  fst (exec av (MString name) ps opts s)
    = Throws (Error [Str "Max queue size of "; Num (maxQueueSize s);
                     Str " reached"]) /\
  (forall digits,
     written (maxQueueSize s) = Some digits ->
     option_map error_message
       (match fst (exec av (MString name) ps opts s) with
        | Throws e => Some e
        | _ => None
        end)
       = Some (Some ("Max queue size of " ++ digits ++ " reached")%string)) /\
  tasks (snd (exec av (MString name) ps opts s)) = tasks s /\
  snd (exec av (MString name) ps opts s) = set_nextId (S (nextId s)) s.
Proof.
  intros Hps Hfull.
  assert (E : truthy ps && negb (isArray ps) = false).
  { destruct Hps as [->| ->]; [reflexivity|apply andb_false_r]. }
  assert (Hexec : exec av (MString name) ps opts s
                  = (Throws (queue_error (maxQueueSize s)),
                     set_nextId (S (nextId s)) s)).
  { unfold exec. rewrite E. unfold submit, defer.
    change (maxQueueSize (set_nextId (S (nextId s)) s)) with (maxQueueSize s).
    change (tasks (set_nextId (S (nextId s)) s)) with (tasks s).
    rewrite Hfull. reflexivity. }
  rewrite Hexec. cbn [fst snd].
  split; [reflexivity|]. split; [|split; reflexivity].
  intros digits Hd. unfold queue_error. simpl. rewrite Hd. reflexivity.
Qed.

Lemma C7_queue_overflow_witness :
  fst (exec all_busy (MString "h") (VArray []) None one_queued)
    = Throws (Error [Str "Max queue size of "; Num (Whole (Int 1));
                     Str " reached"]) /\
  option_map error_message
    (match fst (exec all_busy (MString "h") (VArray []) None one_queued) with
     | Throws e => Some e
     | _ => None
     end)
    = Some (Some "Max queue size of 1 reached") /\
  tasks (snd (exec all_busy (MString "h") (VArray []) None one_queued))
    = tasks one_queued.
Proof.
  destruct (C7_queue_overflow all_busy "h" (VArray []) None one_queued)
    as (H1 & H2 & H3 & _).
  - right. reflexivity.
  - vm_compute. reflexivity.
  - split; [exact H1|]. split; [|exact H3].
    apply (H2 "1"). vm_compute. reflexivity.
Defined.

(** Scenario: the check of [params] (line 129) comes before the check of
    the queue: a call that is not well formed gets the [TypeError], full
    queue or not. *)
Example params_check_comes_first :
  reaches (List.length (tasks one_queued)) (maxQueueSize one_queued) = true /\
  fst (exec all_busy (MString "h") (VNumber (Int 5)) None one_queued)
    = Throws (TypeError ("Array expected as argument " ++ dq ++ "params" ++ dq)%string).
Proof. vm_compute. repeat split. Qed.

(** ** Construction and reachable states *)

Lemma validateMaxWorkers_returns (v : value) (n : num) :
  validateMaxWorkers v = Returns n -> num_leb (Int 1) n = true.
Proof.
  unfold validateMaxWorkers.
  destruct v as [| | |k| | | |]; simpl; try discriminate.
  destruct (num_ltb k (Int 1)) eqn:E; [discriminate|].
  intros H. injection H as <-.
  destruct k as [z|]; simpl in *; [|reflexivity].
  apply Z.ltb_ge in E. apply Z.leb_le. exact E.
Qed.

Lemma validateMinWorkers_returns (v : value) (n : num) :
  validateMinWorkers v = Returns n -> num_leb (Int 0) n = true.
Proof.
  unfold validateMinWorkers.
  destruct v as [| | |k| | | |]; simpl; try discriminate.
  destruct (num_ltb k (Int 0)) eqn:E; [discriminate|].
  intros H. injection H as <-.
  destruct k as [z|]; simpl in *; [|reflexivity].
  apply Z.ltb_ge in E. apply Z.leb_le. exact E.
Qed.

Lemma default_maxWorkers_pos (env : Environment) :
  num_leb (Int 1) (default_maxWorkers env) = true.
Proof. unfold default_maxWorkers. simpl. apply Z.leb_le. lia. Qed.

Lemma num_leb_refl (n : num) : num_leb n n = true.
Proof. destruct n; simpl; [apply Z.leb_refl|reflexivity]. Qed.

Lemma num_max_l (a b : num) : num_leb a (num_max a b) = true.
Proof. destruct a, b; simpl; try reflexivity. apply Z.leb_le. lia. Qed.

Lemma num_max_r (a b : num) : num_leb b (num_max a b) = true.
Proof. destruct a, b; simpl; try reflexivity. apply Z.leb_le. lia. Qed.

Lemma num_leb_trans (a b c : num) :
  num_leb a b = true -> num_leb b c = true -> num_leb a c = true.
Proof.
  destruct a, b, c; simpl; try reflexivity; try discriminate.
  rewrite !Z.leb_le. lia.
Qed.

Lemma check_threads_returns (env : Environment) (s1 s0 : State) :
  check_threads env s1 = Returns s0 ->
  s0 = s1 \/ s0 = emit EnsureWorkerThreads s1.
Proof.
  unfold check_threads, bind.
  destruct (String.eqb (workerType s1) "thread").
  - destruct (ensureWorkerThreads env); try discriminate.
    intros H. injection H as <-. right. reflexivity.
  - intros H. injection H as <-. left. reflexivity.
Qed.

(** What a constructor call that returns has built: the pool of lines
    42-84, [s1], and on top of it the call of line 89 when there is one. *)
Lemma new_Pool_built (env : Environment) (args : PoolArgs) (s0 : State) :
  new_Pool env args = Returns s0 ->
  exists maxW minW s1,
    num_leb (Int 1) maxW = true /\
    (forall m, minW = Some m -> num_leb m maxW = true) /\
    (minW = None /\
       s1 = fresh_pool (given_script args) (given_options args) maxW None \/
     _ensureMinWorkers
       (fresh_pool (given_script args) (given_options args) maxW minW)
       = Returns s1) /\
    check_threads env s1 = Returns s0.
Proof.
  unfold new_Pool.
  destruct (primitive_options args); [discriminate|].
  unfold construct.
  set (scr := given_script args). set (o := given_options args).
  intros H.
  assert (Hmax : exists maxW,
            num_leb (Int 1) maxW = true /\
            match opt_maxWorkers o with
            | Some v => validateMaxWorkers v
            | None => Returns (default_maxWorkers env)
            end = Returns maxW).
  { destruct (opt_maxWorkers o) as [v|].
    - destruct (validateMaxWorkers v) as [n| |] eqn:E; try discriminate.
      exists n. split; [eapply validateMaxWorkers_returns, E|reflexivity].
    - eexists. split; [apply default_maxWorkers_pos|reflexivity]. }
  destruct Hmax as (maxW & Hpos & Hm). rewrite Hm in H. clear Hm.
  unfold bind at 1 in H.
  destruct (opt_minWorkers o) as [v|].
  - destruct (is_max v).
    + destruct (_ensureMinWorkers (fresh_pool scr o maxW (Some maxW)))
        as [s1| |] eqn:E; try discriminate.
      unfold bind in H.
      exists maxW, (Some maxW), s1. split; [exact Hpos|].
      split; [|split; [right; exact E|exact H]].
      intros m Hm. injection Hm as <-. apply num_leb_refl.
    + destruct (validateMinWorkers v) as [m| |] eqn:Ev; try discriminate.
      unfold bind at 2 in H.
      destruct (_ensureMinWorkers (fresh_pool scr o (num_max m maxW) (Some m)))
        as [s1| |] eqn:E; try discriminate.
      unfold bind in H.
      exists (num_max m maxW), (Some m), s1.
      split; [|split; [|split; [right; exact E|exact H]]].
      * eapply num_leb_trans; [exact Hpos|apply num_max_r].
      * intros m' Hm. injection Hm as <-. apply num_max_l.
  - unfold bind in H.
    exists maxW, None, (fresh_pool scr o maxW None).
    split; [exact Hpos|]. split; [discriminate|].
    split; [left; split; reflexivity|exact H].
Qed.

Lemma new_Pool_returns (env : Environment) (args : PoolArgs) (s0 : State) :
  new_Pool env args = Returns s0 ->
  exists maxW minW s1,
    num_leb (Int 1) maxW = true /\
    (forall m, minW = Some m -> num_leb m maxW = true) /\
    (minW = None /\
       s1 = fresh_pool (given_script args) (given_options args) maxW None \/
     _ensureMinWorkers
       (fresh_pool (given_script args) (given_options args) maxW minW)
       = Returns s1) /\
    (s0 = s1 \/ s0 = emit EnsureWorkerThreads s1).
Proof.
  intros H.
  destruct (new_Pool_built env args s0 H)
    as (maxW & minW & s1 & Hpos & Hmin & Hs & He).
  exists maxW, minW, s1. repeat (split; [assumption|]).
  apply (check_threads_returns env), He.
Qed.

Lemma fixed_config (s s' : State) : fixed s' = fixed s -> config s' = config s.
Proof. unfold fixed, config. intros H. injection H as -> -> -> -> -> -> -> _. reflexivity. Qed.

Lemma fire_config (l : label) (s s' : State) :
  fire l s = Some s' -> config s' = config s.
Proof.
  destruct l; simpl; intros H.
  - injection H as <-. apply fixed_config, fixed_exec.
  - injection H as <-. apply fixed_config, fixed_promise_timeout.
  - injection H as <-. apply fixed_config, fixed_next.
  - destruct res as [|[|]]; simpl in H.
    + injection H as <-. apply fixed_config.
      rewrite !fixed_next. reflexivity.
    + destruct (_removeWorker w s) eqn:E; try discriminate.
      injection H as <-. eapply fixed_config, fixed_removeWorker, E.
    + injection H as <-. apply fixed_config, fixed_next.
  - injection H as <-. unfold removal_settled, removeWorker_done.
    destruct err; [reflexivity|].
    apply fixed_config. rewrite fixed_next. reflexivity.
  - destruct (_removeWorker w s) eqn:E; try discriminate.
    injection H as <-. eapply fixed_config, fixed_removeWorker, E.
  - injection H as <-. reflexivity.
  - injection H as <-. apply fixed_config, fixed_terminate.
  - injection H as <-. apply fixed_config, fixed_terminate_settled.
  - destruct (existsb _ _ && _); [|discriminate].
    injection H as <-. reflexivity.
  - injection H as <-. unfold settle. destruct (pending r s); reflexivity.
  - destruct (0 <=? dt)%Z; [|discriminate].
    injection H as <-. reflexivity.
Qed.

Lemma run_invariant (P : State -> Prop) :
  (forall l s s', fire l s = Some s' -> P s -> P s') ->
  forall ls s s', run ls s = Some s' -> P s -> P s'.
Proof.
  intros Hstep. induction ls as [|l ls IH]; intros s s' H Hs; simpl in H.
  - injection H as <-. exact Hs.
  - destruct (fire l s) as [s1|] eqn:E; [|discriminate].
    eapply IH; [exact H|]. eapply Hstep; eassumption.
Qed.

Lemma run_config (ls : list label) (s s' : State) :
  run ls s = Some s' -> config s' = config s.
Proof.
  intros H.
  apply (run_invariant (fun x => config x = config s)) with (ls := ls) (s := s);
    [|exact H|reflexivity].
  intros l a b Hf Ha. rewrite <- Ha. eapply fire_config, Hf.
Qed.

Lemma ensureMinWorkers_config (s s' : State) :
  _ensureMinWorkers s = Returns s' -> config s' = config s.
Proof. intros H. apply fixed_config, fixed_ensureMinWorkers, H. Qed.

(** Scenarios of construction: a fractional [maxWorkers] is refused; a
    [minWorkers] above [maxWorkers] raises [maxWorkers] and is met at once;
    [minWorkers: Infinity] never finishes spawning. *)
Example fractional_maxWorkers_refused :
  new_Pool node_env (OptionsOnly (Some fractional_max_options))
    = Throws (TypeError "Option maxWorkers must be an integer number >= 1").
Proof. vm_compute. reflexivity. Qed.

Example minWorkers_raises_maxWorkers :
  maxWorkers (built (new_Pool node_env (OptionsOnly (Some min_above_max_options))))
    = Int 3 /\
  workers (built (new_Pool node_env (OptionsOnly (Some min_above_max_options))))
    = [0; 1; 2].
Proof. vm_compute. split; reflexivity. Qed.

Example endless_minWorkers_diverges :
  new_Pool node_env (OptionsOnly (Some endless_min_options)) = Diverges.
Proof. vm_compute. reflexivity. Qed.

(** ** An unbounded queue *)

(** C10: a pool constructed with [maxQueueSize: 0] has [maxQueueSize]
    [Infinity]; in every state it can reach, [exec] throws no [Error]
    (queue overflow is the only one it has), and with a string method and
    well-formed [params] it returns the promise of the new task. *)
Theorem C10_zero_is_unbounded (env : Environment) (args : PoolArgs) (s : State) :
  opt_maxQueueSize (given_options args) = Some (Whole (Int 0)) ->
  reachable env args s ->
  maxQueueSize s = Whole Infinity /\
  (forall av m ps opts msg, fst (exec av m ps opts s) <> Throws (Error msg)) /\
  (forall av name ps opts,
     truthy ps = false \/ isArray ps = true ->
     fst (exec av (MString name) ps opts s) = Returns (nextId s)).
Proof.
  intros Hopt (s0 & ls & Hnew & Hrun).
  assert (Hq : maxQueueSize s = Whole Infinity).
  { apply run_config in Hrun.
    destruct (new_Pool_returns env args s0 Hnew)
      as (maxW & minW & s1 & _ & _ & H & He).
    assert (H0 : config s0
                 = config (fresh_pool (given_script args) (given_options args)
                             maxW minW)).
    { transitivity (config s1); [destruct He as [->| ->]; reflexivity|].
      destruct H as [[-> ->]|H]; [reflexivity|].
      apply ensureMinWorkers_config, H. }
    rewrite H0 in Hrun. unfold config in Hrun.
    injection Hrun as _ _ _ Hm _ _ _. rewrite Hm. simpl. rewrite Hopt.
    reflexivity. }
  split; [exact Hq|].
  assert (Hsub : forall av name ps opts,
            fst (submit av name ps opts s) = Returns (nextId s)).
  { intros. unfold submit, defer.
    change (maxQueueSize (set_nextId (S (nextId s)) s)) with (maxQueueSize s).
    rewrite Hq. reflexivity. }
  split.
  - intros av m ps opts msg. unfold exec, exec_named.
    destruct (truthy ps && negb (isArray ps)); [discriminate|].
    destruct m; simpl; try discriminate.
    + rewrite Hsub. discriminate.
    + rewrite Hsub. discriminate.
  - intros av name ps opts Hps. unfold exec.
    assert (E : truthy ps && negb (isArray ps) = false).
    { destruct Hps as [->| ->]; [reflexivity|apply andb_false_r]. }
    rewrite E. apply Hsub.
Qed.

Lemma C10_zero_is_unbounded_witness :
  List.length (tasks three_queued) = 3 /\
  maxQueueSize three_queued = Whole Infinity /\
  (forall av m ps opts msg,
     fst (exec av m ps opts three_queued) <> Throws (Error msg)) /\
  (forall av name ps opts,
     truthy ps = false \/ isArray ps = true ->
     fst (exec av (MString name) ps opts three_queued)
       = Returns (nextId three_queued)).
Proof.
  split; [vm_compute; reflexivity|].
  apply (C10_zero_is_unbounded node_env (OptionsOnly (Some unbounded_options))).
  - reflexivity.
  - exists (built (new_Pool node_env (OptionsOnly (Some unbounded_options)))).
    exists four_submissions. split; vm_compute; reflexivity.
Defined.

(** ** What leaves the worker list and the scaling gate alone *)

Lemma steady_emit (e : event) (s : State) :
  (forall ms, e <> SetTimeout ms) -> steady (emit e s) = steady s.
Proof.
  intros H. unfold steady, gate_view, emit. simpl.
  rewrite scaling_times_app. simpl.
  destruct e; try (rewrite app_nil_r; reflexivity).
  exfalso. eapply H. reflexivity.
Qed.

Lemma steady_gate (s s' : State) : steady s' = steady s -> gate_view s' = gate_view s.
Proof. unfold steady. intros H. apply (f_equal snd) in H. exact H. Qed.

Lemma steady_workers (s s' : State) : steady s' = steady s -> workers s' = workers s.
Proof.
  unfold steady. intros H. apply (f_equal (fun x => fst (fst x))) in H. exact H.
Qed.

Lemma steady_nextId (s s' : State) : steady s' = steady s -> nextId s' = nextId s.
Proof.
  unfold steady. intros H. apply (f_equal (fun x => snd (fst x))) in H. exact H.
Qed.

Lemma steady_select (av : nat -> bool) (aff : option Z) (s : State) :
  steady (snd (select av aff s)) = steady s.
Proof. destruct (select_state av aff s) as [->|[i ->]]; reflexivity. Qed.

Lemma steady_dispatch (w : nat) (t : Task) (s : State) :
  steady (dispatch w t s) = steady s.
Proof.
  unfold dispatch.
  destruct (timeout t) as [d|]; [destruct (isNumber d)|];
    rewrite ?steady_emit by discriminate; reflexivity.
Qed.

Lemma steady_promise_timeout (r : nat) (d : value) (s : State) :
  steady (snd (promise_timeout r d s)) = steady s.
Proof.
  unfold promise_timeout. case_if; simpl; [reflexivity|].
  apply steady_emit. discriminate.
Qed.

Lemma steady_reject (r : nat) (msg : string) (s : State) :
  steady (reject r msg s) = steady s.
Proof.
  unfold reject. case_if.
  - change (steady (emit (Reject r msg) s) = steady s).
    apply steady_emit. discriminate.
  - apply steady_emit. discriminate.
Qed.

Lemma steady_fold_reject (msg : string) (l : list Task) (s : State) :
  steady (fold_left (fun a t => reject (resolver t) msg a) l s) = steady s.
Proof.
  revert s. induction l as [|x l IH]; intros s; [reflexivity|].
  simpl. rewrite IH. apply steady_reject.
Qed.

Lemma steady_fold_emit {A : Type} (f : A -> event) (l : list A) (s : State) :
  (forall x ms, f x <> SetTimeout ms) ->
  steady (fold_left (fun a x => emit (f x) a) l s) = steady s.
Proof.
  intros Hf. revert s. induction l as [|x l IH]; intros s; [reflexivity|].
  simpl. rewrite IH. apply steady_emit. apply Hf.
Qed.

Lemma steady_terminate (force tmo : value) (s : State) :
  steady (snd (terminate force tmo s)) = steady s.
Proof.
  unfold terminate. simpl.
  rewrite steady_fold_emit by (intros; discriminate).
  change (steady (fold_left (fun a t => reject (resolver t) "Pool terminated" a)
                    (tasks s) s) = steady s).
  apply steady_fold_reject.
Qed.

Lemma gate_create (s : State) :
  gate_view (snd (_createWorkerHandler s)) = gate_view s.
Proof.
  unfold _createWorkerHandler, gate_view. simpl. trace_simpl. reflexivity.
Qed.

Lemma gate_removeWorkerFromList (w : nat) (s : State) :
  gate_view (_removeWorkerFromList w s) = gate_view s.
Proof. unfold _removeWorkerFromList. case_if; reflexivity. Qed.

Lemma gate_spawn (n : nat) (s : State) : gate_view (spawn n s) = gate_view s.
Proof.
  revert s. induction n as [|n IH]; intros s; [reflexivity|].
  simpl. rewrite IH.
  change (gate_view (snd (_createWorkerHandler s)) = gate_view s).
  apply gate_create.
Qed.

Lemma gate_ensureMinWorkers (s s' : State) :
  _ensureMinWorkers s = Returns s' -> gate_view s' = gate_view s.
Proof.
  unfold _ensureMinWorkers. intros H.
  destruct (minWorkers s) as [m|]; [|congruence].
  destruct (num_truthy m); [|congruence].
  destruct m; [|discriminate].
  injection H as <-. apply gate_spawn.
Qed.

Lemma gate_emit (e : event) (s : State) :
  (forall ms, e <> SetTimeout ms) -> gate_view (emit e s) = gate_view s.
Proof. intros H. apply steady_gate, steady_emit, H. Qed.

Lemma gate_removeWorker (w : nat) (s s' : State) :
  _removeWorker w s = Returns s' -> gate_view s' = gate_view s.
Proof.
  unfold _removeWorker, bind. intros H.
  destruct (_ensureMinWorkers _) as [s3| |] eqn:E; try discriminate.
  injection H as <-. apply gate_ensureMinWorkers in E.
  rewrite gate_emit by discriminate. rewrite E.
  rewrite gate_removeWorkerFromList. apply gate_emit. discriminate.
Qed.

Lemma gate_terminate_settled (w : nat) (o : settlement) (s : State) :
  gate_view (terminate_settled w o s) = gate_view s.
Proof.
  unfold terminate_settled. rewrite gate_emit by discriminate.
  destruct o as [[h|]|]; simpl; try reflexivity.
  apply gate_removeWorkerFromList.
Qed.

(** ** The worker list stays within [maxWorkers] *)

Lemma bounds_shrink (s s' : State) :
  fixed s' = fixed s ->
  List.length (workers s') <= List.length (workers s) ->
  within_bounds s -> within_bounds s'.
Proof.
  unfold within_bounds, fixed. intros Hf Hl [Hw Hm].
  injection Hf as _ _ _ _ _ Emax Emin _. rewrite Emax, Emin.
  split; [|exact Hm].
  unfold len in *. destruct (maxWorkers s); simpl in *; [|reflexivity].
  apply Z.leb_le in Hw. apply Z.leb_le. lia.
Qed.

Lemma bounds_steady (s s' : State) :
  fixed s' = fixed s -> steady s' = steady s ->
  within_bounds s -> within_bounds s'.
Proof.
  intros Hf Hs. apply bounds_shrink; [exact Hf|].
  rewrite (steady_workers s s' Hs). apply Nat.le_refl.
Qed.

Lemma room_push (s : State) (w : nat) (l : list nat) (m : num) :
  num_ltb (len l) m = true -> num_leb (len (l ++ [w])) m = true.
Proof.
  unfold len. rewrite length_app. simpl.
  destruct m; simpl; [|reflexivity].
  rewrite Z.ltb_lt, Z.leb_le. lia.
Qed.

Lemma bounds_grow (c : option nat) (s : State) :
  within_bounds s -> within_bounds (snd (grow c s)).
Proof.
  unfold grow. intros [Hw Hm].
  destruct (num_ltb (len (workers s)) (maxWorkers s)) eqn:Hroom;
    [|split; assumption].
  destruct (is_zero (gradualScaling s)).
  - split; [|exact Hm]. simpl. apply (room_push s). exact Hroom.
  - destruct (canCreateWorker s); [|split; assumption].
    split; [|exact Hm]. simpl. apply (room_push s). exact Hroom.
Qed.

Lemma bounds_getWorker (av : nat -> bool) (aff : option Z) (s : State) :
  within_bounds s -> within_bounds (snd (_getWorker av aff s)).
Proof.
  intros H. unfold _getWorker.
  pose proof (fixed_select av aff s) as Hf.
  pose proof (steady_select av aff s) as Hs.
  destruct (select av aff s) as [c s1]. simpl in Hf, Hs.
  apply bounds_grow. eapply bounds_steady; eassumption.
Qed.

Lemma bounds_next_from (av : nat -> bool) (q : list Task) (s : State) :
  within_bounds s -> within_bounds (next_from av q s).
Proof.
  revert s. induction q as [|t rest IH]; intros s H; [exact H|].
  simpl.
  pose proof (bounds_getWorker av (task_affinity t) s H) as H1.
  destruct (_getWorker av (task_affinity t) s) as [[w|] s1]; simpl in H1;
    [|exact H1].
  assert (H2 : within_bounds (set_tasks rest s1)) by exact H1.
  destruct (pending (resolver t) (set_tasks rest s1)).
  - eapply bounds_steady; [apply fixed_dispatch|apply steady_dispatch|exact H2].
  - apply IH. exact H2.
Qed.

Lemma bounds_next (av : nat -> bool) (s : State) :
  within_bounds s -> within_bounds (_next av s).
Proof. apply bounds_next_from. Qed.

Lemma bounds_submit (av : nat -> bool) (name : string) (ps : value)
    (opts : option ExecOptions) (s : State) :
  within_bounds s -> within_bounds (snd (submit av name ps opts s)).
Proof.
  intros H. unfold submit, defer.
  match goal with |- context [if ?b then _ else _] => destruct b end;
    [exact H|].
  simpl. apply bounds_next. exact H.
Qed.

Lemma bounds_exec (av : nat -> bool) (m : method_arg) (ps : value)
    (opts : option ExecOptions) (s : State) :
  within_bounds s -> within_bounds (snd (exec av m ps opts s)).
Proof.
  intros H. unfold exec, exec_named.
  destruct (truthy ps && negb (isArray ps)); [exact H|].
  destruct m; simpl; try exact H; apply bounds_submit; exact H.
Qed.

Lemma splice1_length {A : Type} (i : nat) (l : list A) :
  List.length (splice1 i l) <= List.length l.
Proof.
  unfold splice1. rewrite length_app, length_firstn, length_skipn. lia.
Qed.

Lemma removeWorkerFromList_length (w : nat) (s : State) :
  List.length (workers (_removeWorkerFromList w s)) <= List.length (workers s).
Proof.
  unfold _removeWorkerFromList. case_if; simpl;
    [apply splice1_length|apply Nat.le_refl].
Qed.

Lemma spawn_length (n : nat) (s : State) :
  List.length (workers (spawn n s)) = List.length (workers s) + n.
Proof.
  revert s. induction n as [|n IH]; intros s; simpl; [lia|].
  rewrite IH. simpl. rewrite length_app. simpl. lia.
Qed.

Lemma bounds_ensureMinWorkers (s s' : State) :
  _ensureMinWorkers s = Returns s' -> within_bounds s -> within_bounds s'.
Proof.
  intros H Hb.
  pose proof (fixed_ensureMinWorkers s s' H) as Hf.
  unfold _ensureMinWorkers in H.
  destruct (minWorkers s) as [m|] eqn:Emin;
    [|injection H as <-; exact Hb].
  destruct (num_truthy m); [|injection H as <-; exact Hb].
  destruct m as [z|]; [|discriminate].
  destruct Hb as [Hw Hm].
  injection H as <-.
  unfold within_bounds, fixed in *.
  injection Hf as _ _ _ _ _ Emax Emin' _. rewrite Emax, Emin'.
  split; [|exact Hm].
  specialize (Hm _ Emin). unfold len in *. rewrite spawn_length.
  destruct (maxWorkers s); simpl in *; [|reflexivity].
  apply Z.leb_le in Hw, Hm. apply Z.leb_le. lia.
Qed.

Lemma bounds_removeWorker (w : nat) (s s' : State) :
  _removeWorker w s = Returns s' -> within_bounds s -> within_bounds s'.
Proof.
  unfold _removeWorker, bind. intros H Hb.
  destruct (_ensureMinWorkers _) as [s3| |] eqn:E; try discriminate.
  injection H as <-.
  apply bounds_ensureMinWorkers in E.
  - exact E.
  - eapply bounds_shrink;
      [apply fixed_removeWorkerFromList|apply removeWorkerFromList_length|].
    exact Hb.
Qed.

Lemma bounds_terminate_settled (w : nat) (o : settlement) (s : State) :
  within_bounds s -> within_bounds (terminate_settled w o s).
Proof.
  apply bounds_shrink; [apply fixed_terminate_settled|].
  unfold terminate_settled. destruct o as [[h|]|]; simpl;
    try apply Nat.le_refl.
  apply removeWorkerFromList_length.
Qed.

Lemma bounds_fire (l : label) (s s' : State) :
  fire l s = Some s' -> within_bounds s -> within_bounds s'.
Proof.
  destruct l; simpl; intros H Hb.
  - injection H as <-. apply bounds_exec, Hb.
  - injection H as <-.
    eapply bounds_steady;
      [apply fixed_promise_timeout|apply steady_promise_timeout|exact Hb].
  - injection H as <-. apply bounds_next, Hb.
  - destruct res as [|[|]]; simpl in H.
    + injection H as <-. apply bounds_next, bounds_next, Hb.
    + destruct (_removeWorker w s) eqn:E; try discriminate.
      injection H as <-. eapply bounds_removeWorker; eassumption.
    + injection H as <-. apply bounds_next, Hb.
  - injection H as <-. unfold removal_settled, removeWorker_done.
    destruct err; [exact Hb|]. apply bounds_next. exact Hb.
  - destruct (_removeWorker w s) eqn:E; try discriminate.
    injection H as <-. eapply bounds_removeWorker; eassumption.
  - injection H as <-. exact Hb.
  - injection H as <-.
    eapply bounds_steady;
      [apply fixed_terminate|apply steady_terminate|exact Hb].
  - injection H as <-. apply bounds_terminate_settled, Hb.
  - destruct (existsb _ _ && _); [|discriminate].
    injection H as <-. exact Hb.
  - injection H as <-. unfold settle. destruct (pending r s); exact Hb.
  - destruct (0 <=? dt)%Z; [|discriminate].
    injection H as <-. exact Hb.
Qed.

Lemma bounds_new_Pool (env : Environment) (args : PoolArgs) (s0 : State) :
  new_Pool env args = Returns s0 -> within_bounds s0.
Proof.
  intros H.
  destruct (new_Pool_returns env args s0 H)
    as (maxW & minW & s1 & Hpos & Hmin & Hs & He).
  assert (Hf : forall mw, (forall m, mw = Some m -> num_leb m maxW = true) ->
               within_bounds
                 (fresh_pool (given_script args) (given_options args) maxW mw)).
  { intros mw Hmw. split; [|exact Hmw].
    change (num_leb (Int 0) maxW = true).
    eapply num_leb_trans; [|exact Hpos]. reflexivity. }
  assert (H1 : within_bounds s1).
  { destruct Hs as [[-> ->]|Hs].
    - apply Hf. discriminate.
    - eapply bounds_ensureMinWorkers; [exact Hs|]. apply Hf. exact Hmin. }
  destruct He as [->| ->]; exact H1.
Qed.

(** C8: the worker list never outgrows [maxWorkers].  The bound holds,
    with [minWorkers <= maxWorkers], for the pool the constructor returns.
    Growth in [_getWorker] and replacement in [_ensureMinWorkers] keep
    both, and so does every turn of the event loop: a call of [exec],
    [terminate] or the replaced [timeout], or a callback ([_next],
    [_removeWorker], the scaling timer, a settled termination).  So the
    bound holds in every state the pool reaches. *)
Theorem C8_workers_within_max :
  (forall env args s0, new_Pool env args = Returns s0 -> within_bounds s0) /\
  (forall av aff s,
     within_bounds s -> within_bounds (snd (_getWorker av aff s))) /\
  (forall s s',
     _ensureMinWorkers s = Returns s' -> within_bounds s -> within_bounds s') /\
  (forall l s s', fire l s = Some s' -> within_bounds s -> within_bounds s') /\
  (forall env args s,
     reachable env args s ->
     num_leb (len (workers s)) (maxWorkers s) = true).
Proof.
  split; [exact bounds_new_Pool|]. split; [exact bounds_getWorker|].
  split; [exact bounds_ensureMinWorkers|]. split; [exact bounds_fire|].
  intros env args s (s0 & ls & Hnew & Hrun).
  assert (Hb : within_bounds s).
  { apply (run_invariant within_bounds bounds_fire ls s0 s Hrun).
    eapply bounds_new_Pool, Hnew. }
  exact (proj1 Hb).
Qed.

Lemma C8_workers_within_max_witness :
  within_bounds two_workers /\
  within_bounds (after [L_worker_exit 0] two_workers) /\
  num_leb (len (workers three_queued)) (maxWorkers three_queued) = true.
Proof.
  destruct C8_workers_within_max as (Hnew & _ & _ & Hfire & Hreach).
  assert (H0 : within_bounds two_workers).
  { apply (Hnew node_env (OptionsOnly (Some two_workers_options))).
    vm_compute. reflexivity. }
  split; [exact H0|]. split.
  - apply (Hfire (L_worker_exit 0) two_workers); [|exact H0].
    vm_compute. reflexivity.
  - apply (Hreach node_env (OptionsOnly (Some unbounded_options))).
    exists (built (new_Pool node_env (OptionsOnly (Some unbounded_options)))).
    exists four_submissions. split; vm_compute; reflexivity.
Defined.

(** Scenario: with [minWorkers = maxWorkers = 2], a worker that exits is
    replaced at once. *)
Example crashed_worker_replaced :
  workers (after [L_worker_exit 0] two_workers) = [1; 2].
Proof. vm_compute. reflexivity. Qed.

(** ** Gradual scaling *)

Lemma spaced_snoc (gs : Z) (l : list Z) (t : Z) :
  spaced gs l -> Forall (fun x => (x + gs <= t)%Z) l -> spaced gs (l ++ [t]).
Proof.
  induction l as [|x l IH]; simpl; intros Hs Hf.
  - split; [constructor|exact I].
  - destruct Hs as [Hx Hs]. inversion Hf as [|? ? Hxt Hl]; subst.
    split; [|apply IH; assumption].
    apply Forall_app. split; [exact Hx|].
    constructor; [exact Hxt|constructor].
Qed.

Lemma spaced_nth (gs : Z) (l : list Z) :
  spaced gs l ->
  forall i j ti tj,
    i < j -> nth_error l i = Some ti -> nth_error l j = Some tj ->
    (ti + gs <= tj)%Z.
Proof.
  induction l as [|x l IH]; intros Hs i j ti tj Hij Hi Hj.
  - destruct i; discriminate.
  - destruct Hs as [Hx Hs]. destruct j as [|j]; [lia|].
    simpl in Hj. destruct i as [|i].
    + simpl in Hi. injection Hi as <-.
      rewrite Forall_forall in Hx. apply Hx.
      eapply nth_error_In. exact Hj.
    + simpl in Hi. apply (IH Hs i j); [lia|assumption..].
Qed.

Lemma scaling_refl (s : State) : scaling_step s s.
Proof. left. reflexivity. Qed.

Lemma fixed_now (s s' : State) : fixed s' = fixed s -> now s' = now s.
Proof. unfold fixed. intros H. injection H as _ _ _ _ _ _ _ H. exact H. Qed.

Lemma fixed_gradualScaling (s s' : State) :
  fixed s' = fixed s -> gradualScaling s' = gradualScaling s.
Proof. unfold fixed. intros H. injection H as _ _ _ _ H _ _ _. exact H. Qed.

Lemma scaling_trans (s1 s2 s3 : State) :
  fixed s2 = fixed s1 ->
  scaling_step s1 s2 -> scaling_step s2 s3 -> scaling_step s1 s3.
Proof.
  intros Hf [A|A] [B|B].
  - left. congruence.
  - right. destruct B as (B1 & B2 & B3 & B4 & B5).
    unfold gate_view in A. injection A as A1 A2 A3.
    rewrite (fixed_now s1 s2 Hf), (fixed_gradualScaling s1 s2 Hf) in *.
    repeat split; congruence.
  - right. destruct A as (A1 & A2 & A3 & A4 & A5).
    unfold gate_view in B. injection B as B1 B2 B3.
    repeat split; congruence.
  - destruct A as (_ & _ & A3 & _). destruct B as (B1 & _). congruence.
Qed.

Lemma scaling_grow (c : option nat) (s : State) : scaling_step s (snd (grow c s)).
Proof.
  unfold grow.
  destruct (num_ltb _ _); [|apply scaling_refl].
  destruct (is_zero (gradualScaling s)) eqn:Eg.
  - left. unfold gate_view. simpl. trace_simpl. reflexivity.
  - destruct (canCreateWorker s) eqn:Ec; [|apply scaling_refl].
    right. repeat split; try assumption.
    simpl. trace_simpl. reflexivity.
Qed.

Lemma scaling_getWorker (av : nat -> bool) (aff : option Z) (s : State) :
  scaling_step s (snd (_getWorker av aff s)).
Proof.
  unfold _getWorker.
  pose proof (fixed_select av aff s) as Hf.
  pose proof (steady_select av aff s) as Hs.
  destruct (select av aff s) as [c s1]. simpl in Hf, Hs.
  eapply scaling_trans; [exact Hf| |apply scaling_grow].
  left. apply steady_gate. exact Hs.
Qed.

Lemma scaling_next_from (av : nat -> bool) (q : list Task) (s : State) :
  scaling_step s (next_from av q s).
Proof.
  revert s. induction q as [|t rest IH]; intros s; [apply scaling_refl|].
  simpl.
  pose proof (scaling_getWorker av (task_affinity t) s) as H1.
  pose proof (fixed_getWorker av (task_affinity t) s) as Hf.
  destruct (_getWorker av (task_affinity t) s) as [[w|] s1]; simpl in H1, Hf;
    [|exact H1].
  assert (H2 : scaling_step s (set_tasks rest s1)) by exact H1.
  assert (Hf2 : fixed (set_tasks rest s1) = fixed s) by exact Hf.
  destruct (pending (resolver t) (set_tasks rest s1)).
  - eapply scaling_trans; [exact Hf2|exact H2|].
    left. apply steady_gate, steady_dispatch.
  - eapply scaling_trans; [exact Hf2|exact H2|apply IH].
Qed.

Lemma scaling_next (av : nat -> bool) (s : State) : scaling_step s (_next av s).
Proof. apply scaling_next_from. Qed.

Lemma scaling_submit (av : nat -> bool) (name : string) (ps : value)
    (opts : option ExecOptions) (s : State) :
  scaling_step s (snd (submit av name ps opts s)).
Proof.
  unfold submit, defer.
  match goal with |- context [if ?b then _ else _] => destruct b end;
    [left; reflexivity|].
  simpl.
  eapply scaling_trans; [| |apply scaling_next]; [reflexivity|left; reflexivity].
Qed.

Lemma scaling_exec (av : nat -> bool) (m : method_arg) (ps : value)
    (opts : option ExecOptions) (s : State) :
  scaling_step s (snd (exec av m ps opts s)).
Proof.
  unfold exec, exec_named.
  destruct (truthy ps && negb (isArray ps)); [apply scaling_refl|].
  destruct m; simpl; try apply scaling_submit. apply scaling_refl.
Qed.

(** Every turn of the event loop but the scaling timer. *)
Lemma fire_scaling (l : label) (s s' : State) :
  fire l s = Some s' ->
  (forall d, l <> L_timer d) ->
  scaling_step s s' /\ ((forall dt, l <> L_tick dt) -> fixed s' = fixed s).
Proof.
  destruct l; simpl; intros H Hl.
  - injection H as <-. split; [apply scaling_exec|intros _; apply fixed_exec].
  - injection H as <-. split; [|intros _; apply fixed_promise_timeout].
    left. apply steady_gate, steady_promise_timeout.
  - injection H as <-. split; [apply scaling_next|intros _; apply fixed_next].
  - destruct res as [|[|]]; simpl in H.
    + injection H as <-. split.
      * eapply scaling_trans; [apply fixed_next|apply scaling_next..].
      * intros _. rewrite !fixed_next. reflexivity.
    + destruct (_removeWorker w s) eqn:E; try discriminate.
      injection H as <-. split.
      * left. eapply gate_removeWorker, E.
      * intros _. eapply fixed_removeWorker, E.
    + injection H as <-. split; [apply scaling_next|intros _; apply fixed_next].
  - injection H as <-. unfold removal_settled, removeWorker_done.
    destruct err.
    + split; [left; apply gate_emit; discriminate|reflexivity].
    + split.
      * eapply scaling_trans; [| |apply scaling_next];
          [reflexivity|left; apply gate_emit; discriminate].
      * intros _. rewrite fixed_next. reflexivity.
  - destruct (_removeWorker w s) eqn:E; try discriminate.
    injection H as <-. split.
    + left. eapply gate_removeWorker, E.
    + intros _. eapply fixed_removeWorker, E.
  - injection H as <-. split; [|reflexivity].
    left. apply gate_emit. discriminate.
  - injection H as <-. split; [|intros _; apply fixed_terminate].
    left. apply steady_gate, steady_terminate.
  - injection H as <-. split; [|intros _; apply fixed_terminate_settled].
    left. apply gate_terminate_settled.
  - exfalso. eapply Hl. reflexivity.
  - injection H as <-. unfold settle.
    destruct (pending r s); split; try reflexivity; left; reflexivity.
  - destruct (0 <=? dt)%Z; [|discriminate].
    injection H as <-. split; [left; reflexivity|].
    intros Hn. exfalso. eapply Hn. reflexivity.
Qed.

Lemma gate_invariant_ext (s s' : State) :
  fixed s' = fixed s -> gate_view s' = gate_view s ->
  gate_invariant s -> gate_invariant s'.
Proof.
  unfold gate_invariant, gate_view. intros Hf Hg.
  rewrite (fixed_now s s' Hf), (fixed_gradualScaling s s' Hf).
  injection Hg as -> -> ->. tauto.
Qed.

(** A timer runs with a delay of a millisecond at least. *)
Lemma timer_delay_pos (ms : number) : (1 <= timer_delay ms)%Z.
Proof.
  destruct ms as [[z|]|f| |]; simpl; try lia.
  - destruct (1 <=? z)%Z eqn:E; simpl; [|lia].
    destruct (z <=? 2147483647)%Z; [apply Z.leb_le; exact E|lia].
  - destruct (1 <=? f)%Z eqn:E; simpl; [|lia].
    destruct (f <? 2147483647)%Z; [apply Z.leb_le; exact E|lia].
Qed.

(** A delay that is an integer from [1] to [2^31 - 1] is kept. *)
Lemma timer_delay_in_range (z : Z) :
  (1 <= z <= 2147483647)%Z -> timer_delay (Whole (Int z)) = z.
Proof.
  intros [H1 H2]. simpl.
  apply Z.leb_le in H1. apply Z.leb_le in H2. rewrite H1, H2. reflexivity.
Qed.

Lemma gate_invariant_step (s s' : State) :
  fixed s' = fixed s -> scaling_step s s' ->
  gate_invariant s -> gate_invariant s'.
Proof.
  intros Hf [Hg|(H1 & H2 & H3 & H4 & H5)];
    [apply gate_invariant_ext; assumption|].
  pose proof (timer_delay_pos (gradualScaling s)) as Hgs.
  unfold gate_invariant.
  rewrite (fixed_gradualScaling s s' Hf), H3, H4, H5, H1.
  intros [Hsp [Ht Hall]]. split.
  - apply spaced_snoc; assumption.
  - exists (now s). rewrite Ht. simpl.
    split; [reflexivity|].
    apply Forall_app. split.
    + eapply Forall_impl; [|exact Hall]. simpl. intros; lia.
    + constructor; [lia|constructor].
Qed.

Lemma remove_first_head (d : Z) (l : list Z) : remove_first d (d :: l) = l.
Proof. simpl. rewrite Z.eqb_refl. reflexivity. Qed.

Lemma gate_invariant_fire (l : label) (s s' : State) :
  fire l s = Some s' -> gate_invariant s -> gate_invariant s'.
Proof.
  intros H Hinv.
  destruct l;
    try (destruct (fire_scaling _ s s' H) as [Hs Hf]; [discriminate|];
         apply (gate_invariant_step s s'); [apply Hf; discriminate|exact Hs|exact Hinv]).
  - (* the timer *)
    simpl in H.
    destruct (existsb (Z.eqb d) (timers s) && (d <=? now s)%Z) eqn:E;
      [|discriminate].
    injection H as <-. apply andb_true_iff in E. destruct E as [Ein Edue].
    apply Z.leb_le in Edue.
    unfold gate_invariant in *. destruct Hinv as [Hsp Hg].
    split; [exact Hsp|]. simpl.
    destruct (canCreateWorker s).
    + destruct Hg as [Ht _]. rewrite Ht in Ein. discriminate.
    + destruct Hg as (t0 & Ht & Hall). rewrite Ht in Ein |- *.
      simpl in Ein. rewrite orb_false_r in Ein. apply Z.eqb_eq in Ein.
      subst d. rewrite remove_first_head. split; [reflexivity|].
      eapply Forall_impl; [|exact Hall]. simpl. intros; lia.
  - (* the clock *)
    simpl in H. destruct (0 <=? dt)%Z eqn:E; [|discriminate].
    injection H as <-. apply Z.leb_le in E.
    unfold gate_invariant in *. simpl.
    destruct Hinv as [Hsp Hg]. split; [exact Hsp|].
    destruct (canCreateWorker s); [|exact Hg].
    destruct Hg as [Ht Hall]. split; [exact Ht|].
    eapply Forall_impl; [|exact Hall]. simpl. intros; lia.
Qed.

Lemma gate_invariant_new_Pool (env : Environment) (args : PoolArgs) (s0 : State) :
  new_Pool env args = Returns s0 -> gate_invariant s0.
Proof.
  intros H.
  destruct (new_Pool_returns env args s0 H)
    as (maxW & minW & s1 & _ & _ & Hs & He).
  assert (Hf : forall mw,
            gate_invariant
              (fresh_pool (given_script args) (given_options args) maxW mw)).
  { intros mw. split; [exact I|]. simpl. split; [reflexivity|constructor]. }
  assert (H1 : gate_invariant s1).
  { destruct Hs as [[-> ->]|Hs]; [apply Hf|].
    eapply gate_invariant_ext;
      [eapply fixed_ensureMinWorkers, Hs|eapply gate_ensureMinWorkers, Hs|apply Hf]. }
  destruct He as [->| ->]; [exact H1|].
  apply (gate_invariant_ext s1); [reflexivity| |exact H1].
  apply gate_emit. discriminate.
Qed.

Lemma gate_invariant_run (ls : list label) (s s' : State) :
  run ls s = Some s' -> gate_invariant s -> gate_invariant s'.
Proof. apply (run_invariant gate_invariant gate_invariant_fire). Qed.

Lemma grow_closed_gate (c : option nat) (s : State) :
  is_zero (gradualScaling s) = false -> canCreateWorker s = false -> grow c s = (c, s).
Proof.
  intros Hgs Hc. unfold grow. rewrite Hgs, Hc.
  destruct (num_ltb _ _); reflexivity.
Qed.

Lemma grow_open_gate (c : option nat) (s : State) :
  is_zero (gradualScaling s) = false ->
  canCreateWorker s = true ->
  num_ltb (len (workers s)) (maxWorkers s) = true ->
  workers (snd (grow c s)) = workers s ++ [nextId s] /\
  canCreateWorker (snd (grow c s)) = false /\
  timers (snd (grow c s))
    = timers s ++ [(now s + timer_delay (gradualScaling s))%Z] /\
  scaling_times (trace (snd (grow c s))) = scaling_times (trace s) ++ [now s].
Proof.
  intros Hgs Hc Hroom. unfold grow.
  rewrite Hroom, Hgs, Hc. simpl. trace_simpl. auto.
Qed.

Lemma getWorker_closed_gate (av : nat -> bool) (aff : option Z) (s : State) :
  is_zero (gradualScaling s) = false ->
  canCreateWorker s = false ->
  workers (snd (_getWorker av aff s)) = workers s /\
  trace (snd (_getWorker av aff s)) = trace s /\
  canCreateWorker (snd (_getWorker av aff s)) = false.
Proof.
  intros Hgs Hc. unfold _getWorker.
  destruct (select_state av aff s) as [H|[i H]];
    destruct (select av aff s) as [c s1]; simpl in H; subst s1;
    rewrite grow_closed_gate by assumption; simpl; auto.
Qed.

Lemma getWorker_open_gate (av : nat -> bool) (aff : option Z) (s : State) :
  is_zero (gradualScaling s) = false ->
  canCreateWorker s = true ->
  num_ltb (len (workers s)) (maxWorkers s) = true ->
  workers (snd (_getWorker av aff s)) = workers s ++ [nextId s] /\
  canCreateWorker (snd (_getWorker av aff s)) = false /\
  timers (snd (_getWorker av aff s))
    = timers s ++ [(now s + timer_delay (gradualScaling s))%Z] /\
  scaling_times (trace (snd (_getWorker av aff s)))
    = scaling_times (trace s) ++ [now s].
Proof.
  intros Hgs Hc Hroom. unfold _getWorker.
  destruct (select_state av aff s) as [H|[i H]];
    destruct (select av aff s) as [c s1]; simpl in H; subst s1.
  - apply grow_open_gate; assumption.
  - apply (grow_open_gate c (set_lastChosen i s)); assumption.
Qed.

Lemma ensureMinWorkers_exempt (s : State) (z : Z) :
  minWorkers s = Some (Int z) -> z <> 0%Z ->
  exists s',
    _ensureMinWorkers s = Returns s' /\
    List.length (workers s') = Nat.max (List.length (workers s)) (Z.to_nat z) /\
    gate_view s' = gate_view s.
Proof.
  intros Hm Hz. unfold _ensureMinWorkers. rewrite Hm. simpl.
  apply Z.eqb_neq in Hz. rewrite Hz. simpl.
  eexists. split; [reflexivity|]. split; [|apply gate_spawn].
  rewrite spawn_length. lia.
Qed.

(** The callback of the scaling timer, once it is due. *)
Lemma timer_reopens_gate (d : Z) (s : State) :
  In d (timers s) -> (d <= now s)%Z ->
  fire (L_timer d) s
    = Some (set_canCreateWorker true (set_timers (remove_first d (timers s)) s)).
Proof.
  intros Hin Hdue. simpl.
  assert (E : existsb (Z.eqb d) (timers s) = true).
  { apply existsb_exists. exists d. split; [exact Hin|apply Z.eqb_refl]. }
  apply Z.leb_le in Hdue. rewrite E, Hdue. reflexivity.
Qed.

(** C9, as the code has it.  With [gradualScaling] set, [_getWorker]
    creates nothing while the gate is closed, whatever room there is; with
    the gate open and room for a worker it creates one, closes the gate and
    arms the timer, all in the same call.  No turn of the event loop opens
    a closed gate except the callback of that timer, which is not due
    before its delay has passed; when it runs, the gate is open again and
    nothing else has changed.  [_ensureMinWorkers] creates the workers it
    misses without looking at the gate or touching it.  So in every state
    the pool reaches, the times at which the gate let a worker through are
    at least the delay of the timer apart, and that delay is
    [gradualScaling] when it is an integer from [1] to [2^31 - 1]. *)
Theorem C9_gradual_scaling :
  (forall av aff s,
     is_zero (gradualScaling s) = false ->
     canCreateWorker s = false ->
     workers (snd (_getWorker av aff s)) = workers s /\
     trace (snd (_getWorker av aff s)) = trace s /\
     canCreateWorker (snd (_getWorker av aff s)) = false) /\
  (forall av aff s,
     is_zero (gradualScaling s) = false ->
     canCreateWorker s = true ->
     num_ltb (len (workers s)) (maxWorkers s) = true ->
     workers (snd (_getWorker av aff s)) = workers s ++ [nextId s] /\
     canCreateWorker (snd (_getWorker av aff s)) = false /\
     timers (snd (_getWorker av aff s))
       = timers s ++ [(now s + timer_delay (gradualScaling s))%Z] /\
     scaling_times (trace (snd (_getWorker av aff s)))
       = scaling_times (trace s) ++ [now s]) /\
  (forall l s s',
     fire l s = Some s' ->
     canCreateWorker s = false ->
     canCreateWorker s' = true ->
     exists d, l = L_timer d /\ In d (timers s) /\ (d <= now s)%Z) /\
  (forall d s,
     In d (timers s) -> (d <= now s)%Z ->
     exists s',
       fire (L_timer d) s = Some s' /\
       canCreateWorker s' = true /\
       timers s' = remove_first d (timers s) /\
       workers s' = workers s /\ tasks s' = tasks s /\ trace s' = trace s) /\
  (forall s z,
     minWorkers s = Some (Int z) -> z <> 0%Z ->
     exists s',
       _ensureMinWorkers s = Returns s' /\
       List.length (workers s')
         = Nat.max (List.length (workers s)) (Z.to_nat z) /\
       gate_view s' = gate_view s) /\
  (forall env args s,
     reachable env args s ->
     gate_invariant s /\
     (forall i j ti tj,
        i < j ->
        nth_error (scaling_times (trace s)) i = Some ti ->
        nth_error (scaling_times (trace s)) j = Some tj ->
        (ti + timer_delay (gradualScaling s) <= tj)%Z) /\
     (forall z i j ti tj,
        gradualScaling s = Whole (Int z) ->
        (1 <= z <= 2147483647)%Z ->
        i < j ->
        nth_error (scaling_times (trace s)) i = Some ti ->
        nth_error (scaling_times (trace s)) j = Some tj ->
        (ti + z <= tj)%Z)).
Proof.
  split; [exact getWorker_closed_gate|].
  split; [exact getWorker_open_gate|].
  split; [|split; [|split; [exact ensureMinWorkers_exempt|]]].
  - intros l s s' Hf Hc Hc'.
    destruct l;
      try (destruct (fire_scaling _ s s' Hf) as [[Hg|Hg] _]; [discriminate| |];
           [ unfold gate_view in Hg; injection Hg as Hg _ _; congruence
           | destruct Hg as (Hg & _); congruence ]).
    simpl in Hf.
    destruct (existsb (Z.eqb d) (timers s) && (d <=? now s)%Z) eqn:E;
      [|discriminate].
    apply andb_true_iff in E. destruct E as [Ein Edue].
    exists d. split; [reflexivity|]. split; [|apply Z.leb_le; exact Edue].
    apply existsb_exists in Ein. destruct Ein as (x & Hx & Ex).
    apply Z.eqb_eq in Ex. subst x. exact Hx.
  - intros d s Hin Hdue. eexists.
    split; [apply timer_reopens_gate; assumption|]. repeat split.
  - intros env args s (s0 & ls & Hnew & Hrun).
    assert (Hinv : gate_invariant s).
    { eapply gate_invariant_run; [exact Hrun|].
      eapply gate_invariant_new_Pool, Hnew. }
    split; [exact Hinv|]. split.
    + apply spaced_nth. apply Hinv.
    + intros z i j ti tj Hz Hrange.
      rewrite <- (timer_delay_in_range z Hrange), <- Hz.
      apply spaced_nth. apply Hinv.
Qed.

Lemma C9_gradual_scaling_witness :
  workers (snd (_getWorker all_busy None after_first_submission))
    = workers after_first_submission /\
  canCreateWorker (snd (_getWorker all_busy None gradual_pool)) = false /\
  (exists s',
     fire (L_timer 100) timer_due = Some s' /\
     canCreateWorker s' = true /\
     workers (snd (_getWorker all_busy None s')) = workers s' ++ [nextId s']) /\
  (canCreateWorker short_of_min = false /\
   is_zero (gradualScaling short_of_min) = false /\
   List.length (workers short_of_min) = 1 /\
   exists s',
     _ensureMinWorkers short_of_min = Returns s' /\
     List.length (workers s') = 2 /\
     gate_view s' = gate_view short_of_min) /\
  (forall i j ti tj,
     i < j ->
     nth_error (scaling_times (trace after_burst)) i = Some ti ->
     nth_error (scaling_times (trace after_burst)) j = Some tj ->
     (ti + 100 <= tj)%Z).
Proof.
  destruct C9_gradual_scaling
    as (Hclosed & Hopen & _ & Htimer & Hmin & Hreach).
  split; [|split; [|split; [|split]]].
  - apply Hclosed; vm_compute; reflexivity.
  - apply Hopen; vm_compute; reflexivity.
  - destruct (Htimer 100%Z timer_due) as (s' & Hf & Hc & _ & Hw & _).
    + vm_compute. left. reflexivity.
    + vm_compute. discriminate.
    + exists s'. split; [exact Hf|]. split; [exact Hc|].
      assert (Es : s' = after [L_timer 100] timer_due).
      { assert (E : fire (L_timer 100) timer_due
                    = Some (after [L_timer 100] timer_due))
          by (vm_compute; reflexivity).
        congruence. }
      apply Hopen.
      * rewrite Es. vm_compute. reflexivity.
      * exact Hc.
      * rewrite Es. vm_compute. reflexivity.
  - split; [vm_compute; reflexivity|]. split; [vm_compute; reflexivity|].
    split; [vm_compute; reflexivity|].
    destruct (Hmin short_of_min 2%Z) as (s' & H1 & H2 & H3).
    + vm_compute. reflexivity.
    + discriminate.
    + exists s'. split; [exact H1|]. split; [|exact H3].
      rewrite H2. vm_compute. reflexivity.
  - intros i j ti tj.
    destruct (Hreach node_env (OptionsOnly (Some gradual_options)) after_burst)
      as (_ & _ & H).
    + exists gradual_pool, burst. split; vm_compute; reflexivity.
    + apply (H 100%Z); [vm_compute; reflexivity|lia].
Defined.

(** C9 as the spec states it fails for a [gradualScaling] that the timer
    does not keep.  Line 302 hands the value to [setTimeout] as it is, and
    a timer of Node runs after 1 ms when the delay is above [2^31 - 1]:
    with [gradualScaling: 2147483648] the gate is open again 1 ms after the
    first creation, and the scaling path has created two workers 50 ms
    apart. *)
Lemma C9_delay_out_of_range_counterexample :
  new_Pool node_env (OptionsOnly (Some huge_delay_options))
    = Returns huge_delay_pool /\
  gradualScaling huge_delay_pool = Whole (Int 2147483648) /\
  run huge_delay_run huge_delay_pool = Some after_huge_delay /\
  scaling_times (trace after_huge_delay) = [0%Z; 50%Z] /\
  List.length (workers after_huge_delay) = 2 /\
  ~ (0 + 2147483648 <= 50)%Z.
Proof. vm_compute. repeat split. intros H. apply H. reflexivity. Qed.

(** Scenario: a burst of three submissions creates one worker; the second
    comes once the timer has fired, 100 ms later. *)
Example burst_is_throttled :
  workers after_first_submission = [1] /\
  workers (after [L_exec all_busy (MString "f") VUndefined None;
                  L_exec all_busy (MString "f") VUndefined None;
                  L_exec all_busy (MString "f") VUndefined None] gradual_pool)
    = [1] /\
  workers after_burst = [1; 4] /\
  scaling_times (trace after_burst) = [0%Z; 100%Z].
Proof. vm_compute. repeat split. Qed.

(** [indexOf] finds the first occurrence, and [splice] takes it out. *)
Lemma indexOf_splice (w : nat) (l : list nat) :
  match indexOf w l with
  | Some i =>
      exists l1 l2, l = l1 ++ w :: l2 /\ ~ In w l1 /\ i = List.length l1 /\
                    splice1 i l = l1 ++ l2
  | None => ~ In w l
  end.
Proof.
  induction l as [|x l IH]; simpl; [tauto|].
  destruct (Nat.eqb x w) eqn:E.
  - apply Nat.eqb_eq in E. subst x.
    exists [], l. repeat split. tauto.
  - apply Nat.eqb_neq in E.
    destruct (indexOf w l) as [i|]; simpl.
    + destruct IH as (l1 & l2 & -> & Hn & -> & Hs).
      exists (x :: l1), l2. repeat split.
      * simpl. intros [H|H]; tauto.
      * change (x :: splice1 (List.length l1) (l1 ++ w :: l2)
                = (x :: l1) ++ l2).
        rewrite Hs. reflexivity.
    + tauto.
Qed.

(** ** Worker handles are distinct *)

Lemma distinct_push_fresh (l : list nat) (n : nat) :
  NoDup l /\ Forall (fun w => w < n) l ->
  NoDup (l ++ [n]) /\ Forall (fun w => w < S n) (l ++ [n]).
Proof.
  intros [Hnd Hlt]. split.
  - apply NoDup_app; [exact Hnd|repeat constructor; simpl; tauto|].
    intros x Hx [<-|[]].
    rewrite Forall_forall in Hlt. specialize (Hlt _ Hx). lia.
  - apply Forall_app. split.
    + eapply Forall_impl; [|exact Hlt]. simpl. intros; lia.
    + constructor; [lia|constructor].
Qed.

Lemma distinct_steady (s s' : State) :
  steady s' = steady s -> distinct_handles s -> distinct_handles s'.
Proof.
  unfold distinct_handles. intros H.
  rewrite (steady_workers s s' H), (steady_nextId s s' H). tauto.
Qed.

Lemma distinct_create (s : State) :
  distinct_handles s ->
  distinct_handles
    (push_worker (fst (_createWorkerHandler s)) (snd (_createWorkerHandler s))).
Proof. unfold distinct_handles. simpl. apply distinct_push_fresh. Qed.

Lemma distinct_grow (c : option nat) (s : State) :
  distinct_handles s -> distinct_handles (snd (grow c s)).
Proof.
  intros H. unfold grow.
  destruct (num_ltb _ _); [|exact H].
  destruct (is_zero (gradualScaling s)); [apply (distinct_create s H)|].
  destruct (canCreateWorker s); [|exact H].
  apply (distinct_create
           (setTimeout (gradualScaling (set_canCreateWorker false s))
              (set_canCreateWorker false s))).
  exact H.
Qed.

Lemma distinct_getWorker (av : nat -> bool) (aff : option Z) (s : State) :
  distinct_handles s -> distinct_handles (snd (_getWorker av aff s)).
Proof.
  intros H. unfold _getWorker.
  pose proof (steady_select av aff s) as Hs.
  destruct (select av aff s) as [c s1]. simpl in Hs.
  apply distinct_grow. eapply distinct_steady; eassumption.
Qed.

Lemma distinct_next_from (av : nat -> bool) (q : list Task) (s : State) :
  distinct_handles s -> distinct_handles (next_from av q s).
Proof.
  revert s. induction q as [|t rest IH]; intros s H; [exact H|].
  simpl.
  pose proof (distinct_getWorker av (task_affinity t) s H) as H1.
  destruct (_getWorker av (task_affinity t) s) as [[w|] s1]; simpl in H1;
    [|exact H1].
  assert (H2 : distinct_handles (set_tasks rest s1)) by exact H1.
  destruct (pending (resolver t) (set_tasks rest s1)).
  - eapply distinct_steady; [apply steady_dispatch|exact H2].
  - apply IH. exact H2.
Qed.

Lemma distinct_bump (s : State) :
  distinct_handles s -> distinct_handles (set_nextId (S (nextId s)) s).
Proof.
  unfold distinct_handles. simpl. intros [A B]. split; [exact A|].
  eapply Forall_impl; [|exact B]. simpl. intros; lia.
Qed.

Lemma distinct_submit (av : nat -> bool) (name : string) (ps : value)
    (opts : option ExecOptions) (s : State) :
  distinct_handles s -> distinct_handles (snd (submit av name ps opts s)).
Proof.
  intros H. apply distinct_bump in H. unfold submit, defer.
  match goal with |- context [if ?b then _ else _] => destruct b end;
    [exact H|].
  simpl. apply distinct_next_from. exact H.
Qed.

Lemma distinct_exec (av : nat -> bool) (m : method_arg) (ps : value)
    (opts : option ExecOptions) (s : State) :
  distinct_handles s -> distinct_handles (snd (exec av m ps opts s)).
Proof.
  intros H. unfold exec, exec_named.
  destruct (truthy ps && negb (isArray ps)); [exact H|].
  destruct m; simpl; try exact H; apply distinct_submit; exact H.
Qed.

Lemma nextId_removeWorkerFromList (w : nat) (s : State) :
  nextId (_removeWorkerFromList w s) = nextId s.
Proof. unfold _removeWorkerFromList. case_if; reflexivity. Qed.

Lemma distinct_removeWorkerFromList (w : nat) (s : State) :
  distinct_handles s -> distinct_handles (_removeWorkerFromList w s).
Proof.
  unfold distinct_handles. rewrite nextId_removeWorkerFromList.
  unfold _removeWorkerFromList.
  pose proof (indexOf_splice w (workers s)) as H.
  destruct (indexOf w (workers s)) as [i|]; [|tauto].
  destruct H as (l1 & l2 & H1 & _ & _ & H3).
  simpl. rewrite H3, H1. intros [A B]. split.
  - eapply NoDup_remove_1. exact A.
  - apply Forall_app in B. destruct B as [B1 B2].
    inversion B2; subst. apply Forall_app. split; assumption.
Qed.

Lemma distinct_spawn (n : nat) (s : State) :
  distinct_handles s -> distinct_handles (spawn n s).
Proof.
  revert s. induction n as [|n IH]; intros s H; [exact H|].
  simpl. apply IH. apply (distinct_create s H).
Qed.

Lemma distinct_ensureMinWorkers (s s' : State) :
  _ensureMinWorkers s = Returns s' -> distinct_handles s -> distinct_handles s'.
Proof.
  unfold _ensureMinWorkers. intros H Hd.
  destruct (minWorkers s) as [m|]; [|injection H as <-; exact Hd].
  destruct (num_truthy m); [|injection H as <-; exact Hd].
  destruct m; [|discriminate].
  injection H as <-. apply distinct_spawn. exact Hd.
Qed.

Lemma distinct_removeWorker (w : nat) (s s' : State) :
  _removeWorker w s = Returns s' -> distinct_handles s -> distinct_handles s'.
Proof.
  unfold _removeWorker, bind. intros H Hd.
  destruct (_ensureMinWorkers _) as [s3| |] eqn:E; try discriminate.
  injection H as <-.
  apply distinct_ensureMinWorkers in E; [exact E|].
  apply distinct_removeWorkerFromList. exact Hd.
Qed.

Lemma distinct_terminate_settled (w : nat) (o : settlement) (s : State) :
  distinct_handles s -> distinct_handles (terminate_settled w o s).
Proof.
  intros H. unfold terminate_settled.
  destruct o as [[h|]|]; simpl; try exact H.
  apply (distinct_removeWorkerFromList h s H).
Qed.

Lemma distinct_fire (l : label) (s s' : State) :
  fire l s = Some s' -> distinct_handles s -> distinct_handles s'.
Proof.
  destruct l; simpl; intros H Hd.
  - injection H as <-. apply distinct_exec, Hd.
  - injection H as <-.
    eapply distinct_steady; [apply steady_promise_timeout|exact Hd].
  - injection H as <-. apply distinct_next_from, Hd.
  - destruct res as [|[|]]; simpl in H.
    + injection H as <-. apply distinct_next_from, distinct_next_from, Hd.
    + destruct (_removeWorker w s) eqn:E; try discriminate.
      injection H as <-. eapply distinct_removeWorker; eassumption.
    + injection H as <-. apply distinct_next_from, Hd.
  - injection H as <-. unfold removal_settled, removeWorker_done.
    destruct err; [exact Hd|]. apply distinct_next_from. exact Hd.
  - destruct (_removeWorker w s) eqn:E; try discriminate.
    injection H as <-. eapply distinct_removeWorker; eassumption.
  - injection H as <-. exact Hd.
  - injection H as <-.
    eapply distinct_steady; [apply steady_terminate|exact Hd].
  - injection H as <-. apply distinct_terminate_settled, Hd.
  - destruct (existsb _ _ && _); [|discriminate].
    injection H as <-. exact Hd.
  - injection H as <-. unfold settle. destruct (pending r s); exact Hd.
  - destruct (0 <=? dt)%Z; [|discriminate].
    injection H as <-. exact Hd.
Qed.

(** In every state a pool reaches, the worker list has no handle twice. *)
Lemma reachable_distinct (env : Environment) (args : PoolArgs) (s : State) :
  reachable env args s -> distinct_handles s.
Proof.
  intros (s0 & ls & Hnew & Hrun).
  apply (run_invariant distinct_handles distinct_fire ls s0 s Hrun).
  destruct (new_Pool_returns env args s0 Hnew)
    as (maxW & minW & s1 & _ & _ & Hs & He).
  assert (Hf : forall mw,
            distinct_handles
              (fresh_pool (given_script args) (given_options args) maxW mw)).
  { intros mw. split; constructor. }
  assert (H1 : distinct_handles s1).
  { destruct Hs as [[-> ->]|Hs]; [apply Hf|].
    eapply distinct_ensureMinWorkers; [exact Hs|apply Hf]. }
  destruct He as [->| ->]; exact H1.
Qed.

(** ** Termination *)

Lemma events_emit (e : event) (s : State) : events (emit e s) = events s ++ [e].
Proof. unfold events, emit. simpl. rewrite map_app. reflexivity. Qed.

Lemma events_fold_emit {A : Type} (f : A -> event) (l : list A) (s : State) :
  events (fold_left (fun a x => emit (f x) a) l s) = events s ++ map f l.
Proof.
  revert s. induction l as [|x l IH]; intros s; simpl.
  - rewrite app_nil_r. reflexivity.
  - rewrite IH, events_emit, <- app_assoc. reflexivity.
Qed.

Lemma events_reject (r : nat) (msg : string) (s : State) :
  events (reject r msg s) = events s ++ [Reject r msg].
Proof. unfold reject. case_if; apply events_emit. Qed.

Lemma events_fold_reject (msg : string) (l : list Task) (s : State) :
  events (fold_left (fun a t => reject (resolver t) msg a) l s)
    = events s ++ map (fun t => Reject (resolver t) msg) l.
Proof.
  revert s. induction l as [|x l IH]; intros s; simpl.
  - rewrite app_nil_r. reflexivity.
  - rewrite IH, events_reject, <- app_assoc. reflexivity.
Qed.

Lemma reject_settles (r : nat) (msg : string) (s : State) :
  pending r (reject r msg s) = false.
Proof.
  unfold reject.
  destruct (pending r (emit (Reject r msg) s)) eqn:E; [|exact E].
  unfold pending. simpl. rewrite Nat.eqb_refl. reflexivity.
Qed.

Lemma fold_reject_settles (msg : string) (l : list Task) (s : State) (t : Task) :
  In t l ->
  pending (resolver t) (fold_left (fun a x => reject (resolver x) msg a) l s)
    = false.
Proof.
  revert s. induction l as [|x l IH]; intros s; simpl; [tauto|].
  intros [->|H]; [|apply IH; exact H].
  destruct (advances_fold_reject msg l (reject (resolver t) msg s)) as [Hm _].
  apply Hm. apply reject_settles.
Qed.

Lemma settled_fold_emit {A : Type} (f : A -> event) (l : list A) (s : State) :
  settled (fold_left (fun a x => emit (f x) a) l s) = settled s.
Proof.
  revert s. induction l as [|x l IH]; intros s; [reflexivity|].
  simpl. rewrite IH. reflexivity.
Qed.

Lemma tasks_fold_emit {A : Type} (f : A -> event) (l : list A) (s : State) :
  tasks (fold_left (fun a x => emit (f x) a) l s) = tasks s.
Proof.
  revert s. induction l as [|x l IH]; intros s; [reflexivity|].
  simpl. rewrite IH. reflexivity.
Qed.

Lemma removeWorkerFromList_spec (w : nat) (s : State) :
  In w (workers s) ->
  exists l1 l2,
    workers s = l1 ++ w :: l2 /\ ~ In w l1 /\
    workers (_removeWorkerFromList w s) = l1 ++ l2.
Proof.
  intros Hin. unfold _removeWorkerFromList.
  pose proof (indexOf_splice w (workers s)) as H.
  destruct (indexOf w (workers s)) as [i|]; [|contradiction].
  destruct H as (l1 & l2 & H1 & H2 & _ & H3).
  exists l1, l2. simpl. auto.
Qed.

(** C1, as the code has it.  [terminate] rejects the resolver of every
    queued task with "Pool terminated", empties the queue, and calls
    [terminateAndNotify(force, timeout)] on each worker of a snapshot of
    the list, which it leaves as it is.  When the promise of such a call is
    fulfilled with the worker, the first occurrence of the worker is taken
    out of the list (in a state the pool can reach it is the only one);
    when it is rejected, the worker stays.  Either way [onTerminateWorker]
    is called for the worker. *)
Theorem C1_terminate :
  (forall force tmo s,
     fst (terminate force tmo s) = workers s /\
     tasks (snd (terminate force tmo s)) = [] /\
     workers (snd (terminate force tmo s)) = workers s /\
     events (snd (terminate force tmo s))
       = events s ++
         map (fun t => Reject (resolver t) "Pool terminated") (tasks s) ++
         map (fun w => TerminateAndNotify w force tmo) (workers s) /\
     (forall t, In t (tasks s) ->
        pending (resolver t) (snd (terminate force tmo s)) = false)) /\
  (forall w s,
     In w (workers s) ->
     (exists l1 l2,
        workers s = l1 ++ w :: l2 /\ ~ In w l1 /\
        workers (terminate_settled w (Fulfilled (Some w)) s) = l1 ++ l2) /\
     events (terminate_settled w (Fulfilled (Some w)) s)
       = events s ++ [OnTerminateWorker w]) /\
  (forall env args w s,
     reachable env args s ->
     ~ In w (workers (terminate_settled w (Fulfilled (Some w)) s))) /\
  (forall w s,
     workers (terminate_settled w Rejected s) = workers s /\
     events (terminate_settled w Rejected s)
       = events s ++ [OnTerminateWorker w]).
Proof.
  split; [|split; [|split]].
  - intros force tmo s. unfold terminate. simpl.
    set (s1 := fold_left (fun a t => reject (resolver t) "Pool terminated" a)
                 (tasks s) s).
    assert (Hw : workers s1 = workers s).
    { apply steady_workers. apply steady_fold_reject. }
    split; [exact Hw|]. split; [apply tasks_fold_emit|].
    split; [|split].
    + transitivity (workers (set_tasks [] s1)); [|exact Hw].
      apply steady_workers. apply steady_fold_emit. intros; discriminate.
    + rewrite events_fold_emit.
      change (events (set_tasks [] s1)) with (events s1).
      unfold s1 at 1. rewrite events_fold_reject, <- app_assoc.
      change (workers (set_tasks [] s1)) with (workers s1). rewrite Hw.
      reflexivity.
    + intros t Ht.
      transitivity (pending (resolver t) s1).
      * apply pending_settled. rewrite settled_fold_emit. reflexivity.
      * apply fold_reject_settles. exact Ht.
  - intros w s Hin. unfold terminate_settled, removeWorker.
    destruct (removeWorkerFromList_spec w s Hin) as (l1 & l2 & H1 & H2 & H3).
    split.
    + exists l1, l2. simpl. auto.
    + rewrite events_emit. f_equal.
      unfold _removeWorkerFromList. case_if; reflexivity.
  - intros env args w s Hreach Hin.
    destruct (reachable_distinct env args s Hreach) as [Hnd _].
    unfold terminate_settled, removeWorker in Hin. simpl in Hin.
    unfold _removeWorkerFromList in Hin.
    pose proof (indexOf_splice w (workers s)) as H.
    destruct (indexOf w (workers s)) as [i|]; [|contradiction].
    destruct H as (l1 & l2 & H1 & _ & _ & H3).
    simpl in Hin. rewrite H3 in Hin. rewrite H1 in Hnd.
    apply NoDup_remove_2 in Hnd. contradiction.
  - intros w s. unfold terminate_settled. rewrite events_emit.
    split; reflexivity.
Qed.

Lemma C1_terminate_witness :
  tasks terminating = [] /\
  pending 2 terminating = false /\
  events terminating
    = events one_queued ++
      [Reject 2 "Pool terminated"; TerminateAndNotify 1 (VBool true) VUndefined] /\
  workers (terminate_settled 1 (Fulfilled (Some 1)) terminating) = [] /\
  workers (terminate_settled 1 Rejected terminating) = [1].
Proof.
  destruct C1_terminate as (Hsync & Hok & _ & Hfail).
  destruct (Hsync (VBool true) VUndefined one_queued) as (_ & H1 & _ & H2 & H3).
  split; [exact H1|]. split; [|split; [exact H2|split]].
  - apply (H3 task_g). left. reflexivity.
  - destruct (Hok 1 terminating) as ((l1 & l2 & _ & _ & H) & _).
    + left. reflexivity.
    + vm_compute. reflexivity.
  - rewrite (proj1 (Hfail 1 terminating)). reflexivity.
Defined.

(** C1 as the spec states it fails when [terminateAndNotify] fails:
    [then(removeWorker)] is skipped on rejection, so the worker is still in
    the list after [onTerminateWorker] was called for it. *)
Lemma C1_failed_termination_counterexample :
  fst (terminate (VBool true) VUndefined one_queued) = [1] /\
  workers (terminate_settled 1 Rejected terminating) = [1] /\
  events (terminate_settled 1 Rejected terminating)
    = events terminating ++ [OnTerminateWorker 1].
Proof. vm_compute. repeat split. Qed.

(** Scenario: [terminate(true, 100)] with three tasks in the queue. *)
Example terminate_rejects_queued_tasks :
  events (snd (terminate (VBool true) (VNumber (Int 100)) three_queued))
    = events three_queued ++
      [Reject 2 "Pool terminated"; Reject 3 "Pool terminated";
       Reject 4 "Pool terminated";
       TerminateAndNotify 1 (VBool true) (VNumber (Int 100))].
Proof. vm_compute. reflexivity. Qed.

(** ** Submitting a function *)

(** [exec] with a string method is [exec_named]. *)
Lemma exec_string (av : nat -> bool) (name : string) (ps : value)
    (opts : option ExecOptions) (s : State) :
  exec av (MString name) ps opts s = exec_named av name ps opts s.
Proof. reflexivity. Qed.

(** C2 on the code: a function is resubmitted as
    [exec("run", [String(f), params])], without the [options] of the
    caller.  With two free workers and [{affinity: 1}], the task of the
    function carries no options and goes to worker 0, where
    [exec("run", [String(f), params], {affinity: 1})] goes to worker 1. *)
Theorem C2_function_drops_options :
  (forall av src ps opts s,
     truthy ps = false \/ isArray ps = true ->
     exec av (MFunction src) ps opts s
       = exec av (MString "run") (VArray [VString src; ps]) None s) /\
  events (snd (exec all_free (MFunction add_src) add_args (Some pin_to_1)
                 two_workers))
    = events two_workers ++
      [WorkerExec 0
         (mkTask "run" (VArray [VString add_src; add_args]) 2 None None)] /\
  events (snd (exec all_free (MString "run")
                 (VArray [VString add_src; add_args]) (Some pin_to_1)
                 two_workers))
    = events two_workers ++
      [WorkerExec 1
         (mkTask "run" (VArray [VString add_src; add_args]) 2 None
            (Some pin_to_1))].
Proof.
  split; [|split; vm_compute; reflexivity].
  intros av src ps opts s Hps. unfold exec, exec_named.
  assert (E : truthy ps && negb (isArray ps) = false).
  { destruct Hps as [->| ->]; [reflexivity|apply andb_false_r]. }
  rewrite E. reflexivity.
Qed.

(** * Further properties of the pool *)

(** ** Outcomes of [exec] *)

(** X1: The three refusals of [exec], in the order the code tests for them,
    leave the pool as it was.  [params] that is not an array is refused
    first, whatever the method and the queue; then a method that is
    neither a string nor a function; then, for a string or a function, a
    full queue.  Nothing is queued, no worker is created or picked and no
    call leaves the pool; only the deferred of line 134 has been made when
    the queue is found full. *)
Theorem exec_refusals_leave_pool_untouched (av : nat -> bool) (m : method_arg)
    (ps : value) (opts : option ExecOptions) (s : State) :
  (bad_params ps = true ->
   exec av m ps opts s = (Throws params_error, s)) /\
  (bad_params ps = false -> m = MOther ->
   exec av m ps opts s = (Throws method_error, s)) /\
  (bad_params ps = false -> m <> MOther -> queue_full s = true ->
   exec av m ps opts s
     = (Throws (queue_error (maxQueueSize s)), set_nextId (S (nextId s)) s)).
Proof.
  unfold exec, exec_named, submit, defer, bad_params, queue_full.
  split; [|split].
  - intros ->. reflexivity.
  - intros -> ->. reflexivity.
  - intros -> Hm Hfull.
    destruct m as [name|src|]; [| |congruence]; simpl;
      change (maxQueueSize (set_nextId (S (nextId s)) s)) with (maxQueueSize s);
      change (tasks (set_nextId (S (nextId s)) s)) with (tasks s);
      rewrite Hfull; reflexivity.
Qed.

Lemma exec_refusals_leave_pool_untouched_witness :
  exec all_free (MString "h") (VNumber (Int 5)) None two_workers
    = (Throws params_error, two_workers) /\
  exec all_free MOther (VArray []) None two_workers
    = (Throws method_error, two_workers) /\
  exec all_busy (MFunction add_src) add_args None one_queued
    = (Throws (queue_error (maxQueueSize one_queued)),
       set_nextId (S (nextId one_queued)) one_queued).
Proof.
  split; [|split].
  - apply (exec_refusals_leave_pool_untouched all_free (MString "h")
             (VNumber (Int 5)) None two_workers).
    vm_compute. reflexivity.
  - apply (exec_refusals_leave_pool_untouched all_free MOther (VArray []) None
             two_workers); vm_compute; reflexivity.
  - apply (exec_refusals_leave_pool_untouched all_busy (MFunction add_src)
             add_args None one_queued);
      [vm_compute; reflexivity|discriminate|vm_compute; reflexivity].
Defined.

(** [exec] always comes back, and when it returns a promise it is the
    promise of the deferred it made. *)
Lemma exec_returns_fresh (av : nat -> bool) (m : method_arg) (ps : value)
    (opts : option ExecOptions) (s : State) :
  fst (exec av m ps opts s) <> Diverges /\
  forall r, fst (exec av m ps opts s) = Returns r -> r = nextId s.
Proof.
  unfold exec, exec_named, submit, defer.
  destruct (truthy ps && negb (isArray ps)); [split; discriminate|].
  destruct m; simpl; try (split; discriminate);
    match goal with |- context [if ?b then _ else _] => destruct b end; simpl;
    split; try discriminate; intros r H; congruence.
Qed.

(** ** The queue is served in order *)

Lemma tasks_dispatch (w : nat) (t : Task) (s : State) :
  tasks (dispatch w t s) = tasks s.
Proof.
  unfold dispatch. destruct (timeout t) as [d|]; [destruct (isNumber d)|];
    reflexivity.
Qed.

Lemma next_from_fifo (av : nat -> bool) (q : list Task) (s : State) :
  tasks s = q ->
  exists skipped sent,
    q = skipped ++ sent ++ tasks (next_from av q s) /\
    Forall (fun t => pending (resolver t) s = false) skipped /\
    Forall (fun t => pending (resolver t) s = true) sent /\
    List.length sent <= 1 /\
    executed (trace (next_from av q s)) = executed (trace s) ++ sent.
Proof.
  revert s. induction q as [|t rest IH]; intros s Hq.
  - exists [], []. simpl. rewrite Hq, app_nil_r.
    repeat first [split | constructor].
  - simpl.
    pose proof (quiet_getWorker av (task_affinity t) s) as Hquiet.
    pose proof (tasks_getWorker av (task_affinity t) s) as Htasks.
    destruct (_getWorker av (task_affinity t) s) as [[w|] s1];
      simpl in Hquiet, Htasks.
    + destruct Hquiet as [Hset Hex].
      assert (Hp : forall r, pending r (set_tasks rest s1) = pending r s).
      { intros r. apply pending_settled. exact Hset. }
      destruct (pending (resolver t) (set_tasks rest s1)) eqn:E.
      * exists [], [t]. rewrite tasks_dispatch. simpl.
        destruct (dispatch_executed w t (set_tasks rest s1)) as [_ Hd].
        rewrite Hd. simpl. rewrite Hex.
        split; [reflexivity|]. split; [constructor|].
        split; [constructor; [rewrite <- Hp; exact E|constructor]|].
        split; [apply Nat.le_refl|reflexivity].
      * destruct (IH (set_tasks rest s1) eq_refl)
          as (skipped & sent & H1 & H2 & H3 & H4 & H5).
        exists (t :: skipped), sent. simpl. rewrite <- H1.
        split; [reflexivity|]. split; [|split; [|split]].
        -- constructor; [rewrite <- Hp; exact E|].
           eapply Forall_impl; [|exact H2]. simpl. intros a Ha.
           rewrite <- Hp. exact Ha.
        -- eapply Forall_impl; [|exact H3]. simpl. intros a Ha.
           rewrite <- Hp. exact Ha.
        -- exact H4.
        -- rewrite H5. simpl. rewrite Hex. reflexivity.
    + exists [], []. simpl. rewrite Htasks, Hq, app_nil_r.
      destruct Hquiet as [_ Hex]. rewrite Hex.
      repeat first [split | constructor].
Qed.

(** X2: One call of [_next] serves the queue from its head: it drops a run of
    tasks whose futures are settled, hands at most one task to a worker,
    the first that is still pending, and leaves the rest of the queue in
    its order. *)
Theorem next_serves_head_of_queue (av : nat -> bool) (s : State) :
  exists skipped sent,
    tasks s = skipped ++ sent ++ tasks (_next av s) /\
    Forall (fun t => pending (resolver t) s = false) skipped /\
    Forall (fun t => pending (resolver t) s = true) sent /\
    List.length sent <= 1 /\
    executed (trace (_next av s)) = executed (trace s) ++ sent.
Proof. apply (next_from_fifo av (tasks s) s). reflexivity. Qed.

(** ** Which worker is picked *)

Lemma array_get_In {A : Type} (l : list A) (i : Z) (x : A) :
  array_get l i = Some x -> In x l.
Proof.
  unfold array_get. destruct (i <? 0)%Z; [discriminate|].
  apply nth_error_In.
Qed.

Lemma array_get_rem_In {A : Type} (l : list A) (a : Z) (x : A) :
  array_get_rem l a = Some x -> In x l.
Proof.
  unfold array_get_rem. destruct l; [discriminate|]. apply array_get_In.
Qed.

Lemma select_member (av : nat -> bool) (aff : option Z) (s : State) (w : nat) :
  fst (select av aff s) = Some w -> In w (workers s).
Proof.
  unfold select, pick_roundrobin, pick_affinity, pick_available.
  destruct aff as [a|].
  - destruct (array_get_rem (workers s) a) as [c|] eqn:E; simpl.
    + intros H. injection H as <-. eapply array_get_rem_In, E.
    + destruct (roundrobin s && (0 <? List.length (workers s))); simpl.
      * destruct (array_get (workers s) _) as [c|] eqn:E2; simpl.
        -- intros H. injection H as <-. eapply array_get_In, E2.
        -- intros H. apply find_some in H. apply H.
      * intros H. apply find_some in H. apply H.
  - destruct (roundrobin s && (0 <? List.length (workers s))); simpl.
    + destruct (array_get (workers s) _) as [c|] eqn:E2; simpl.
      * intros H. injection H as <-. eapply array_get_In, E2.
      * intros H. apply find_some in H. apply H.
    + intros H. apply find_some in H. apply H.
Qed.

(** X3: The worker [_getWorker] returns is in the worker list when it returns:
    a worker that was in the list before, or the one just created. *)
Theorem getWorker_returns_listed_worker (av : nat -> bool) (aff : option Z)
    (s : State) (w : nat) :
  fst (_getWorker av aff s) = Some w ->
  In w (workers (snd (_getWorker av aff s))) /\
  (In w (workers s) \/
   w = nextId s /\ fst (select av aff s) = None /\
   workers (snd (_getWorker av aff s)) = workers s ++ [w]).
Proof.
  unfold _getWorker.
  pose proof (select_member av aff s) as Hmem.
  pose proof (steady_select av aff s) as Hs.
  destruct (select av aff s) as [c s1]. simpl in Hmem, Hs.
  pose proof (steady_workers s s1 Hs) as Hw.
  pose proof (steady_nextId s s1 Hs) as Hn.
  unfold grow.
  destruct (num_ltb (len (workers s1)) (maxWorkers s1)).
  - destruct (is_zero (gradualScaling s1)); [|destruct (canCreateWorker s1)];
      simpl; rewrite ?Hw, ?Hn; intros H.
    + injection H as <-. destruct c as [c|]; simpl.
      * specialize (Hmem c eq_refl). split; [apply in_or_app|]; auto.
      * split; [apply in_or_app; right; left; reflexivity|]. right. auto.
    + injection H as <-. destruct c as [c|]; simpl.
      * specialize (Hmem c eq_refl). split; [apply in_or_app|]; auto.
      * split; [apply in_or_app; right; left; reflexivity|]. right. auto.
    + subst c. specialize (Hmem w eq_refl). auto.
  - simpl. rewrite Hw. intros H. subst c. specialize (Hmem w eq_refl). auto.
Qed.

Lemma getWorker_returns_listed_worker_witness :
  In 2 (workers (snd (_getWorker all_busy None one_busy_worker))).
Proof.
  apply (getWorker_returns_listed_worker all_busy None one_busy_worker 2).
  vm_compute. reflexivity.
Defined.

(** ** The first-available scan *)

Lemma find_first {A : Type} (f : A -> bool) (l : list A) (w : A) :
  find f l = Some w ->
  exists l1 l2, l = l1 ++ w :: l2 /\ Forall (fun x => f x = false) l1 /\
                f w = true.
Proof.
  induction l as [|x l IH]; simpl; [discriminate|].
  destruct (f x) eqn:E.
  - intros H. injection H as <-. exists [], l. repeat split; [constructor|exact E].
  - intros H. destruct (IH H) as (l1 & l2 & -> & H1 & H2).
    exists (x :: l1), l2. repeat split; [constructor; assumption|exact H2].
Qed.

Lemma filter_find {A : Type} (f : A -> bool) (l : list A) :
  match find f l with
  | Some _ => 0 < List.length (filter f l)
  | None => List.length (filter f l) = 0
  end.
Proof.
  induction l as [|x l IH]; simpl; [reflexivity|].
  destruct (f x); simpl; [lia|exact IH].
Qed.

Lemma select_scan (av : nat -> bool) (s : State) :
  roundrobin s = false -> select av None s = (find av (workers s), s).
Proof. intros H. unfold select, pick_roundrobin. simpl. rewrite H. reflexivity. Qed.

Lemma grow_at_capacity (c : option nat) (s : State) :
  at_capacity s = true -> grow c s = (c, s).
Proof.
  unfold at_capacity, grow. intros H. apply negb_true_iff in H. rewrite H.
  reflexivity.
Qed.

(** X4: Without affinity and round-robin, [_getWorker] agrees with
    [getNumberAvailableWorkers]: when the count is positive it returns the
    first worker of the list that is available; when the count is zero and
    the list is full it returns nothing and touches nothing, and a call of
    [_next] leaves the pool exactly as it was, the task still at the head
    of the queue. *)
Theorem scan_picks_first_available (av : nat -> bool) (s : State) :
  roundrobin s = false ->
  (0 < getNumberAvailableWorkers av s ->
   exists l1 w l2,
     workers s = l1 ++ w :: l2 /\ Forall (fun x => av x = false) l1 /\
     av w = true /\ fst (_getWorker av None s) = Some w) /\
  (getNumberAvailableWorkers av s = 0 -> at_capacity s = true ->
   _getWorker av None s = (None, s) /\
   forall t rest,
     tasks s = t :: rest -> task_affinity t = None -> _next av s = s).
Proof.
  intros Hrr. unfold getNumberAvailableWorkers.
  pose proof (filter_find av (workers s)) as Hff.
  pose proof (select_scan av s Hrr) as Hsel.
  split.
  - intros Hpos.
    destruct (find av (workers s)) as [w|] eqn:E; [|lia].
    destruct (find_first av (workers s) w E) as (l1 & l2 & H1 & H2 & H3).
    exists l1, w, l2. repeat split; try assumption.
    unfold _getWorker. rewrite Hsel. apply grow_chosen.
  - intros Hzero Hcap.
    destruct (find av (workers s)) as [w|] eqn:E; [lia|].
    assert (Hg : _getWorker av None s = (None, s)).
    { unfold _getWorker. rewrite Hsel. apply grow_at_capacity. exact Hcap. }
    split; [exact Hg|].
    intros t rest Hq Ha. rewrite (next_cons av s t rest Hq), Ha, Hg.
    reflexivity.
Qed.

Lemma scan_picks_first_available_witness :
  (exists l1 w l2,
     workers two_workers = l1 ++ w :: l2 /\
     Forall (fun x => only_first x = false) l1 /\
     only_first w = true /\ fst (_getWorker only_first None two_workers) = Some w) /\
  _next all_busy one_queued = one_queued.
Proof.
  split.
  - apply (scan_picks_first_available only_first two_workers).
    + vm_compute. reflexivity.
    + vm_compute. lia.
  - destruct (scan_picks_first_available all_busy one_queued) as [_ H].
    + vm_compute. reflexivity.
    + destruct H as [_ H]; [vm_compute; reflexivity..|].
      apply (H task_g []); vm_compute; reflexivity.
Defined.

(** ** Immediate dispatch *)

Lemma getWorker_with_room (av : nat -> bool) (aff : option Z) (s : State) :
  at_capacity s = false -> gradualScaling s = Whole (Int 0) ->
  exists w, fst (_getWorker av aff s) = Some w /\
            workers (snd (_getWorker av aff s)) <> [].
Proof.
  intros Hroom Hgs. unfold _getWorker.
  pose proof (fixed_select av aff s) as Hf.
  pose proof (steady_select av aff s) as Hs.
  destruct (select av aff s) as [c s1]. simpl in Hf, Hs.
  unfold grow.
  rewrite (steady_workers s s1 Hs), (fixed_gradualScaling s s1 Hf), Hgs.
  assert (Hm : maxWorkers s1 = maxWorkers s).
  { unfold fixed in Hf. congruence. }
  rewrite Hm. unfold at_capacity in Hroom. apply negb_false_iff in Hroom.
  rewrite Hroom. simpl. eexists. split; [reflexivity|].
  intros E. apply app_eq_nil in E. destruct E as [_ E]. discriminate.
Qed.

Lemma submit_with_room (av : nat -> bool) (name : string) (ps : value)
    (opts : option ExecOptions) (s : State) :
  tasks s = [] ->
  queue_full s = false ->
  at_capacity s = false ->
  gradualScaling s = Whole (Int 0) ->
  pending (nextId s) s = true ->
  exists w s1,
    submit av name ps opts s =
      (Returns (nextId s),
       dispatch w (mkTask name ps (nextId s) None opts) (set_tasks [] s1)) /\
    quiet s s1 /\ workers s1 <> [].
Proof.
  intros Hq Hfull Hroom Hgs Hpend.
  unfold submit, defer. unfold queue_full in Hfull.
  change (maxQueueSize (set_nextId (S (nextId s)) s)) with (maxQueueSize s).
  change (tasks (set_nextId (S (nextId s)) s)) with (tasks s).
  rewrite Hfull, Hq. cbn [app].
  set (task := mkTask name ps (nextId s) None opts).
  set (s2 := set_tasks [task] (set_nextId (S (nextId s)) s)).
  destruct (getWorker_with_room av (task_affinity task) s2 Hroom Hgs)
    as (w & Hw & Hne).
  pose proof (quiet_getWorker av (task_affinity task) s2) as Hquiet.
  exists w, (snd (_getWorker av (task_affinity task) s2)).
  split; [|split; [exact Hquiet|exact Hne]].
  f_equal.
  rewrite (next_cons av s2 task [] eq_refl), Hw. cbv zeta.
  assert (E : pending (resolver task)
                (set_tasks [] (snd (_getWorker av (task_affinity task) s2)))
              = true).
  { rewrite <- Hpend. apply pending_settled. apply Hquiet. }
  rewrite E. reflexivity.
Qed.

(** X5: While the worker list can grow and scaling is not throttled, a
    submission to an empty queue never waits: the task goes to a worker
    inside the call of [exec], with the method, parameters and options the
    caller gave, and the queue is empty again when [exec] returns. *)
Theorem exec_dispatches_at_once (av : nat -> bool) (name : string) (ps : value)
    (opts : option ExecOptions) (s : State) :
  bad_params ps = false ->
  tasks s = [] ->
  queue_full s = false ->
  at_capacity s = false ->
  gradualScaling s = Whole (Int 0) ->
  pending (nextId s) s = true ->
  fst (exec av (MString name) ps opts s) = Returns (nextId s) /\
  tasks (snd (exec av (MString name) ps opts s)) = [] /\
  executed (trace (snd (exec av (MString name) ps opts s)))
    = executed (trace s) ++ [mkTask name ps (nextId s) None opts].
Proof.
  intros Hps Hq Hfull Hroom Hgs Hpend.
  destruct (submit_with_room av name ps opts s Hq Hfull Hroom Hgs Hpend)
    as (w & s1 & Hsub & [_ Hex] & _).
  rewrite exec_string. unfold exec_named. unfold bad_params in Hps.
  rewrite Hps, Hsub. cbn [fst snd].
  split; [reflexivity|]. rewrite tasks_dispatch. split; [reflexivity|].
  destruct (dispatch_executed w (mkTask name ps (nextId s) None opts)
              (set_tasks [] s1)) as [_ Hd].
  rewrite Hd. f_equal. exact Hex.
Qed.

Lemma exec_dispatches_at_once_witness :
  tasks (snd (exec all_busy (MString "f") VUndefined None two_workers_grown)) = [].
Proof.
  apply (exec_dispatches_at_once all_busy "f" VUndefined None two_workers_grown);
    vm_compute; reflexivity.
Defined.

(** ** What the worker side leaves alone *)

Lemma desk_tasks (s s' : State) : desk s' = desk s -> tasks s' = tasks s.
Proof. unfold desk. intros H. apply (f_equal fst) in H. exact H. Qed.

Lemma desk_lastChosen (s s' : State) :
  desk s' = desk s -> lastChosen s' = lastChosen s.
Proof. unfold desk. intros H. apply (f_equal snd) in H. exact H. Qed.

Lemma desk_removeWorkerFromList (w : nat) (s : State) :
  desk (_removeWorkerFromList w s) = desk s.
Proof. unfold _removeWorkerFromList. case_if; reflexivity. Qed.

Lemma desk_spawn (n : nat) (s : State) : desk (spawn n s) = desk s.
Proof.
  revert s. induction n as [|n IH]; intros s; [reflexivity|].
  simpl. rewrite IH. reflexivity.
Qed.

Lemma desk_ensureMinWorkers (s s' : State) :
  _ensureMinWorkers s = Returns s' -> desk s' = desk s.
Proof.
  unfold _ensureMinWorkers. intros H.
  destruct (minWorkers s) as [m|]; [|congruence].
  destruct (num_truthy m); [|congruence].
  destruct m; [|discriminate].
  injection H as <-. apply desk_spawn.
Qed.

Lemma desk_removeWorker (w : nat) (s s' : State) :
  _removeWorker w s = Returns s' -> desk s' = desk s.
Proof.
  unfold _removeWorker, bind. intros H.
  destruct (_ensureMinWorkers _) as [s3| |] eqn:E; try discriminate.
  injection H as <-. apply desk_ensureMinWorkers in E.
  change (desk s3 = desk s). rewrite E.
  apply (desk_removeWorkerFromList w (emit (ReleasePort w) s)).
Qed.

Lemma desk_terminate_settled (w : nat) (o : settlement) (s : State) :
  desk (terminate_settled w o s) = desk s.
Proof.
  unfold terminate_settled.
  destruct o as [[h|]|]; simpl; try reflexivity.
  apply (desk_removeWorkerFromList h s).
Qed.

(** ** The queue stays within [maxQueueSize] *)

Lemma update_at_length {A : Type} (i : nat) (f : A -> A) (l : list A) :
  List.length (update_at i f l) = List.length l.
Proof.
  revert i. induction l as [|x l IH]; intros [|i]; simpl; auto.
Qed.

Lemma next_tasks_shrink (av : nat -> bool) (s : State) :
  List.length (tasks (_next av s)) <= List.length (tasks s).
Proof.
  unfold _next.
  destruct (next_from_fifo av (tasks s) s eq_refl) as (sk & sent & H & _).
  apply (f_equal (@List.length Task)) in H. rewrite !length_app in H. lia.
Qed.

Lemma tasks_terminate (force tmo : value) (s : State) :
  tasks (snd (terminate force tmo s)) = [].
Proof. unfold terminate. simpl. apply tasks_fold_emit. Qed.

Lemma fire_tasks_shrink (l : label) (s s' : State) :
  fire l s = Some s' ->
  (forall av m ps opts, l <> L_exec av m ps opts) ->
  List.length (tasks s') <= List.length (tasks s).
Proof.
  destruct l; intros H Hl; cbn [fire] in H.
  - exfalso. eapply Hl. reflexivity.
  - injection H as <-. unfold promise_timeout. case_if; simpl;
      [rewrite update_at_length|]; apply Nat.le_refl.
  - injection H as <-. apply next_tasks_shrink.
  - destruct res as [|[|]]; cbn [exec_settled] in H.
    + injection H as <-.
      etransitivity; [apply next_tasks_shrink|apply next_tasks_shrink].
    + destruct (_removeWorker w s) eqn:E; try discriminate.
      injection H as <-.
      rewrite (desk_tasks _ _ (desk_removeWorker w s _ E)). apply Nat.le_refl.
    + injection H as <-. apply next_tasks_shrink.
  - injection H as <-. unfold removal_settled, removeWorker_done.
    destruct err; [apply Nat.le_refl|].
    etransitivity; [apply next_tasks_shrink|apply Nat.le_refl].
  - destruct (_removeWorker w s) eqn:E; try discriminate.
    injection H as <-.
    rewrite (desk_tasks _ _ (desk_removeWorker w s _ E)). apply Nat.le_refl.
  - injection H as <-. apply Nat.le_refl.
  - assert (s' = snd (terminate force tmo s)) as -> by congruence.
    rewrite tasks_terminate. simpl. lia.
  - injection H as <-.
    rewrite (desk_tasks _ _ (desk_terminate_settled w o s)). apply Nat.le_refl.
  - destruct (existsb _ _ && _); [|discriminate].
    injection H as <-. apply Nat.le_refl.
  - injection H as <-. unfold settle. destruct (pending r s); apply Nat.le_refl.
  - destruct (0 <=? dt)%Z; [|discriminate].
    injection H as <-. apply Nat.le_refl.
Qed.

Lemma reaches_mono (n' n : nat) (m : number) :
  n' <= n -> reaches n m = false -> reaches n' m = false.
Proof.
  intros Hn. destruct m as [[z|]|f| |]; simpl; intros H;
    try reflexivity; try discriminate.
  - apply Z.leb_gt in H. apply Z.leb_gt. lia.
  - apply Z.ltb_ge in H. apply Z.ltb_ge. lia.
Qed.

Lemma queue_bounded_shrink (s s' : State) :
  maxQueueSize s' = maxQueueSize s ->
  List.length (tasks s') <= List.length (tasks s) ->
  queue_bounded s -> queue_bounded s'.
Proof.
  unfold queue_bounded. intros Hm Hl [H|H].
  - left. rewrite H in Hl. destruct (tasks s'); [reflexivity|simpl in Hl; lia].
  - right. rewrite Hm.
    apply (reaches_mono _ (List.length (tasks s) - 1)); [lia|exact H].
Qed.

Lemma queue_bounded_exec (av : nat -> bool) (m : method_arg) (ps : value)
    (opts : option ExecOptions) (s : State) :
  queue_bounded s -> queue_bounded (snd (exec av m ps opts s)).
Proof.
  intros Hq.
  assert (Hsub : forall name ps' opts',
            queue_bounded (snd (submit av name ps' opts' s))).
  { intros name ps' opts'. unfold submit, defer.
    change (maxQueueSize (set_nextId (S (nextId s)) s)) with (maxQueueSize s).
    change (tasks (set_nextId (S (nextId s)) s)) with (tasks s).
    destruct (reaches (List.length (tasks s)) (maxQueueSize s)) eqn:Ef;
      [exact Hq|].
    simpl.
    match goal with |- queue_bounded (_next av ?s2) =>
      apply (queue_bounded_shrink s2);
        [ pose proof (fixed_next av s2) as Hf; unfold fixed in Hf; congruence
        | apply next_tasks_shrink | ]
    end.
    right. simpl. rewrite length_app. simpl.
    apply (reaches_mono _ (List.length (tasks s))); [lia|exact Ef]. }
  unfold exec, exec_named.
  destruct (truthy ps && negb (isArray ps)); [exact Hq|].
  destruct m; simpl; [apply Hsub|apply Hsub|exact Hq].
Qed.

Lemma config_maxQueueSize (s s' : State) :
  config s' = config s -> maxQueueSize s' = maxQueueSize s.
Proof. unfold config. intros H. injection H as _ _ _ H _ _ _. exact H. Qed.

Lemma queue_bounded_fire (l : label) (s s' : State) :
  fire l s = Some s' -> queue_bounded s -> queue_bounded s'.
Proof.
  intros H Hq.
  destruct l;
    try (apply (queue_bounded_shrink s);
         [ eapply config_maxQueueSize, fire_config, H
         | eapply fire_tasks_shrink; [exact H|discriminate]
         | exact Hq ]).
  simpl in H. injection H as <-. apply queue_bounded_exec. exact Hq.
Qed.

Lemma tasks_new_Pool (env : Environment) (args : PoolArgs) (s0 : State) :
  new_Pool env args = Returns s0 -> desk s0 = ([], (-1)%Z).
Proof.
  intros H.
  destruct (new_Pool_returns env args s0 H)
    as (maxW & minW & s1 & _ & _ & Hs & He).
  assert (E : desk s0 = desk s1) by (destruct He as [->| ->]; reflexivity).
  rewrite E. destruct Hs as [[_ ->]|Hs]; [reflexivity|].
  rewrite (desk_ensureMinWorkers _ _ Hs). reflexivity.
Qed.

Lemma reachable_queue_bounded (env : Environment) (args : PoolArgs) (s : State) :
  reachable env args s -> queue_bounded s.
Proof.
  intros (s0 & ls & Hnew & Hrun).
  apply (run_invariant queue_bounded queue_bounded_fire ls s0 s Hrun).
  left. apply (desk_tasks (fresh_pool None no_options (Int 1) None) s0).
  rewrite (tasks_new_Pool env args s0 Hnew). reflexivity.
Qed.

(** X6: In every state the pool reaches, the last task of the queue was
    let in by the test of line 136: the queue without it was below
    [maxQueueSize].  [maxQueueSize] is stored as given (line 54), so what
    this bounds depends on the number: with an integer the queue holds at
    most that many tasks (none when it is negative); with a fraction it
    holds up to the next integer above, one task more than the fraction
    allows; with [-Infinity] it stays empty.  [exec] is the only function
    that appends, and it tests first. *)
Theorem queue_is_bounded_by_maxQueueSize (env : Environment) (args : PoolArgs)
    (s : State) :
  reachable env args s ->
  (tasks s = [] \/
   reaches (List.length (tasks s) - 1) (maxQueueSize s) = false) /\
  (forall z, maxQueueSize s = Whole (Int z) ->
     (Z.of_nat (List.length (tasks s)) <= Z.max z 0)%Z) /\
  (forall f, maxQueueSize s = Fraction f ->
     (Z.of_nat (List.length (tasks s)) <= Z.max (f + 1) 0)%Z) /\
  (maxQueueSize s = NegInfinity -> tasks s = []).
Proof.
  intros Hr. pose proof (reachable_queue_bounded env args s Hr) as Hq.
  unfold queue_bounded in Hq.
  split; [exact Hq|]. split; [|split].
  - intros z Hz. destruct Hq as [->|Hq]; [simpl; lia|].
    rewrite Hz in Hq. simpl in Hq. apply Z.leb_gt in Hq.
    destruct (tasks s); simpl in *; lia.
  - intros f Hf. destruct Hq as [->|Hq]; [simpl; lia|].
    rewrite Hf in Hq. simpl in Hq. apply Z.ltb_ge in Hq.
    destruct (tasks s); simpl in *; lia.
  - intros Hm. destruct Hq as [Hq|Hq]; [exact Hq|].
    rewrite Hm in Hq. discriminate.
Qed.

Lemma queue_is_bounded_by_maxQueueSize_witness :
  (Z.of_nat (List.length (tasks one_queued)) <= Z.max 1 0)%Z /\
  (Z.of_nat (List.length (tasks fraction_queued)) <= Z.max (2 + 1) 0)%Z /\
  List.length (tasks fraction_queued) = 3.
Proof.
  split; [|split].
  - apply (queue_is_bounded_by_maxQueueSize node_env
             (OptionsOnly (Some single_worker_options)) one_queued).
    + exists single_worker.
      exists [L_exec all_busy (MString "f") VUndefined None;
              L_exec all_busy (MString "g") VUndefined None].
      split; vm_compute; reflexivity.
    + vm_compute. reflexivity.
  - apply (queue_is_bounded_by_maxQueueSize node_env
             (OptionsOnly (Some fraction_options)) fraction_queued).
    + exists fraction_pool. exists fraction_run.
      split; vm_compute; reflexivity.
    + vm_compute. reflexivity.
  - vm_compute. reflexivity.
Defined.

(** ** No queued task is lost *)

Lemma accounts_quiet (s s' : State) :
  quiet s s' -> map resolver (tasks s') = map resolver (tasks s) ->
  accounts s s'.
Proof.
  intros [Hs He] Ht. exists []. rewrite app_nil_r.
  split; [exact He|]. split.
  - intros r Hr. rewrite (pending_settled r s s' Hs). exact Hr.
  - intros r Hr. left. rewrite Ht. exact Hr.
Qed.

Lemma accounts_refl (s : State) : accounts s s.
Proof. apply accounts_quiet; [apply quiet_refl|reflexivity]. Qed.

Lemma accounts_trans (s1 s2 s3 : State) :
  accounts s1 s2 -> accounts s2 s3 -> accounts s1 s3.
Proof.
  intros (n1 & E1 & P1 & K1) (n2 & E2 & P2 & K2).
  exists (n1 ++ n2). split; [rewrite E2, E1, app_assoc; reflexivity|].
  split; [auto|].
  intros r Hr. rewrite map_app, in_app_iff.
  destruct (K1 r Hr) as [H|[H|H]].
  - destruct (K2 r H) as [H'|[H'|H']]; auto.
  - auto.
  - auto.
Qed.

Lemma accounts_next (av : nat -> bool) (s : State) : accounts s (_next av s).
Proof.
  unfold _next.
  destruct (next_from_fifo av (tasks s) s eq_refl)
    as (sk & sent & Hq & Hsk & _ & _ & Hex).
  destruct (next_from_dispatches av (tasks s) s) as [Hset _].
  assert (Hp : forall r, pending r (next_from av (tasks s) s) = pending r s).
  { intros r. apply pending_settled. exact Hset. }
  exists sent. split; [exact Hex|]. split.
  - intros r Hr. rewrite Hp. exact Hr.
  - intros r Hr. rewrite Hq, !map_app, !in_app_iff in Hr.
    destruct Hr as [Hr|[Hr|Hr]]; auto.
    right. right. rewrite Hp.
    apply in_map_iff in Hr. destruct Hr as (t & <- & Ht).
    rewrite Forall_forall in Hsk. apply Hsk, Ht.
Qed.

Lemma accounts_submit (av : nat -> bool) (name : string) (ps : value)
    (opts : option ExecOptions) (s : State) :
  accounts s (snd (submit av name ps opts s)).
Proof.
  unfold submit, defer.
  match goal with |- context [if ?b then _ else _] => destruct b end.
  - apply accounts_quiet; [split|]; reflexivity.
  - simpl.
    match goal with |- accounts s (_next av ?s2) =>
      apply (accounts_trans s s2); [|apply accounts_next]
    end.
    exists []. rewrite app_nil_r. split; [reflexivity|].
    split; [intros r Hr; exact Hr|].
    intros r Hr. left. simpl. rewrite map_app, in_app_iff. left. exact Hr.
Qed.

Lemma accounts_exec (av : nat -> bool) (m : method_arg) (ps : value)
    (opts : option ExecOptions) (s : State) :
  accounts s (snd (exec av m ps opts s)).
Proof.
  unfold exec, exec_named.
  destruct (truthy ps && negb (isArray ps)); [apply accounts_refl|].
  destruct m; simpl; try apply accounts_refl; apply accounts_submit.
Qed.

Lemma update_at_resolver (i : nat) (d : value) (l : list Task) :
  map resolver (update_at i (set_timeout d) l) = map resolver l.
Proof.
  revert i. induction l as [|x l IH]; intros [|i]; simpl; try reflexivity.
  rewrite IH. reflexivity.
Qed.

Lemma accounts_promise_timeout (r : nat) (d : value) (s : State) :
  accounts s (snd (promise_timeout r d s)).
Proof.
  apply accounts_quiet; [apply quiet_promise_timeout|].
  unfold promise_timeout. case_if; simpl; [|reflexivity].
  apply update_at_resolver.
Qed.

Lemma accounts_removeWorker (w : nat) (s s' : State) :
  _removeWorker w s = Returns s' -> accounts s s'.
Proof.
  intros H. apply accounts_quiet; [eapply quiet_removeWorker, H|].
  rewrite (desk_tasks _ _ (desk_removeWorker w s s' H)). reflexivity.
Qed.

Lemma accounts_terminate (force tmo : value) (s : State) :
  accounts s (snd (terminate force tmo s)).
Proof.
  destruct (advances_terminate force tmo s) as [Hp _].
  assert (Hq : quiet (fold_left (fun a t => reject (resolver t) "Pool terminated" a)
                        (tasks s) s)
                     (snd (terminate force tmo s))).
  { unfold terminate. simpl.
    eapply quiet_trans; [|apply quiet_fold_emit; intros; discriminate].
    split; reflexivity. }
  assert (He : forall l a,
            executed (trace (fold_left
              (fun a t => reject (resolver t) "Pool terminated" a) l a)) =
            executed (trace a)).
  { induction l as [|x l IH]; intros a; [reflexivity|].
    simpl. rewrite IH. unfold reject. case_if; simpl; trace_simpl; reflexivity. }
  exists []. rewrite app_nil_r. split; [|split; [exact Hp|]].
  - destruct Hq as [_ Hq]. rewrite Hq. apply He.
  - intros r Hr. right. right.
    destruct Hq as [Hq _]. rewrite (pending_settled r _ _ Hq).
    apply in_map_iff in Hr. destruct Hr as (t & <- & Ht).
    apply (fold_reject_settles "Pool terminated" (tasks s) s t Ht).
Qed.

Lemma accounts_fire (l : label) (s s' : State) :
  fire l s = Some s' -> accounts s s'.
Proof.
  destruct l; intros H; cbn [fire] in H.
  - injection H as <-. apply accounts_exec.
  - injection H as <-. apply accounts_promise_timeout.
  - injection H as <-. apply accounts_next.
  - destruct res as [|[|]]; cbn [exec_settled] in H.
    + injection H as <-.
      eapply accounts_trans; [apply accounts_next|apply accounts_next].
    + destruct (_removeWorker w s) eqn:E; try discriminate.
      injection H as <-. eapply accounts_removeWorker, E.
    + injection H as <-. apply accounts_next.
  - injection H as <-. unfold removal_settled.
    assert (Hd : accounts s (removeWorker_done w s)).
    { apply accounts_quiet; [|reflexivity].
      unfold removeWorker_done. apply quiet_emit. discriminate. }
    destruct err; [exact Hd|].
    eapply accounts_trans; [exact Hd|apply accounts_next].
  - destruct (_removeWorker w s) eqn:E; try discriminate.
    injection H as <-. eapply accounts_removeWorker, E.
  - injection H as <-. apply accounts_quiet; [|reflexivity].
    unfold removeWorker_done. apply quiet_emit. discriminate.
  - assert (s' = snd (terminate force tmo s)) as -> by congruence.
    apply accounts_terminate.
  - injection H as <-.
    apply accounts_quiet; [apply quiet_terminate_settled|].
    rewrite (desk_tasks _ _ (desk_terminate_settled w o s)). reflexivity.
  - destruct (existsb _ _ && _); [|discriminate].
    injection H as <-. apply accounts_quiet; [split|]; reflexivity.
  - injection H as <-. unfold settle.
    destruct (pending r s) eqn:E; [|apply accounts_refl].
    destruct (advances_settle r s) as [Hp _].
    exists []. rewrite app_nil_r. split; [reflexivity|]. split; [exact Hp|].
    intros x Hx. left. exact Hx.
  - destruct (0 <=? dt)%Z; [|discriminate].
    injection H as <-. apply accounts_quiet; [split|]; reflexivity.
Qed.

(** X7: Whatever happens to a pool, no queued task is silently dropped: after
    any run of the event loop, the future of every task that was in the
    queue is still in the queue, or its task was handed to a worker during
    the run, or it is settled (cancelled, timed out, or rejected by
    [terminate]). *)
Theorem queued_task_is_never_dropped (ls : list label) (s s' : State) (t : Task) :
  run ls s = Some s' ->
  In t (tasks s) ->
  exists new,
    executed (trace s') = executed (trace s) ++ new /\
    (In (resolver t) (map resolver (tasks s')) \/
     In (resolver t) (map resolver new) \/
     pending (resolver t) s' = false).
Proof.
  intros Hrun Ht.
  assert (H : accounts s s').
  { clear t Ht. revert s Hrun.
    induction ls as [|l ls IH]; intros s H; simpl in H.
    - injection H as <-. apply accounts_refl.
    - destruct (fire l s) as [s1|] eqn:E; [|discriminate].
      eapply accounts_trans; [eapply accounts_fire, E|apply IH, H]. }
  destruct H as (new & He & _ & Hk).
  exists new. split; [exact He|].
  apply Hk, in_map, Ht.
Qed.

Lemma queued_task_is_never_dropped_witness :
  exists new,
    executed (trace (_next all_free one_queued)) =
      executed (trace one_queued) ++ new /\
    (In (resolver task_g) (map resolver (tasks (_next all_free one_queued))) \/
     In (resolver task_g) (map resolver new) \/
     pending (resolver task_g) (_next all_free one_queued) = false).
Proof.
  apply (queued_task_is_never_dropped [L_worker_ready all_free] one_queued
           (_next all_free one_queued) task_g).
  - vm_compute. reflexivity.
  - vm_compute. left. reflexivity.
Defined.

(** ** Round-robin *)

Lemma cursor_select (av : nat -> bool) (aff : option Z) (s : State) :
  cursor_ok s -> cursor_ok (snd (select av aff s)).
Proof.
  unfold select, pick_roundrobin, cursor_ok. intros H.
  destruct (pick_affinity aff s); [exact H|].
  destruct (roundrobin s && (0 <? List.length (workers s))) eqn:E; [|exact H].
  simpl. apply andb_true_iff in E. destruct E as [_ E]. apply Nat.ltb_lt in E.
  assert (0 <= Z.rem (lastChosen s + 1) (Z.of_nat (List.length (workers s))))%Z.
  { apply Z.rem_nonneg; lia. }
  lia.
Qed.

Lemma cursor_getWorker (av : nat -> bool) (aff : option Z) (s : State) :
  cursor_ok s -> cursor_ok (snd (_getWorker av aff s)).
Proof.
  intros H. unfold _getWorker.
  pose proof (cursor_select av aff s H) as H1.
  destruct (select av aff s) as [c s1]. simpl in H1.
  unfold cursor_ok. rewrite grow_lastChosen. exact H1.
Qed.

Lemma lastChosen_dispatch (w : nat) (t : Task) (s : State) :
  lastChosen (dispatch w t s) = lastChosen s.
Proof.
  unfold dispatch. destruct (timeout t) as [d|]; [destruct (isNumber d)|];
    reflexivity.
Qed.

Lemma cursor_next_from (av : nat -> bool) (q : list Task) (s : State) :
  cursor_ok s -> cursor_ok (next_from av q s).
Proof.
  revert s. induction q as [|t rest IH]; intros s H; [exact H|].
  simpl.
  pose proof (cursor_getWorker av (task_affinity t) s H) as H1.
  destruct (_getWorker av (task_affinity t) s) as [[w|] s1]; simpl in H1;
    [|exact H1].
  destruct (pending (resolver t) (set_tasks rest s1)).
  - unfold cursor_ok. rewrite lastChosen_dispatch. exact H1.
  - apply IH. exact H1.
Qed.

Lemma cursor_exec (av : nat -> bool) (m : method_arg) (ps : value)
    (opts : option ExecOptions) (s : State) :
  cursor_ok s -> cursor_ok (snd (exec av m ps opts s)).
Proof.
  intros H.
  assert (Hsub : forall name ps' opts',
            cursor_ok (snd (submit av name ps' opts' s))).
  { intros name ps' opts'. unfold submit, defer.
    match goal with |- context [if ?b then _ else _] => destruct b end;
      [exact H|].
    simpl. apply cursor_next_from. exact H. }
  unfold exec, exec_named.
  destruct (truthy ps && negb (isArray ps)); [exact H|].
  destruct m; simpl; [apply Hsub|apply Hsub|exact H].
Qed.

Lemma lastChosen_terminate (force tmo : value) (s : State) :
  lastChosen (snd (terminate force tmo s)) = lastChosen s.
Proof.
  assert (He : forall (f : nat -> event) l a,
            lastChosen (fold_left (fun a x => emit (f x) a) l a) = lastChosen a).
  { intros f. induction l as [|x l IH]; intros a; [reflexivity|].
    simpl. rewrite IH. reflexivity. }
  assert (Hr : forall l a,
            lastChosen (fold_left
              (fun a t => reject (resolver t) "Pool terminated" a) l a) =
            lastChosen a).
  { induction l as [|x l IH]; intros a; [reflexivity|].
    simpl. rewrite IH. unfold reject. case_if; reflexivity. }
  unfold terminate. simpl. rewrite He. simpl. apply Hr.
Qed.

Lemma cursor_fire (l : label) (s s' : State) :
  fire l s = Some s' -> cursor_ok s -> cursor_ok s'.
Proof.
  unfold cursor_ok at 2.
  destruct l; intros H Hc; cbn [fire] in H.
  - injection H as <-. apply cursor_exec, Hc.
  - injection H as <-. unfold promise_timeout. case_if; exact Hc.
  - injection H as <-. apply cursor_next_from, Hc.
  - destruct res as [|[|]]; cbn [exec_settled] in H.
    + injection H as <-. apply cursor_next_from, cursor_next_from, Hc.
    + destruct (_removeWorker w s) eqn:E; try discriminate.
      injection H as <-. unfold cursor_ok.
      rewrite (desk_lastChosen _ _ (desk_removeWorker w s _ E)). exact Hc.
    + injection H as <-. apply cursor_next_from, Hc.
  - injection H as <-. unfold removal_settled.
    destruct err; [exact Hc|]. apply cursor_next_from. exact Hc.
  - destruct (_removeWorker w s) eqn:E; try discriminate.
    injection H as <-. unfold cursor_ok.
    rewrite (desk_lastChosen _ _ (desk_removeWorker w s _ E)). exact Hc.
  - injection H as <-. exact Hc.
  - assert (s' = snd (terminate force tmo s)) as -> by congruence.
    unfold cursor_ok. rewrite lastChosen_terminate. exact Hc.
  - injection H as <-. unfold cursor_ok.
    rewrite (desk_lastChosen _ _ (desk_terminate_settled w o s)). exact Hc.
  - destruct (existsb _ _ && _); [|discriminate].
    injection H as <-. exact Hc.
  - injection H as <-. unfold settle. destruct (pending r s); exact Hc.
  - destruct (0 <=? dt)%Z; [|discriminate].
    injection H as <-. exact Hc.
Qed.

Lemma reachable_cursor (env : Environment) (args : PoolArgs) (s : State) :
  reachable env args s -> cursor_ok s.
Proof.
  intros (s0 & ls & Hnew & Hrun).
  apply (run_invariant cursor_ok cursor_fire ls s0 s Hrun).
  unfold cursor_ok.
  rewrite (desk_lastChosen (fresh_pool None no_options (Int 1) None) s0).
  - simpl. lia.
  - rewrite (tasks_new_Pool env args s0 Hnew). reflexivity.
Qed.

(** One call under round-robin in a full pool: the cursor moves on by one,
    modulo the number of workers, and the worker in that slot is returned,
    available or not. *)
Lemma getWorker_roundrobin (av : nat -> bool) (s : State) :
  roundrobin s = true -> workers s <> [] -> at_capacity s = true ->
  cursor_ok s ->
  let i := ((lastChosen s + 1) mod Z.of_nat (List.length (workers s)))%Z in
  _getWorker av None s = (nth_error (workers s) (Z.to_nat i), set_lastChosen i s).
Proof.
  intros Hrr Hne Hcap Hc i.
  assert (Hlen : 0 < List.length (workers s)).
  { destruct (workers s); [congruence|simpl; lia]. }
  assert (Hi : (0 <= i < Z.of_nat (List.length (workers s)))%Z).
  { apply Z.mod_pos_bound. lia. }
  unfold _getWorker, select, pick_affinity, pick_roundrobin.
  rewrite Hrr. apply Nat.ltb_lt in Hlen. rewrite Hlen. simpl andb. cbv iota.
  unfold cursor_ok in Hc.
  rewrite Z.rem_mod_nonneg by lia. fold i.
  unfold array_get.
  destruct (i <? 0)%Z eqn:E; [apply Z.ltb_lt in E; lia|].
  destruct (nth_error (workers s) (Z.to_nat i)) as [w|] eqn:En.
  - simpl. apply grow_at_capacity. exact Hcap.
  - apply nth_error_None in En. lia.
Qed.

Lemma getWorker_calls_roundrobin (answers : list (nat -> bool)) (s : State) :
  cursor_ok s ->
  roundrobin s = true -> workers s <> [] -> at_capacity s = true ->
  fst (getWorker_calls answers s) =
    map (fun k => nth_error (workers s)
                    (Z.to_nat ((lastChosen s + 1 + Z.of_nat k)
                               mod Z.of_nat (List.length (workers s)))))
        (seq 0 (List.length answers)).
Proof.
  revert s.
  induction answers as [|av rest IH]; intros s Hc Hrr Hne Hcap; [reflexivity|].
  cbn [getWorker_calls List.length seq map].
  rewrite (getWorker_roundrobin av s Hrr Hne Hcap Hc).
  set (n := Z.of_nat (List.length (workers s))).
  set (i := ((lastChosen s + 1) mod n)%Z).
  assert (Hn : (0 < n)%Z).
  { unfold n. destruct (workers s); [congruence|simpl; lia]. }
  assert (Hi : (0 <= i < n)%Z) by (apply Z.mod_pos_bound; exact Hn).
  specialize (IH (set_lastChosen i s)).
  destruct (getWorker_calls rest (set_lastChosen i s)) as [cs s2].
  simpl fst in *. f_equal.
  - rewrite Z.add_0_r. reflexivity.
  - rewrite IH; [|unfold cursor_ok; simpl; lia|exact Hrr|exact Hne|exact Hcap].
    rewrite <- seq_shift, map_map. apply map_ext. intros k.
    cbn [lastChosen workers set_lastChosen]. fold n.
    f_equal. f_equal.
    unfold i. rewrite Nat2Z.inj_succ.
    replace (lastChosen s + 1 + Z.succ (Z.of_nat k))%Z
      with ((lastChosen s + 1) + (1 + Z.of_nat k))%Z by lia.
    rewrite <- Z.add_assoc.
    rewrite Zplus_mod_idemp_l. reflexivity.
Qed.

(** X8: With round-robin on, successive calls of [_getWorker] in a pool that is
    full walk through the worker list in order and wrap around: call number
    [k] returns the worker in slot [(lastChosen + 1 + k) mod |workers|],
    whatever the workers answer to [available()]. *)
Theorem roundrobin_walks_the_worker_list (env : Environment) (args : PoolArgs)
    (answers : list (nat -> bool)) (s : State) :
  reachable env args s ->
  roundrobin s = true -> workers s <> [] -> at_capacity s = true ->
  fst (getWorker_calls answers s) =
    map (fun k => nth_error (workers s)
                    (Z.to_nat ((lastChosen s + 1 + Z.of_nat k)
                               mod Z.of_nat (List.length (workers s)))))
        (seq 0 (List.length answers)).
Proof.
  intros Hreach. apply getWorker_calls_roundrobin.
  eapply reachable_cursor, Hreach.
Qed.

Lemma roundrobin_walks_the_worker_list_witness :
  fst (getWorker_calls [all_busy; all_free; all_busy; all_free] roundrobin_pool) =
    map (fun k => nth_error (workers roundrobin_pool)
                    (Z.to_nat ((lastChosen roundrobin_pool + 1 + Z.of_nat k)
                               mod Z.of_nat (List.length (workers roundrobin_pool)))))
        (seq 0 (List.length [all_busy; all_free; all_busy; all_free])).
Proof.
  apply (roundrobin_walks_the_worker_list node_env
           (OptionsOnly (Some roundrobin_options))).
  - exists roundrobin_pool, []. split; vm_compute; reflexivity.
  - vm_compute. reflexivity.
  - vm_compute. discriminate.
  - vm_compute. reflexivity.
Defined.

Lemma rotate_nth {A : Type} (l : list A) (c k : nat) :
  c < List.length l -> k < List.length l ->
  nth_error (skipn c l ++ firstn c l) k =
    nth_error l ((c + k) mod List.length l).
Proof.
  intros Hc Hk.
  destruct (Nat.lt_ge_cases k (List.length l - c)) as [H|H].
  - rewrite nth_error_app1 by (rewrite length_skipn; exact H).
    rewrite nth_error_skipn, Nat.mod_small by lia. reflexivity.
  - rewrite nth_error_app2 by (rewrite length_skipn; exact H).
    rewrite length_skipn, nth_error_firstn.
    assert (Hlt : k - (List.length l - c) < c) by lia.
    apply Nat.ltb_lt in Hlt. rewrite Hlt.
    f_equal. apply (Nat.mod_unique _ _ 1); lia.
Qed.

(** X9: A full cycle of round-robin is fair: in a full pool, as many successive
    calls of [_getWorker] as there are workers return every worker exactly
    once, in the order of the worker list rotated to the slot after the
    cursor. *)
Theorem roundrobin_cycle_serves_every_worker_once (env : Environment)
    (args : PoolArgs) (answers : list (nat -> bool)) (s : State) :
  reachable env args s ->
  roundrobin s = true -> workers s <> [] -> at_capacity s = true ->
  List.length answers = List.length (workers s) ->
  let c := Z.to_nat ((lastChosen s + 1) mod Z.of_nat (List.length (workers s))) in
  fst (getWorker_calls answers s) =
    map Some (skipn c (workers s) ++ firstn c (workers s)).
Proof.
  intros Hreach Hrr Hne Hcap Hlen c.
  pose proof (reachable_cursor env args s Hreach) as Hc.
  rewrite (getWorker_calls_roundrobin answers s Hc Hrr Hne Hcap), Hlen.
  set (n := List.length (workers s)) in *.
  assert (Hn : 0 < n).
  { unfold n. destruct (workers s); [congruence|simpl; lia]. }
  assert (Hcn : c < n).
  { unfold c.
    pose proof (Z.mod_pos_bound (lastChosen s + 1) (Z.of_nat n)). lia. }
  assert (Hrot : List.length (skipn c (workers s) ++ firstn c (workers s)) = n).
  { rewrite length_app, length_skipn, length_firstn. fold n. lia. }
  apply nth_error_ext. intros k.
  rewrite !nth_error_map, nth_error_seq.
  destruct (Nat.ltb_spec k n) as [Hk|Hk].
  - simpl. rewrite (rotate_nth (workers s) c k Hcn Hk). fold n.
    assert (Hidx : Z.to_nat ((lastChosen s + 1 + Z.of_nat k) mod Z.of_nat n) =
                   (c + k) mod n).
    { unfold cursor_ok in Hc.
      rewrite <- Zplus_mod_idemp_l.
      replace ((lastChosen s + 1) mod Z.of_nat n)%Z with (Z.of_nat c)
        by (unfold c; rewrite Z2Nat.id; [reflexivity|];
            apply Z.mod_pos_bound; lia).
      rewrite <- Nat2Z.inj_add, <- Nat2Z.inj_mod, Nat2Z.id. reflexivity. }
    rewrite Hidx.
    destruct (nth_error (workers s) ((c + k) mod n)) as [w|] eqn:E;
      [reflexivity|].
    apply nth_error_None in E. fold n in E.
    pose proof (Nat.mod_upper_bound (c + k) n). lia.
  - simpl.
    assert (E : nth_error (skipn c (workers s) ++ firstn c (workers s)) k = None)
      by (apply nth_error_None; lia).
    rewrite E. reflexivity.
Qed.

Lemma roundrobin_cycle_serves_every_worker_once_witness :
  let c := Z.to_nat ((lastChosen roundrobin_pool + 1)
                     mod Z.of_nat (List.length (workers roundrobin_pool))) in
  fst (getWorker_calls [all_busy; all_free; all_busy] roundrobin_pool) =
    map Some (skipn c (workers roundrobin_pool) ++ firstn c (workers roundrobin_pool)).
Proof.
  apply (roundrobin_cycle_serves_every_worker_once node_env
           (OptionsOnly (Some roundrobin_options))).
  - exists roundrobin_pool, []. split; vm_compute; reflexivity.
  - vm_compute. reflexivity.
  - vm_compute. discriminate.
  - vm_compute. reflexivity.
  - vm_compute. reflexivity.
Defined.

(** ** The minimum number of workers *)

Lemma workers_grow (c : option nat) (s : State) :
  List.length (workers s) <= List.length (workers (snd (grow c s))).
Proof.
  unfold grow. repeat case_if; simpl; rewrite ?length_app; simpl; lia.
Qed.

Lemma workers_getWorker (av : nat -> bool) (aff : option Z) (s : State) :
  List.length (workers s) <= List.length (workers (snd (_getWorker av aff s))).
Proof.
  unfold _getWorker.
  pose proof (steady_select av aff s) as Hs.
  destruct (select av aff s) as [c s1]. simpl in Hs.
  rewrite <- (steady_workers s s1 Hs). apply workers_grow.
Qed.

Lemma workers_next_from (av : nat -> bool) (q : list Task) (s : State) :
  List.length (workers s) <= List.length (workers (next_from av q s)).
Proof.
  revert s. induction q as [|t rest IH]; intros s; [apply Nat.le_refl|].
  simpl.
  pose proof (workers_getWorker av (task_affinity t) s) as H1.
  destruct (_getWorker av (task_affinity t) s) as [[w|] s1]; simpl in H1;
    [|exact H1].
  destruct (pending (resolver t) (set_tasks rest s1)).
  - rewrite (steady_workers _ _ (steady_dispatch w t (set_tasks rest s1))).
    exact H1.
  - etransitivity; [exact H1|]. apply (IH (set_tasks rest s1)).
Qed.

Lemma workers_exec (av : nat -> bool) (m : method_arg) (ps : value)
    (opts : option ExecOptions) (s : State) :
  List.length (workers s) <= List.length (workers (snd (exec av m ps opts s))).
Proof.
  assert (Hsub : forall name ps' opts',
            List.length (workers s) <=
            List.length (workers (snd (submit av name ps' opts' s)))).
  { intros name ps' opts'. unfold submit, defer.
    match goal with |- context [if ?b then _ else _] => destruct b end;
      [apply Nat.le_refl|].
    simpl.
    match goal with |- _ <= List.length (workers (_next av ?s2)) =>
      apply (workers_next_from av (tasks s2) s2)
    end. }
  unfold exec, exec_named.
  destruct (truthy ps && negb (isArray ps)); [apply Nat.le_refl|].
  destruct m; simpl; [apply Hsub|apply Hsub|apply Nat.le_refl].
Qed.

Lemma config_minWorkers (s s' : State) :
  config s' = config s -> minWorkers s' = minWorkers s.
Proof. unfold config. intros H. injection H as _ _ _ _ _ _ H. exact H. Qed.

Lemma min_met_mono (s s' : State) :
  minWorkers s' = minWorkers s ->
  List.length (workers s) <= List.length (workers s') ->
  min_met s -> min_met s'.
Proof.
  unfold min_met. intros Hm Hl H z Hz. rewrite Hm in Hz.
  specialize (H z Hz). lia.
Qed.

Lemma min_met_ensureMinWorkers (s s' : State) :
  _ensureMinWorkers s = Returns s' -> min_met s'.
Proof.
  intros H z Hz.
  pose proof (fixed_ensureMinWorkers s s' H) as Hf.
  rewrite (config_minWorkers s s' (fixed_config s s' Hf)) in Hz.
  unfold _ensureMinWorkers in H. rewrite Hz in H. simpl in H.
  destruct (z =? 0)%Z eqn:E; simpl in H; injection H as <-.
  - apply Z.eqb_eq in E. lia.
  - rewrite spawn_length. lia.
Qed.

Lemma min_met_removeWorker (w : nat) (s s' : State) :
  _removeWorker w s = Returns s' -> min_met s'.
Proof.
  unfold _removeWorker, bind. intros H.
  destruct (_ensureMinWorkers _) as [s3| |] eqn:E; try discriminate.
  injection H as <-. apply min_met_ensureMinWorkers in E.
  intros z Hz. apply (E z Hz).
Qed.

Lemma min_met_fire (l : label) (s s' : State) :
  fire l s = Some s' -> disposes l = false -> min_met s -> min_met s'.
Proof.
  intros H Hl Hm.
  pose proof (config_minWorkers s s' (fire_config l s s' H)) as Hc.
  destruct l; cbn [fire] in H.
  - injection H as <-. apply (min_met_mono s); [exact Hc| |exact Hm].
    apply workers_exec.
  - injection H as <-. apply (min_met_mono s); [exact Hc| |exact Hm].
    rewrite (steady_workers _ _ (steady_promise_timeout r d s)).
    apply Nat.le_refl.
  - injection H as <-. apply (min_met_mono s); [exact Hc| |exact Hm].
    apply workers_next_from.
  - destruct res as [|[|]]; cbn [exec_settled] in H.
    + injection H as <-. apply (min_met_mono s); [exact Hc| |exact Hm].
      etransitivity; [apply (workers_next_from av1 (tasks s) s)|].
      apply workers_next_from.
    + destruct (_removeWorker w s) eqn:E; try discriminate.
      injection H as <-. eapply min_met_removeWorker, E.
    + injection H as <-. apply (min_met_mono s); [exact Hc| |exact Hm].
      apply workers_next_from.
  - injection H as <-. apply (min_met_mono s); [exact Hc| |exact Hm].
    unfold removal_settled, removeWorker_done.
    destruct err; [apply Nat.le_refl|].
    apply (workers_next_from av (tasks (emit (OnTerminateWorker w) s))
             (emit (OnTerminateWorker w) s)).
  - destruct (_removeWorker w s) eqn:E; try discriminate.
    injection H as <-. eapply min_met_removeWorker, E.
  - injection H as <-. apply (min_met_mono s); [exact Hc| |exact Hm].
    apply Nat.le_refl.
  - assert (s' = snd (terminate force tmo s)) as -> by congruence.
    apply (min_met_mono s); [exact Hc| |exact Hm].
    rewrite (steady_workers _ _ (steady_terminate force tmo s)).
    apply Nat.le_refl.
  - injection H as <-. apply (min_met_mono s); [exact Hc| |exact Hm].
    destruct o as [[h|]|]; [discriminate| |]; apply Nat.le_refl.
  - destruct (existsb _ _ && _); [|discriminate].
    injection H as <-. apply (min_met_mono s); [exact Hc| |exact Hm].
    apply Nat.le_refl.
  - injection H as <-. apply (min_met_mono s); [exact Hc| |exact Hm].
    unfold settle. destruct (pending r s); apply Nat.le_refl.
  - destruct (0 <=? dt)%Z; [|discriminate].
    injection H as <-. apply (min_met_mono s); [exact Hc| |exact Hm].
    apply Nat.le_refl.
Qed.

Lemma min_met_new_Pool (env : Environment) (args : PoolArgs) (s0 : State) :
  new_Pool env args = Returns s0 -> min_met s0.
Proof.
  intros H.
  destruct (new_Pool_returns env args s0 H)
    as (maxW & minW & s1 & _ & _ & Hs & He).
  assert (H1 : min_met s1).
  { destruct Hs as [[_ ->]|Hs]; [intros z Hz; discriminate|].
    eapply min_met_ensureMinWorkers, Hs. }
  destruct He as [->| ->]; exact H1.
Qed.

(** X10: From construction on, and as long as no termination requested by
    [terminate] has taken a worker off the list, the pool holds at least
    [minWorkers] workers: workers that exit or crash are replaced before
    [_removeWorker] returns. *)
Theorem pool_keeps_minWorkers (env : Environment) (args : PoolArgs)
    (ls : list label) (s0 s : State) (z : Z) :
  new_Pool env args = Returns s0 ->
  run ls s0 = Some s ->
  forallb (fun l => negb (disposes l)) ls = true ->
  minWorkers s = Some (Int z) ->
  (z <= Z.of_nat (List.length (workers s)))%Z.
Proof.
  intros Hnew Hrun Hls.
  apply min_met_new_Pool in Hnew.
  revert s0 Hrun Hnew.
  induction ls as [|l ls IH]; intros s0 Hrun Hm; simpl in Hrun.
  - injection Hrun as <-. apply Hm.
  - simpl in Hls. apply andb_true_iff in Hls. destruct Hls as [Hl Hls].
    apply negb_true_iff in Hl.
    destruct (fire l s0) as [s1|] eqn:E; [|discriminate].
    apply (IH Hls s1 Hrun). eapply min_met_fire; eassumption.
Qed.

Lemma pool_keeps_minWorkers_witness :
  (2 <= Z.of_nat (List.length (workers after_crash)))%Z.
Proof.
  apply (pool_keeps_minWorkers node_env (OptionsOnly (Some two_workers_options))
           [L_worker_exit 0; L_worker_exit_done 0] two_workers after_crash 2);
    vm_compute; reflexivity.
Defined.

(** ** Replacing a worker *)

Lemma spawn_spec (n : nat) (s : State) :
  workers (spawn n s) = workers s ++ seq (nextId s) n /\
  nextId (spawn n s) = nextId s + n /\
  events (spawn n s) = events s ++ List.concat (map creation (seq (nextId s) n)).
Proof.
  revert s. induction n as [|n IH]; intros s.
  - simpl. rewrite !app_nil_r. repeat split; lia.
  - cbn [spawn]. unfold _createWorkerHandler.
    match goal with |- context [spawn n ?s1] =>
      destruct (IH s1) as (H1 & H2 & H3); rewrite H1, H2, H3
    end.
    cbn [seq map List.concat]. unfold push_worker, creation.
    cbn [workers nextId set_workers emit set_trace set_nextId].
    rewrite <- !app_assoc. split; [reflexivity|]. split; [lia|].
    unfold events, emit. simpl. rewrite !map_app. simpl.
    rewrite <- !app_assoc. reflexivity.
Qed.

Lemma reachable_finite_min (env : Environment) (args : PoolArgs) (s : State) :
  reachable env args s -> minWorkers s <> Some Infinity.
Proof.
  intros (s0 & ls & Hnew & Hrun).
  rewrite (config_minWorkers s0 s (run_config ls s0 s Hrun)).
  destruct (new_Pool_returns env args s0 Hnew)
    as (maxW & minW & s1 & _ & _ & Hs & He).
  assert (E : minWorkers s0 = minWorkers s1)
    by (destruct He as [->| ->]; reflexivity).
  rewrite E. clear E He.
  destruct Hs as [[_ ->]|Hs]; [discriminate|].
  pose proof (fixed_ensureMinWorkers _ _ Hs) as Hf.
  rewrite (config_minWorkers _ _ (fixed_config _ _ Hf)).
  unfold _ensureMinWorkers in Hs. simpl in *.
  destruct minW as [[z|]|]; discriminate.
Qed.

Lemma ensureMinWorkers_spawns (s : State) :
  minWorkers s <> Some Infinity ->
  _ensureMinWorkers s =
    Returns (spawn (replacements s (List.length (workers s))) s).
Proof.
  unfold _ensureMinWorkers, replacements. intros H.
  destruct (minWorkers s) as [[z|]|]; [|congruence|reflexivity].
  unfold num_truthy. destruct (z =? 0)%Z eqn:E; [|reflexivity].
  apply Z.eqb_eq in E. subst z. cbn [negb].
  assert (Z.to_nat (0 - Z.of_nat (List.length (workers s))) = 0) as -> by lia.
  reflexivity.
Qed.

(** X11: [_removeWorker] in a pool that was built and run: it returns; the
    worker is gone from the list and the others keep their order; as many
    fresh workers as [minWorkers] asks for are appended, so the minimum
    holds again; and the calls are, in this order, [releasePort], the
    creation of each replacement, and [worker.terminate(false, ...)]. *)
Theorem removeWorker_replaces_the_worker (env : Environment) (args : PoolArgs)
    (w : nat) (s : State) :
  reachable env args s ->
  In w (workers s) ->
  exists l1 l2 s',
    workers s = l1 ++ w :: l2 /\
    _removeWorker w s = Returns s' /\
    let fresh := seq (nextId s) (replacements s (List.length (l1 ++ l2))) in
    workers s' = l1 ++ l2 ++ fresh /\
    ~ In w (workers s') /\
    (forall z, minWorkers s = Some (Int z) ->
       (z <= Z.of_nat (List.length (workers s')))%Z) /\
    events s' =
      events s ++ [ReleasePort w] ++ List.concat (map creation fresh)
        ++ [WorkerTerminate w false].
Proof.
  intros Hreach Hin.
  destruct (reachable_distinct env args s Hreach) as [Hnd Hlt].
  pose proof (reachable_finite_min env args s Hreach) as Hfin.
  destruct (removeWorkerFromList_spec w (emit (ReleasePort w) s) Hin)
    as (l1 & l2 & Hw & Hn1 & Hrm).
  change (workers (emit (ReleasePort w) s)) with (workers s) in Hw.
  set (s2 := _removeWorkerFromList w (emit (ReleasePort w) s)) in *.
  assert (Hmin2 : minWorkers s2 = minWorkers s).
  { unfold s2, _removeWorkerFromList. case_if; reflexivity. }
  assert (Hid2 : nextId s2 = nextId s).
  { unfold s2, _removeWorkerFromList. case_if; reflexivity. }
  assert (Hev2 : events s2 = events s ++ [ReleasePort w]).
  { unfold s2, _removeWorkerFromList. case_if; apply events_emit. }
  assert (Hrep : replacements s2 (List.length (workers s2)) =
                 replacements s (List.length (l1 ++ l2))).
  { unfold replacements. rewrite Hmin2, Hrm. reflexivity. }
  assert (He : _ensureMinWorkers s2 =
               Returns (spawn (replacements s (List.length (l1 ++ l2))) s2)).
  { rewrite <- Hrep. apply ensureMinWorkers_spawns. rewrite Hmin2. exact Hfin. }
  destruct (spawn_spec (replacements s (List.length (l1 ++ l2))) s2)
    as (Hsw & _ & Hse).
  rewrite Hrm, Hid2 in Hsw. rewrite Hid2, Hev2 in Hse.
  exists l1, l2. eexists. split; [exact Hw|]. split.
  { unfold _removeWorker, bind. fold s2. rewrite He. reflexivity. }
  cbv zeta.
  change (workers (emit (WorkerTerminate w false) ?x)) with (workers x).
  rewrite events_emit, Hsw, Hse, <- !app_assoc.
  split; [reflexivity|]. split; [|split; [|reflexivity]].
  - rewrite !in_app_iff, in_seq. intros [H|[H|H]].
    + exact (Hn1 H).
    + rewrite Hw in Hnd. apply NoDup_remove_2 in Hnd.
      apply Hnd, in_or_app. right. exact H.
    + rewrite Forall_forall in Hlt. specialize (Hlt w Hin). lia.
  - intros z Hz. rewrite !length_app, length_seq.
    unfold replacements. rewrite Hz. lia.
Qed.

Lemma removeWorker_replaces_the_worker_witness :
  exists l1 l2 s',
    workers two_workers = l1 ++ 0 :: l2 /\
    _removeWorker 0 two_workers = Returns s' /\
    let fresh := seq (nextId two_workers)
                   (replacements two_workers (List.length (l1 ++ l2))) in
    workers s' = l1 ++ l2 ++ fresh /\
    ~ In 0 (workers s') /\
    (forall z, minWorkers two_workers = Some (Int z) ->
       (z <= Z.of_nat (List.length (workers s')))%Z) /\
    events s' =
      events two_workers ++ [ReleasePort 0] ++ List.concat (map creation fresh)
        ++ [WorkerTerminate 0 false].
Proof.
  apply (removeWorker_replaces_the_worker node_env
           (OptionsOnly (Some two_workers_options))).
  - exists two_workers, []. split; vm_compute; reflexivity.
  - vm_compute. left. reflexivity.
Defined.

(** ** What the constructor returns *)

Lemma ensureMinWorkers_finite (s s' : State) :
  _ensureMinWorkers s = Returns s' -> minWorkers s <> Some Infinity.
Proof.
  unfold _ensureMinWorkers. intros H E. rewrite E in H. discriminate.
Qed.

Lemma new_Pool_spawned (env : Environment) (args : PoolArgs) (s0 : State) :
  new_Pool env args = Returns s0 ->
  exists maxW minW,
    num_leb (Int 1) maxW = true /\
    let f := fresh_pool (given_script args) (given_options args) maxW minW in
    check_threads env (spawn (replacements f 0) f) = Returns s0.
Proof.
  intros H.
  destruct (new_Pool_built env args s0 H)
    as (maxW & minW & s1 & Hpos & _ & Hs & He).
  exists maxW, minW. split; [exact Hpos|]. cbv zeta.
  destruct Hs as [[-> ->]|Hs]; [exact He|].
  pose proof (ensureMinWorkers_finite _ _ Hs) as Hfin.
  rewrite (ensureMinWorkers_spawns _ Hfin) in Hs.
  injection Hs as <-. exact He.
Qed.

(** What the check of line 89 adds to the pool of lines 42-84. *)
Lemma check_threads_event (env : Environment) (s1 s0 : State) :
  check_threads env s1 = Returns s0 ->
  trace s0 = trace s1 ++
    (if String.eqb (workerType s1) "thread"
     then [(now s1, EnsureWorkerThreads)] else []) /\
  fixed s0 = fixed s1 /\ desk s0 = desk s1 /\ gate_view s0 = gate_view s1 /\
  workers s0 = workers s1 /\ nextId s0 = nextId s1 /\ settled s0 = settled s1 /\
  workerType s0 = workerType s1.
Proof.
  unfold check_threads, bind.
  destruct (String.eqb (workerType s1) "thread").
  - destruct (ensureWorkerThreads env); try discriminate.
    intros H. injection H as <-.
    repeat split; try reflexivity. apply gate_emit. discriminate.
  - intros H. injection H as <-. rewrite app_nil_r. repeat split; reflexivity.
Qed.

(** X12: A pool that the constructor returns holds exactly [minWorkers] workers,
    numbered in the order of their creation, and none when [minWorkers] is
    not given or is [0]; the only calls made are those that created them
    and, after them, for the worker type ["thread"], the call
    [WorkerHandler.ensureWorkerThreads()] of line 89; the queue is empty,
    nothing is settled, the gate of gradual scaling is open, the
    round-robin cursor is at [-1], and [maxWorkers] is at least [1] and at
    least the number of workers. *)
Theorem new_Pool_starts_with_minWorkers (env : Environment) (args : PoolArgs)
    (s0 : State) :
  new_Pool env args = Returns s0 ->
  let n := replacements s0 0 in
  workers s0 = seq 0 n /\
  nextId s0 = n /\
  events s0 = List.concat (map creation (seq 0 n)) ++
              (if String.eqb (workerType s0) "thread"
               then [EnsureWorkerThreads] else []) /\
  tasks s0 = [] /\ settled s0 = [] /\ timers s0 = [] /\
  canCreateWorker s0 = true /\ lastChosen s0 = (-1)%Z /\
  num_leb (Int 1) (maxWorkers s0) = true /\
  num_leb (len (workers s0)) (maxWorkers s0) = true.
Proof.
  intros H. cbv zeta.
  destruct (bounds_new_Pool env args s0 H) as [Hb _].
  destruct (new_Pool_spawned env args s0 H) as (maxW & minW & Hpos & Hs).
  cbv zeta in Hs.
  set (f := fresh_pool (given_script args) (given_options args) maxW minW) in *.
  set (s1 := spawn (replacements f 0) f) in *.
  destruct (check_threads_event env s1 s0 Hs)
    as (Ht & Hf0 & Hd0 & Hg0 & Hw0 & Hn0 & Hq0 & Hwt).
  pose proof (fixed_spawn (replacements f 0) f) as Hf. fold s1 in Hf.
  assert (Hn : replacements s0 0 = replacements f 0).
  { unfold replacements.
    rewrite (config_minWorkers s1 s0 (fixed_config s1 s0 Hf0)).
    rewrite (config_minWorkers f s1 (fixed_config f s1 Hf)). reflexivity. }
  rewrite Hn.
  destruct (spawn_spec (replacements f 0) f) as (Hw & Hid & He).
  pose proof (desk_spawn (replacements f 0) f) as Hd.
  destruct (quiet_spawn (replacements f 0) f) as [Hq _].
  pose proof (gate_spawn (replacements f 0) f) as Hg.
  fold s1 in Hw, Hid, He, Hd, Hq, Hg.
  rewrite <- Hw0 in Hw. rewrite <- Hn0 in Hid. rewrite <- Hq0 in Hq.
  rewrite <- Hd0 in Hd. rewrite <- Hg0 in Hg.
  split; [exact Hw|]. split; [exact Hid|]. split.
  { unfold events. rewrite Ht, map_app. fold (events s1). rewrite He, Hwt.
    simpl. destruct (String.eqb (workerType s1) "thread"); reflexivity. }
  split; [exact (desk_tasks f s0 Hd)|]. split; [exact Hq|].
  unfold gate_view in Hg. injection Hg as Hg1 Hg2 _.
  split; [exact Hg2|]. split; [exact Hg1|].
  split; [exact (desk_lastChosen f s0 Hd)|].
  split; [|exact Hb].
  rewrite Hf in Hf0.
  unfold fixed in Hf0. injection Hf0 as _ _ _ _ _ Hm _ _. rewrite Hm. exact Hpos.
Qed.

Lemma new_Pool_starts_with_minWorkers_witness :
  (workers two_workers = [0; 1] /\
   events two_workers = creation 0 ++ creation 1) /\
  (workers thread_pool = [0] /\
   events thread_pool = creation 0 ++ [EnsureWorkerThreads]).
Proof.
  split.
  - destruct (new_Pool_starts_with_minWorkers node_env
                (OptionsOnly (Some two_workers_options)) two_workers)
      as (Hw & _ & He & _); [vm_compute; reflexivity|].
    split; [exact Hw|exact He].
  - destruct (new_Pool_starts_with_minWorkers node_env
                (OptionsOnly (Some thread_options)) thread_pool)
      as (Hw & _ & He & _); [vm_compute; reflexivity|].
    split; [exact Hw|exact He].
Defined.

(** *** The loop of [_ensureMinWorkers] *)

Lemma ensure_loop_finite (fuel : nat) (z : Z) (s : State) :
  ensure_loop fuel (Int z) s =
    let k := Z.to_nat (z - Z.of_nat (List.length (workers s))) in
    if k <=? fuel then Some (spawn k s) else None.
Proof.
  cbv zeta. revert s. induction fuel as [|fuel IH]; intros s.
  - cbn [ensure_loop]. unfold num_ltb, len.
    destruct (Z.of_nat (List.length (workers s)) <? z)%Z eqn:E.
    + apply Z.ltb_lt in E.
      destruct (Z.to_nat (z - Z.of_nat (List.length (workers s)))) eqn:Ek;
        [lia|reflexivity].
    + apply Z.ltb_ge in E.
      assert (Z.to_nat (z - Z.of_nat (List.length (workers s))) = 0) as ->
        by lia.
      reflexivity.
  - cbn [ensure_loop]. unfold num_ltb, len.
    destruct (Z.of_nat (List.length (workers s)) <? z)%Z eqn:E.
    + apply Z.ltb_lt in E.
      destruct (Z.to_nat (z - Z.of_nat (List.length (workers s)))) as [|k]
        eqn:Ek; [lia|].
      cbn [spawn]. unfold _createWorkerHandler.
      match goal with |- ensure_loop fuel (Int z) ?s1 = _ =>
        rewrite (IH s1);
        assert (Hk : Z.to_nat (z - Z.of_nat (List.length (workers s1))) = k)
      end.
      { unfold push_worker. cbn [workers set_workers emit set_trace set_nextId snd].
        rewrite length_app. simpl. lia. }
      rewrite Hk. reflexivity.
    + apply Z.ltb_ge in E.
      assert (Z.to_nat (z - Z.of_nat (List.length (workers s))) = 0) as ->
        by lia.
      reflexivity.
Qed.

Lemma ensure_loop_infinite (fuel : nat) (s : State) :
  ensure_loop fuel Infinity s = None.
Proof.
  revert s. induction fuel as [|fuel IH]; intros s; [reflexivity|].
  cbn [ensure_loop]. unfold num_ltb, len, _createWorkerHandler. apply IH.
Qed.

(** The closed form of [_ensureMinWorkers] is the loop of lines 488-490:
    it returns what the loop returns when the loop ends, and it never
    returns when the loop ends for no number of passes. *)
Lemma ensureMinWorkers_is_the_loop (s : State) :
  match minWorkers s with
  | None => _ensureMinWorkers s = Returns s
  | Some m =>
      if num_truthy m then
        (forall s', _ensureMinWorkers s = Returns s' <->
                    exists fuel, ensure_loop fuel m s = Some s') /\
        (_ensureMinWorkers s = Diverges <->
         forall fuel, ensure_loop fuel m s = None) /\
        (forall e, _ensureMinWorkers s <> Throws e)
      else _ensureMinWorkers s = Returns s
  end.
Proof.
  unfold _ensureMinWorkers.
  destruct (minWorkers s) as [m|]; [|reflexivity].
  destruct (num_truthy m) eqn:Et; [|reflexivity].
  destruct m as [z|].
  - set (k := Z.to_nat (z - Z.of_nat (List.length (workers s)))).
    assert (Hk : ensure_loop k (Int z) s = Some (spawn k s)).
    { rewrite ensure_loop_finite. cbv zeta. fold k.
      rewrite Nat.leb_refl. reflexivity. }
    split; [|split].
    + intros s'. split.
      * intros H. injection H as <-. exists k. exact Hk.
      * intros [fuel H]. rewrite ensure_loop_finite in H. cbv zeta in H.
        fold k in H. destruct (k <=? fuel); [|discriminate].
        injection H as <-. reflexivity.
    + split; [discriminate|]. intros H. rewrite (H k) in Hk. discriminate.
    + discriminate.
  - split; [|split].
    + intros s'. split; [discriminate|].
      intros [fuel H]. rewrite ensure_loop_infinite in H. discriminate.
    + split; [intros _ fuel; apply ensure_loop_infinite|reflexivity].
    + discriminate.
Qed.

(** Options with a key were given as an object. *)
Lemma given_options_object (args : PoolArgs) (v : value) :
  opt_minWorkers (given_options args) = Some v ->
  primitive_options args = None.
Proof.
  destruct args as [x [o|]|[o|]|x w|w]; simpl; try discriminate;
    intros _; reflexivity.
Qed.

(** X13: The constructor returns no pool when it is asked for infinitely
    many workers: with [minWorkers: Infinity], which [validateMinWorkers]
    lets through, or with [minWorkers: "max"] and [maxWorkers: Infinity],
    the test [i < this.minWorkers] of line 488 holds at every pass, so the
    loop of [_ensureMinWorkers] creates worker after worker and is still
    running after any number of passes.  (Creating a worker always returns
    here; a loop this long ends only when a creation throws.) *)
Theorem new_Pool_with_infinite_minWorkers_returns_no_pool (env : Environment)
    (args : PoolArgs) (maxW : num) :
  checked_maxWorkers env (given_options args) = Returns maxW ->
  opt_minWorkers (given_options args) = Some (VNumber Infinity) \/
  (maxW = Infinity /\
   exists v, opt_minWorkers (given_options args) = Some v /\ is_max v = true) ->
  let f := fresh_pool (given_script args) (given_options args) Infinity
             (Some Infinity) in
  (forall s0, new_Pool env args <> Returns s0) /\
  (forall fuel, ensure_loop fuel Infinity f = None) /\
  (forall n, workers (spawn n f) = seq 0 n /\
             num_ltb (len (workers (spawn n f))) Infinity = true /\
             events (spawn n f) = List.concat (map creation (seq 0 n))).
Proof.
  intros Hmax Hmin f. split; [|split].
  - intros s0 H.
    assert (Hp : primitive_options args = None).
    { destruct Hmin as [Hmin|(_ & v & Hmin & _)];
        eapply given_options_object, Hmin. }
    unfold new_Pool in H. rewrite Hp in H. unfold construct in H.
    unfold checked_maxWorkers in Hmax. rewrite Hmax in H.
    unfold bind at 1 in H.
    destruct Hmin as [Hmin|(-> & v & Hmin & Hv)]; rewrite Hmin in H.
    + simpl in H. discriminate.
    + rewrite Hv in H. simpl in H. discriminate.
  - intros fuel. apply ensure_loop_infinite.
  - intros n. destruct (spawn_spec n f) as (Hw & _ & He).
    split; [exact Hw|]. split; [reflexivity|exact He].
Qed.

Lemma new_Pool_with_infinite_minWorkers_returns_no_pool_witness :
  new_Pool node_env (OptionsOnly (Some endless_min_options))
    <> Returns two_workers /\
  ensure_loop 1000 Infinity
    (fresh_pool None endless_min_options Infinity (Some Infinity)) = None /\
  workers (spawn 3 (fresh_pool None endless_min_options Infinity (Some Infinity)))
    = [0; 1; 2].
Proof.
  destruct (new_Pool_with_infinite_minWorkers_returns_no_pool node_env
              (OptionsOnly (Some endless_min_options)) (Int 7))
    as (H1 & H2 & H3).
  - vm_compute. reflexivity.
  - left. vm_compute. reflexivity.
  - split; [apply H1|]. split; [apply H2|]. apply (H3 3).
Defined.

(** ** Statistics *)

Lemma reachable_bounds (env : Environment) (args : PoolArgs) (s : State) :
  reachable env args s -> within_bounds s.
Proof.
  intros (s0 & ls & Hnew & Hrun).
  apply (run_invariant within_bounds bounds_fire ls s0 s Hrun).
  eapply bounds_new_Pool, Hnew.
Qed.

Lemma filter_length_le {A : Type} (f : A -> bool) (l : list A) :
  List.length (filter f l) <= List.length l.
Proof.
  induction l as [|x l IH]; simpl; [lia|]. destruct (f x); simpl; lia.
Qed.

Lemma queue_bounded_integer (s : State) (z : Z) :
  queue_bounded s -> maxQueueSize s = Whole (Int z) ->
  (Z.of_nat (List.length (tasks s)) <= Z.max z 0)%Z.
Proof.
  intros [Hq|Hq] Hz; [rewrite Hq; simpl; lia|].
  rewrite Hz in Hq. simpl in Hq. apply Z.leb_gt in Hq.
  destruct (tasks s); simpl in *; lia.
Qed.

(** X14: The numbers [stats] reports about a pool that was built and run are
    consistent with its limits, whatever the workers answer to [busy()] and
    [available()]: the total is within [maxWorkers], the busy, idle and
    available counts are each between zero and the total, and the pending
    tasks are those the test of line 136 let in: one less than their
    number was below [maxQueueSize], so that they are at most
    [maxQueueSize] when it is an integer. *)
Theorem stats_stay_within_the_limits (env : Environment) (args : PoolArgs)
    (available busy : nat -> bool) (s : State) :
  reachable env args s ->
  let st := stats available busy s in
  num_leb (Int (Z.of_nat (totalWorkers st))) (maxWorkers s) = true /\
  busyWorkers st <= totalWorkers st /\
  (0 <= idleWorkers st <= Z.of_nat (totalWorkers st))%Z /\
  availableWorkers st <= totalWorkers st /\
  (pendingTasks st = 0 \/
   reaches (pendingTasks st - 1) (maxQueueSize s) = false) /\
  (forall z, maxQueueSize s = Whole (Int z) ->
     (Z.of_nat (pendingTasks st) <= Z.max z 0)%Z).
Proof.
  intros Hreach. cbv zeta. unfold stats, getNumberAvailableWorkers.
  cbn [totalWorkers busyWorkers idleWorkers availableWorkers pendingTasks].
  destruct (reachable_bounds env args s Hreach) as [Hb _].
  pose proof (filter_length_le busy (workers s)) as Hbusy.
  pose proof (filter_length_le available (workers s)) as Hav.
  pose proof (reachable_queue_bounded env args s Hreach) as Hq.
  split; [exact Hb|]. split; [exact Hbusy|]. split; [lia|].
  split; [exact Hav|]. split.
  - destruct Hq as [H|H].
    + left. rewrite H. reflexivity.
    + right. exact H.
  - intros z. apply queue_bounded_integer, Hq.
Qed.

Lemma stats_stay_within_the_limits_witness :
  let st := stats all_free all_busy one_queued in
  num_leb (Int (Z.of_nat (totalWorkers st))) (maxWorkers one_queued) = true /\
  busyWorkers st <= totalWorkers st /\
  (0 <= idleWorkers st <= Z.of_nat (totalWorkers st))%Z /\
  availableWorkers st <= totalWorkers st /\
  (pendingTasks st = 0 \/
   reaches (pendingTasks st - 1) (maxQueueSize one_queued) = false) /\
  (forall z, maxQueueSize one_queued = Whole (Int z) ->
     (Z.of_nat (pendingTasks st) <= Z.max z 0)%Z).
Proof.
  apply (stats_stay_within_the_limits node_env
           (OptionsOnly (Some single_worker_options))).
  exists single_worker.
  exists [L_exec all_busy (MString "f") VUndefined None;
          L_exec all_busy (MString "g") VUndefined None].
  split; vm_compute; reflexivity.
Defined.

(** ** Terminating the whole pool *)

Lemma removeWorkerFromList_In (w x : nat) (s : State) :
  NoDup (workers s) ->
  In x (workers (_removeWorkerFromList w s)) ->
  In x (workers s) /\ x <> w.
Proof.
  intros Hnd. unfold _removeWorkerFromList.
  pose proof (indexOf_splice w (workers s)) as H.
  destruct (indexOf w (workers s)) as [i|].
  - destruct H as (l1 & l2 & H1 & _ & _ & H3). simpl. rewrite H3.
    rewrite H1 in Hnd. rewrite H1. intros Hx. split.
    + apply in_app_iff in Hx. apply in_app_iff.
      destruct Hx as [Hx|Hx]; [left; exact Hx|right; right; exact Hx].
    + intros ->. apply NoDup_remove_2 in Hnd. exact (Hnd Hx).
  - intros Hx. split; [exact Hx|]. intros ->. exact (H Hx).
Qed.

Lemma settle_terminations_workers (answer : nat -> settlement) (order : list nat)
    (s : State) (x : nat) :
  distinct_handles s ->
  In x (workers (settle_terminations answer order s)) ->
  In x (workers s) /\ ~ (In x order /\ answer x = Fulfilled (Some x)).
Proof.
  revert s. induction order as [|w rest IH]; intros s Hd Hx.
  - split; [exact Hx|]. intros [[] _].
  - cbn [settle_terminations fold_left] in Hx.
    pose proof (distinct_terminate_settled w (answer w) s Hd) as Hd'.
    destruct (IH _ Hd' Hx) as [Hin Hrest].
    assert (Hstep : In x (workers s) /\
                    (answer w = Fulfilled (Some x) -> False)).
    { unfold terminate_settled in Hin.
      change (workers (emit ?e ?a)) with (workers a) in Hin.
      destruct (answer w) as [[h|]|]; simpl in Hin.
      - destruct (removeWorkerFromList_In h x s (proj1 Hd) Hin) as [H1 H2].
        split; [exact H1|]. intros E. injection E as E. exact (H2 (eq_sym E)).
      - split; [exact Hin|discriminate].
      - split; [exact Hin|discriminate]. }
    destruct Hstep as [H1 H2]. split; [exact H1|].
    intros [[Hw|Hr] Ha].
    + subst w. exact (H2 Ha).
    + apply Hrest. split; assumption.
Qed.

Lemma settle_terminations_frame (answer : nat -> settlement) (order : list nat)
    (s : State) :
  desk (settle_terminations answer order s) = desk s /\
  events (settle_terminations answer order s) =
    events s ++ map OnTerminateWorker order.
Proof.
  revert s. induction order as [|w rest IH]; intros s.
  - simpl. rewrite app_nil_r. split; reflexivity.
  - cbn [settle_terminations fold_left map].
    destruct (IH (terminate_settled w (answer w) s)) as [H1 H2].
    unfold settle_terminations in H1, H2. rewrite H1, H2.
    split; [apply desk_terminate_settled|].
    unfold terminate_settled. rewrite events_emit, <- app_assoc.
    destruct (answer w) as [[h|]|]; simpl; try reflexivity.
    unfold _removeWorkerFromList. case_if; reflexivity.
Qed.

Lemma settle_terminations_empties (answer : nat -> settlement)
    (order : list nat) (s : State) :
  distinct_handles s ->
  (forall w, In w (workers s) ->
     In w order /\ answer w = Fulfilled (Some w)) ->
  workers (settle_terminations answer order s) = [].
Proof.
  intros Hd Hall.
  destruct (workers (settle_terminations answer order s)) as [|x l] eqn:E;
    [reflexivity|exfalso].
  assert (Hx : In x (workers (settle_terminations answer order s)))
    by (rewrite E; left; reflexivity).
  destruct (settle_terminations_workers answer order s x Hd Hx) as [H1 H2].
  apply H2, Hall, H1.
Qed.

(** X15: [terminate] brings the pool to rest: once the termination of every
    worker has succeeded, in whatever order the promises settle, the worker
    list is empty and so is the queue, [onTerminateWorker] has been called
    once for each settled promise, and a further [terminate] finds nothing
    to do and leaves the pool as it is. *)
Theorem terminate_empties_the_pool (env : Environment) (args : PoolArgs)
    (force tmo : value) (answer : nat -> settlement) (order : list nat)
    (s : State) :
  reachable env args s ->
  (forall w, In w (workers s) ->
     In w order /\ answer w = Fulfilled (Some w)) ->
  let s1 := snd (terminate force tmo s) in
  let s2 := settle_terminations answer order s1 in
  workers s2 = [] /\ tasks s2 = [] /\
  events s2 = events s1 ++ map OnTerminateWorker order /\
  forall force' tmo', terminate force' tmo' s2 = ([], s2).
Proof.
  intros Hreach Hall. cbv zeta.
  set (s1 := snd (terminate force tmo s)).
  pose proof (steady_terminate force tmo s) as Hst. fold s1 in Hst.
  assert (Hd1 : distinct_handles s1).
  { eapply distinct_steady; [exact Hst|].
    eapply reachable_distinct, Hreach. }
  rewrite <- (steady_workers s s1 Hst) in Hall.
  pose proof (settle_terminations_empties answer order s1 Hd1 Hall) as Hw.
  destruct (settle_terminations_frame answer order s1) as [Hdesk Hev].
  set (s2 := settle_terminations answer order s1) in *.
  assert (Ht : tasks s2 = []).
  { rewrite (desk_tasks s1 s2 Hdesk). apply tasks_terminate. }
  split; [exact Hw|]. split; [exact Ht|]. split; [exact Hev|].
  intros force' tmo'. unfold terminate. rewrite Ht. cbn [fold_left].
  change (workers (set_tasks [] s2)) with (workers s2). rewrite Hw.
  cbn [fold_left]. rewrite <- Ht. destruct s2; reflexivity.
Qed.

Lemma terminate_empties_the_pool_witness :
  let s1 := snd (terminate (VBool false) VUndefined two_workers) in
  let s2 := settle_terminations all_terminate [1; 0] s1 in
  workers s2 = [] /\ tasks s2 = [] /\
  events s2 = events s1 ++ map OnTerminateWorker [1; 0] /\
  forall force' tmo', terminate force' tmo' s2 = ([], s2).
Proof.
  apply (terminate_empties_the_pool node_env
           (OptionsOnly (Some two_workers_options))).
  - exists two_workers, []. split; vm_compute; reflexivity.
  - vm_compute. intros w [<-|[<-|[]]]; split; auto.
Defined.

(** ** The proxy *)



(** ** Work is not left waiting *)

Lemma dispatch_events (w : nat) (t : Task) (s : State) :
  In (WorkerExec w t) (events (dispatch w t s)).
Proof.
  unfold dispatch.
  destruct (timeout t) as [d|]; [destruct (isNumber d)|];
    rewrite ?events_emit, ?in_app_iff; simpl; auto.
Qed.

(** X17: [_next] wastes no free worker: when the task at the head of the queue
    is still pending and carries no affinity, and some worker of the list
    is available, the task leaves the queue and is handed to the first
    available worker of the list (round-robin off). *)
Theorem next_hands_head_to_first_free_worker (av : nat -> bool) (s : State)
    (t : Task) (rest : list Task) :
  tasks s = t :: rest ->
  pending (resolver t) s = true ->
  task_affinity t = None ->
  roundrobin s = false ->
  0 < getNumberAvailableWorkers av s ->
  exists l1 w l2,
    workers s = l1 ++ w :: l2 /\ Forall (fun x => av x = false) l1 /\
    av w = true /\
    tasks (_next av s) = rest /\
    executed (trace (_next av s)) = executed (trace s) ++ [t] /\
    In (WorkerExec w t) (events (_next av s)).
Proof.
  intros Hq Hp Ha Hrr Hpos. unfold getNumberAvailableWorkers in Hpos.
  pose proof (filter_find av (workers s)) as Hff.
  destruct (find av (workers s)) as [w|] eqn:E; [|lia].
  destruct (find_first av (workers s) w E) as (l1 & l2 & H1 & H2 & H3).
  exists l1, w, l2. split; [exact H1|]. split; [exact H2|]. split; [exact H3|].
  assert (Hw : fst (_getWorker av None s) = Some w).
  { unfold _getWorker. rewrite (select_scan av s Hrr), E. apply grow_chosen. }
  rewrite (next_cons av s t rest Hq), Ha, Hw. cbv zeta.
  destruct (quiet_getWorker av None s) as [Hset Hex].
  assert (Hp' : pending (resolver t) (set_tasks rest (snd (_getWorker av None s)))
                = true).
  { rewrite <- Hp. apply pending_settled. exact Hset. }
  rewrite Hp', tasks_dispatch.
  destruct (dispatch_executed w t (set_tasks rest (snd (_getWorker av None s))))
    as [_ Hd].
  rewrite Hd. split; [reflexivity|]. split; [|apply dispatch_events].
  f_equal. exact Hex.
Qed.

Lemma next_hands_head_to_first_free_worker_witness :
  exists l1 w l2,
    workers one_queued = l1 ++ w :: l2 /\
    Forall (fun x => all_free x = false) l1 /\
    all_free w = true /\
    tasks (_next all_free one_queued) = [] /\
    executed (trace (_next all_free one_queued)) =
      executed (trace one_queued) ++ [task_g] /\
    In (WorkerExec w task_g) (events (_next all_free one_queued)).
Proof.
  apply (next_hands_head_to_first_free_worker all_free one_queued task_g []).
  - vm_compute. reflexivity.
  - vm_compute. reflexivity.
  - vm_compute. reflexivity.
  - vm_compute. reflexivity.
  - vm_compute. lia.
Defined.

(** ** A terminated pool is not closed *)

Lemma settle_terminations_fixed (answer : nat -> settlement) (order : list nat)
    (s : State) :
  fixed (settle_terminations answer order s) = fixed s /\
  nextId (settle_terminations answer order s) = nextId s.
Proof.
  revert s. induction order as [|w rest IH]; intros s; [split; reflexivity|].
  cbn [settle_terminations fold_left].
  destruct (IH (terminate_settled w (answer w) s)) as [H1 H2].
  unfold settle_terminations in H1, H2. rewrite H1, H2.
  split; [apply fixed_terminate_settled|].
  unfold terminate_settled. destruct (answer w) as [[h|]|]; simpl; try reflexivity.
  unfold _removeWorkerFromList. case_if; reflexivity.
Qed.

Lemma reachable_max_pos (env : Environment) (args : PoolArgs) (s : State) :
  reachable env args s -> num_leb (Int 1) (maxWorkers s) = true.
Proof.
  intros (s0 & ls & Hnew & Hrun).
  pose proof (run_config ls s0 s Hrun) as Hc.
  destruct (new_Pool_spawned env args s0 Hnew) as (maxW & minW & Hpos & Hs).
  cbv zeta in Hs.
  pose proof (fixed_spawn
                (replacements (fresh_pool (given_script args) (given_options args)
                                 maxW minW) 0)
                (fresh_pool (given_script args) (given_options args) maxW minW))
    as Hf.
  destruct (check_threads_event env _ s0 Hs) as (_ & Hf0 & _).
  rewrite <- Hf0 in Hf. apply fixed_config in Hf.
  rewrite Hf in Hc. unfold config in Hc.
  injection Hc as _ _ _ _ _ Hm _. rewrite Hm. exact Hpos.
Qed.

(** X18: [terminate] does not close the pool.  After every worker has been
    terminated, a call of [exec] is served as in a new pool: a worker is
    created for it and the task is handed over inside the call (scaling not
    throttled, the queue not limited to nothing, the promise not settled
    beforehand). *)
Theorem exec_revives_a_terminated_pool (env : Environment) (args : PoolArgs)
    (force tmo : value) (answer : nat -> settlement) (order : list nat)
    (av : nat -> bool) (name : string) (ps : value) (opts : option ExecOptions)
    (s : State) :
  reachable env args s ->
  (forall w, In w (workers s) ->
     In w order /\ answer w = Fulfilled (Some w)) ->
  let s2 := settle_terminations answer order (snd (terminate force tmo s)) in
  bad_params ps = false ->
  gradualScaling s = Whole (Int 0) ->
  reaches 0 (maxQueueSize s) = false ->
  pending (nextId s) s2 = true ->
  workers s2 = [] /\
  fst (exec av (MString name) ps opts s2) = Returns (nextId s) /\
  workers (snd (exec av (MString name) ps opts s2)) <> [] /\
  executed (trace (snd (exec av (MString name) ps opts s2)))
    = executed (trace s2) ++ [mkTask name ps (nextId s) None opts].
Proof.
  intros Hreach Hall s2 Hps Hgs Hmq Hpend.
  pose proof (steady_terminate force tmo s) as Hst.
  assert (Hd1 : distinct_handles (snd (terminate force tmo s))).
  { eapply distinct_steady; [exact Hst|].
    eapply reachable_distinct, Hreach. }
  rewrite <- (steady_workers _ _ Hst) in Hall.
  pose proof (settle_terminations_empties answer order _ Hd1 Hall) as Hw.
  destruct (settle_terminations_frame answer order (snd (terminate force tmo s)))
    as [Hdesk _].
  destruct (settle_terminations_fixed answer order (snd (terminate force tmo s)))
    as [Hf Hid].
  fold s2 in Hw, Hdesk, Hf, Hid.
  assert (Ht : tasks s2 = []).
  { rewrite (desk_tasks _ s2 Hdesk). apply tasks_terminate. }
  rewrite fixed_terminate in Hf.
  rewrite (steady_nextId _ _ Hst) in Hid.
  assert (Hmax : maxWorkers s2 = maxWorkers s)
    by (unfold fixed in Hf; congruence).
  assert (Hmaxq : maxQueueSize s2 = maxQueueSize s)
    by (unfold fixed in Hf; congruence).
  assert (Hfull : queue_full s2 = false).
  { unfold queue_full. rewrite Ht, Hmaxq. exact Hmq. }
  assert (Hroom : at_capacity s2 = false).
  { unfold at_capacity. rewrite Hw, Hmax.
    pose proof (reachable_max_pos env args s Hreach) as Hpos.
    destruct (maxWorkers s) as [z|]; simpl in *; [|reflexivity].
    apply Z.leb_le in Hpos. apply negb_false_iff, Z.ltb_lt. lia. }
  rewrite <- Hid in Hpend |- *.
  destruct (submit_with_room av name ps opts s2 Ht Hfull Hroom
              (eq_trans (fixed_gradualScaling s s2 Hf) Hgs) Hpend)
    as (w & s1 & Hsub & [_ Hex] & Hne).
  rewrite exec_string. unfold exec_named. unfold bad_params in Hps.
  rewrite Hps, Hsub. cbn [fst snd].
  split; [exact Hw|]. split; [reflexivity|]. split.
  - rewrite (steady_workers _ _ (steady_dispatch w _ (set_tasks [] s1))).
    exact Hne.
  - destruct (dispatch_executed w (mkTask name ps (nextId s2) None opts)
                (set_tasks [] s1)) as [_ Hd].
    rewrite Hd. f_equal. exact Hex.
Qed.

Lemma exec_revives_a_terminated_pool_witness :
  let s2 := settle_terminations all_terminate [1; 0]
              (snd (terminate (VBool false) VUndefined two_workers)) in
  workers s2 = [] /\
  fst (exec all_busy (MString "f") VUndefined None s2)
    = Returns (nextId two_workers) /\
  workers (snd (exec all_busy (MString "f") VUndefined None s2)) <> [] /\
  executed (trace (snd (exec all_busy (MString "f") VUndefined None s2)))
    = executed (trace s2)
        ++ [mkTask "f" VUndefined (nextId two_workers) None None].
Proof.
  apply (exec_revives_a_terminated_pool node_env
           (OptionsOnly (Some two_workers_options))
           (VBool false) VUndefined all_terminate [1; 0] all_busy "f"
           VUndefined None two_workers).
  - exists two_workers, []. split; vm_compute; reflexivity.
  - vm_compute. intros w [<-|[<-|[]]]; split; auto.
  - vm_compute. reflexivity.
  - vm_compute. reflexivity.
  - vm_compute. reflexivity.
  - vm_compute. reflexivity.
Defined.

(** ** What the constructor refuses *)

(** Options with a key were given as an object. *)
Lemma options_object_or_none (args : PoolArgs) :
  primitive_options args = None \/ given_options args = no_options.
Proof.
  destruct args as [x [o|]|[o|]|x w|w]; simpl; auto.
Qed.

(** X19: The four refusals of the constructor, in the order the code comes
    to them.  A truthy boolean, number or string in the place of [options]
    makes ["maxWorkers" in options] on line 68 throw the engine's
    [TypeError]; a [maxWorkers] that is not an integer of at least [1] (or
    [Infinity]) and a [minWorkers] that is neither ["max"] nor an integer
    of at least [0] (or [Infinity]) are refused with the [TypeError]s of
    lines 545 and 556; and for the worker type ["thread"], a construction
    that would otherwise return a pool passes on what
    [WorkerHandler.ensureWorkerThreads] throws. *)
Theorem new_Pool_refuses_bad_options (env : Environment) (args : PoolArgs) :
  let o := given_options args in
  (forall v, primitive_options args = Some v ->
     new_Pool env args = Throws (InTypeError v)) /\
  (forall v, opt_maxWorkers o = Some v ->
     negb (isNumber v) || negb (isInteger v) || value_ltb v 1 = true ->
     new_Pool env args
       = Throws (TypeError "Option maxWorkers must be an integer number >= 1")) /\
  (forall maxW v, checked_maxWorkers env o = Returns maxW ->
     opt_minWorkers o = Some v -> is_max v = false ->
     negb (isNumber v) || negb (isInteger v) || value_ltb v 0 = true ->
     new_Pool env args
       = Throws (TypeError "Option minWorkers must be an integer number >= 0")) /\
  (forall e s0,
     new_Pool (mkEnvironment (cpus env) (Returns tt)) args = Returns s0 ->
     workerType s0 = "thread" ->
     ensureWorkerThreads env = Throws e ->
     new_Pool env args = Throws e).
Proof.
  cbv zeta. split; [|split; [|split]].
  - intros v Hv. unfold new_Pool. rewrite Hv. reflexivity.
  - intros v Hv Hbad.
    destruct (options_object_or_none args) as [Hp|Hn];
      [|rewrite Hn in Hv; discriminate].
    unfold new_Pool. rewrite Hp. unfold construct. rewrite Hv.
    unfold validateMaxWorkers. rewrite Hbad. reflexivity.
  - intros maxW v Hmax Hv Hnot Hbad.
    destruct (options_object_or_none args) as [Hp|Hn];
      [|rewrite Hn in Hv; discriminate].
    unfold new_Pool. rewrite Hp. unfold construct.
    unfold checked_maxWorkers in Hmax. rewrite Hmax. unfold bind at 1.
    rewrite Hv, Hnot. unfold validateMinWorkers. rewrite Hbad. reflexivity.
  - intros e s0 H Hwt He. unfold new_Pool in *.
    destruct (primitive_options args); [discriminate|].
    unfold construct in *.
    change (default_maxWorkers (mkEnvironment (cpus env) (Returns tt)))
      with (default_maxWorkers env) in H.
    destruct (match opt_maxWorkers (given_options args) with
              | Some v => validateMaxWorkers v
              | None => Returns (default_maxWorkers env)
              end) as [maxW| |]; try discriminate.
    unfold bind at 1 in H. unfold bind at 1.
    match goal with H : bind ?c _ = _ |- _ =>
      destruct c as [s1| |]; try discriminate
    end.
    unfold bind in H. unfold bind at 1.
    unfold check_threads in *.
    destruct (String.eqb (workerType s1) "thread") eqn:E.
    + rewrite He. reflexivity.
    + injection H as <-. rewrite Hwt in E. discriminate.
Qed.

Lemma new_Pool_refuses_bad_options_witness :
  new_Pool node_env (ValueOnly (VNumber (Int 4)))
    = Throws (InTypeError (VNumber (Int 4))) /\
  new_Pool node_env (ScriptAndValue "w.js" (VString "x"))
    = Throws (InTypeError (VString "x")) /\
  new_Pool node_env (OptionsOnly (Some fractional_max_options))
    = Throws (TypeError "Option maxWorkers must be an integer number >= 1") /\
  new_Pool node_env (OptionsOnly (Some negative_min_options))
    = Throws (TypeError "Option minWorkers must be an integer number >= 0") /\
  new_Pool no_threads_env (OptionsOnly (Some thread_options))
    = Throws no_threads_error.
Proof.
  split; [|split; [|split; [|split]]].
  - apply (new_Pool_refuses_bad_options node_env (ValueOnly (VNumber (Int 4)))).
    vm_compute. reflexivity.
  - apply (new_Pool_refuses_bad_options node_env
             (ScriptAndValue "w.js" (VString "x"))).
    vm_compute. reflexivity.
  - destruct (new_Pool_refuses_bad_options node_env
                (OptionsOnly (Some fractional_max_options))) as (_ & H & _).
    apply (H (VFraction 2)); vm_compute; reflexivity.
  - destruct (new_Pool_refuses_bad_options node_env
                (OptionsOnly (Some negative_min_options))) as (_ & _ & H & _).
    apply (H (Int 7) (VNumber (Int (-1)))); vm_compute; reflexivity.
  - destruct (new_Pool_refuses_bad_options no_threads_env
                (OptionsOnly (Some thread_options))) as (_ & _ & _ & H).
    apply (H no_threads_error thread_pool); vm_compute; reflexivity.
Defined.

(** ** The configuration *)

Lemma validateMinWorkers_stored (v : value) (m : num) :
  validateMinWorkers v = Returns m -> m = stored v.
Proof.
  unfold validateMinWorkers.
  destruct (negb (isNumber v) || negb (isInteger v) || value_ltb v 0);
    [discriminate|].
  intros H. injection H as <-. reflexivity.
Qed.

Lemma check_threads_config (env : Environment) (s1 s0 : State) :
  check_threads env s1 = Returns s0 -> config s0 = config s1.
Proof.
  intros H. destruct (check_threads_returns env s1 s0 H) as [->| ->];
    reflexivity.
Qed.

Lemma new_Pool_config (env : Environment) (args : PoolArgs) (s0 : State) :
  new_Pool env args = Returns s0 ->
  exists maxW,
    checked_maxWorkers env (given_options args) = Returns maxW /\
    config s0 =
      config (fresh_pool (given_script args) (given_options args)
                (fst (stored_bounds maxW (opt_minWorkers (given_options args))))
                (snd (stored_bounds maxW (opt_minWorkers (given_options args))))).
Proof.
  unfold new_Pool. destruct (primitive_options args); [discriminate|].
  unfold construct, checked_maxWorkers, stored_bounds.
  set (scr := given_script args). set (o := given_options args).
  intros H.
  destruct (match opt_maxWorkers o with
            | Some v => validateMaxWorkers v
            | None => Returns (default_maxWorkers env)
            end) as [maxW| |]; unfold bind at 1 in H; try discriminate.
  exists maxW. split; [reflexivity|].
  destruct (opt_minWorkers o) as [v|].
  - destruct (is_max v).
    + destruct (_ensureMinWorkers (fresh_pool scr o maxW (Some maxW)))
        as [s1| |] eqn:Ee; unfold bind at 1 in H; try discriminate.
      rewrite (check_threads_config env s1 s0 H).
      apply ensureMinWorkers_config, Ee.
    + destruct (validateMinWorkers v) as [m| |] eqn:Ev;
        unfold bind at 2 in H; try discriminate.
      apply validateMinWorkers_stored in Ev. subst m.
      destruct (_ensureMinWorkers
                  (fresh_pool scr o (num_max (stored v) maxW) (Some (stored v))))
        as [s1| |] eqn:Ee; unfold bind at 1 in H; try discriminate.
      rewrite (check_threads_config env s1 s0 H).
      apply ensureMinWorkers_config, Ee.
  - unfold bind in H. rewrite (check_threads_config env _ s0 H). reflexivity.
Qed.

(** X20: The configuration of a pool is what the constructor read from its
    arguments, for as long as the pool lives: no call and no callback of the
    pool assigns [script], [workerType], [roundrobin], [maxQueueSize],
    [gradualScaling], [maxWorkers] or [minWorkers] again.  [workerType]
    falls back on [nodeWorker] and then on ["auto"], [maxQueueSize] on
    [Infinity], [gradualScaling] on [0], and the two are otherwise stored
    as they were given; [minWorkers: "max"] stores [maxWorkers], and a
    [minWorkers] above [maxWorkers] raises it. *)
Theorem configuration_is_fixed_at_construction (env : Environment)
    (args : PoolArgs) (s : State) :
  reachable env args s ->
  let o := given_options args in
  script s = given_script args /\
  workerType s = str_or (opt_workerType o) (str_or (opt_nodeWorker o) "auto") /\
  roundrobin s = opt_roundrobin o /\
  maxQueueSize s = match opt_maxQueueSize o with
                   | Some n => if number_truthy n then n else Whole Infinity
                   | None => Whole Infinity
                   end /\
  gradualScaling s = match opt_gradualScaling o with
                     | Some g => if number_truthy g then g else Whole (Int 0)
                     | None => Whole (Int 0)
                     end /\
  exists maxW,
    checked_maxWorkers env o = Returns maxW /\
    (maxWorkers s, minWorkers s) = stored_bounds maxW (opt_minWorkers o).
Proof.
  intros (s0 & ls & Hnew & Hrun). cbv zeta.
  pose proof (run_config ls s0 s Hrun) as Hc.
  destruct (new_Pool_config env args s0 Hnew) as (maxW & Hmax & H0).
  rewrite H0 in Hc. unfold config in Hc. cbn [fresh_pool script workerType
    roundrobin maxQueueSize gradualScaling maxWorkers minWorkers] in Hc.
  injection Hc as -> -> -> -> -> Hw Hm.
  repeat (split; [reflexivity|]).
  exists maxW. split; [exact Hmax|].
  rewrite Hw, Hm. symmetry. apply surjective_pairing.
Qed.

Lemma configuration_is_fixed_at_construction_witness :
  let o := given_options (OptionsOnly (Some single_worker_options)) in
  script one_queued = given_script (OptionsOnly (Some single_worker_options)) /\
  workerType one_queued
    = str_or (opt_workerType o) (str_or (opt_nodeWorker o) "auto") /\
  roundrobin one_queued = opt_roundrobin o /\
  maxQueueSize one_queued = match opt_maxQueueSize o with
                            | Some n =>
                                if number_truthy n then n else Whole Infinity
                            | None => Whole Infinity
                            end /\
  gradualScaling one_queued = match opt_gradualScaling o with
                              | Some g =>
                                  if number_truthy g then g else Whole (Int 0)
                              | None => Whole (Int 0)
                              end /\
  exists maxW,
    checked_maxWorkers node_env o = Returns maxW /\
    (maxWorkers one_queued, minWorkers one_queued)
      = stored_bounds maxW (opt_minWorkers o).
Proof.
  apply (configuration_is_fixed_at_construction node_env
           (OptionsOnly (Some single_worker_options))).
  exists single_worker.
  exists [L_exec all_busy (MString "f") VUndefined None;
          L_exec all_busy (MString "g") VUndefined None].
  split; vm_compute; reflexivity.
Defined.
